(** * ParMmg: library entry points, memory-accounting macros, adjacency accessors

    Shallow embedding of
    - [libparmmg.c]  : [PMMG_check_inputData], [PMMG_preprocessMesh],
                       [PMMG_parmmglib_centralized], [PMMG_parmmglib_distributed];
    - [parmmg.h]     : [PMMG_CLEAN_AND_RETURN], [MEM_CHK_AVAIL], [PMMG_DEL_MEM],
                       [PMMG_MALLOC], [PMMG_CALLOC], [PMMG_REALLOC], [PMMG_RECALLOC];
    - [debug_pmmg.c] : [PMMG_adja_idx_of_face], [PMMG_adja_tetra_to_face],
                       [PMMG_adja_face_to_face].

    C [int] and [long long] values are integers of [Z]; signed overflow is
    undefined in C and is not modelled.  The conversions between [size_t]
    and [long long] that the macros perform are written out ([to_size_t],
    [to_ll]).  Verbose printing guarded by [imprim] and the chronometers
    are left out; error diagnostics are kept as events. *)

From Stdlib Require Import Ascii String.
From Stdlib Require Import ZArith Lia List Bool.
From Stdlib Require Import Floats.PrimFloat.
From stdpp Require Import base list.
Import ListNotations.

Local Open Scope Z_scope.

(** ** Return codes *)

(** Modelled from the spec: the header [libparmmg.h] that defines the return
    codes is not part of the sources at hand.  The spec orders the codes
    SUCCESS < LOW_FAILURE < STRONG_FAILURE (they are reduced with MPI_MAX);
    [PMMG_FAILURE] is only ever compared with [PMMG_SUCCESS]. *)
Definition PMMG_SUCCESS : Z := 0.
Definition PMMG_LOWFAILURE : Z := 1.
Definition PMMG_STRONGFAILURE : Z := 2.
Definition PMMG_FAILURE : Z := 4.

(** ** Integer conversions of the macros *)

(** Conversion of an integer to [size_t] (64 bits, unsigned). *)
Definition to_size_t (x : Z) : Z := x mod 2 ^ 64.

(** Conversion of a [size_t] to [long long] (64 bits, two's complement). *)
Definition to_ll (x : Z) : Z :=
  let y := x mod 2 ^ 64 in if y <? 2 ^ 63 then y else y - 2 ^ 64.

(** [(size)*sizeof(type)] stored in a [long long]. *)
Definition bytes_of (size sz : Z) : Z := to_ll (to_size_t size * sz).

(** A byte count that fits a [long long]. *)
Definition ll_range (x : Z) : Prop := - 2 ^ 63 <= x < 2 ^ 63.

(** ** Memory accounting macros (parmmg.h) *)

Module Mem.

(** The two fields of the structure (mesh or parmesh) handed to the macros. *)
Record acct := { memCur : Z; memMax : Z }.

Definition set_memCur (m : acct) (v : Z) : acct :=
  {| memCur := v; memMax := memMax m |}.

(** A heap block is named by its address; [None] is the NULL pointer. *)
Definition pointer := option positive.

(** Messages of [ERROR_AT]. *)
Inductive diag :=
| ExceededMaxMemory      (* " Exceeded max memory allowed: " *)
| FreeMoreThanAllocated  (* " Tried to free more mem than allocated: " *)
| MallocFailed           (* " malloc failed: " *)
| CallocFailed           (* " calloc failed: " *)
| ReallocFailed.         (* " Realloc failed: " *)

(** Effects of one macro expansion. [heap_call] records that the system
    allocator ([malloc], [calloc] or [realloc]) was called, [on_failure]
    that the [on_failure] argument was executed, [memset] that
    [PMMG_RECALLOC] cleared the tail of the block. *)
Record effect := {
  mesh : acct;
  ptr : pointer;
  log : list diag;
  heap_call : bool;
  on_failure : bool;
  memset : bool
}.

(** [MEM_CHK_AVAIL(mesh,bytes,msg)]: value left in [stat], and messages. *)
Definition MEM_CHK_AVAIL (m : acct) (bytes : Z) : Z * list diag :=
  if memCur m + bytes >? memMax m then (PMMG_FAILURE, [ExceededMaxMemory])
  else if memCur m + bytes <? 0 then (PMMG_SUCCESS, [FreeMoreThanAllocated])
  else (PMMG_SUCCESS, []).

(** [PMMG_DEL_MEM(mesh,ptr,size,type,msg)]; [sz] is [sizeof(type)]. *)
Definition PMMG_DEL_MEM (m : acct) (p : pointer) (size sz : Z) : effect :=
  let '(m1, l1) :=
    if negb (size =? 0) && bool_decide (p <> None) then
      let size_to_free := to_ll (to_size_t (- size) * sz) in
      let '(stat, l) := MEM_CHK_AVAIL m size_to_free in
      if stat =? PMMG_SUCCESS
      then (set_memCur m (memCur m + size_to_free), l)
      else (m, l)
    else (m, []) in
  {| mesh := m1; ptr := None; log := l1;
     heap_call := false; on_failure := false; memset := false |}.

(** [PMMG_MALLOC(mesh,ptr,size,type,msg,on_failure)]; [alloc] is what
    [malloc] returns if it is called. *)
Definition PMMG_MALLOC (m : acct) (size sz : Z) (alloc : pointer) : effect :=
  if negb (size =? 0) then
    let size_to_allocate := bytes_of size sz in
    let '(stat, l) := MEM_CHK_AVAIL m size_to_allocate in
    if stat =? PMMG_SUCCESS then
      match alloc with
      | None =>
          {| mesh := m; ptr := None; log := l ++ [MallocFailed];
             heap_call := true; on_failure := true; memset := false |}
      | Some a =>
          {| mesh := set_memCur m (memCur m + size_to_allocate);
             ptr := Some a; log := l;
             heap_call := true; on_failure := false; memset := false |}
      end
    else
      {| mesh := m; ptr := None; log := l;
         heap_call := false; on_failure := true; memset := false |}
  else
    {| mesh := m; ptr := None; log := [];
       heap_call := false; on_failure := false; memset := false |}.

(** [PMMG_CALLOC(mesh,ptr,size,type,msg,on_failure)]. *)
Definition PMMG_CALLOC (m : acct) (size sz : Z) (alloc : pointer) : effect :=
  if negb (size =? 0) then
    let size_to_allocate := bytes_of size sz in
    let '(stat, l) := MEM_CHK_AVAIL m size_to_allocate in
    if stat =? PMMG_SUCCESS then
      match alloc with
      | None =>
          {| mesh := m; ptr := None; log := l ++ [CallocFailed];
             heap_call := true; on_failure := true; memset := false |}
      | Some a =>
          {| mesh := set_memCur m (memCur m + size_to_allocate);
             ptr := Some a; log := l;
             heap_call := true; on_failure := false; memset := false |}
      end
    else
      {| mesh := m; ptr := None; log := l;
         heap_call := false; on_failure := true; memset := false |}
  else
    {| mesh := m; ptr := None; log := [];
       heap_call := false; on_failure := false; memset := false |}.

(** The nested [PMMG_DEL_MEM] of a failed [realloc], followed by
    [on_failure]. *)
Definition realloc_failed (m : acct) (p : pointer) (oldsize sz : Z)
    (l : list diag) : effect :=
  let d := PMMG_DEL_MEM m p oldsize sz in
  {| mesh := mesh d; ptr := ptr d; log := l ++ [ReallocFailed] ++ log d;
     heap_call := true; on_failure := true; memset := false |}.

(** [PMMG_REALLOC(mesh,ptr,newsize,oldsize,type,msg,on_failure)]; [None]
    is the failed assertion of the NULL-pointer branch. *)
Definition PMMG_REALLOC (m : acct) (p : pointer) (newsize oldsize sz : Z)
    (alloc : pointer) : option effect :=
  match p with
  | None =>
      if oldsize =? 0 then Some (PMMG_MALLOC m newsize sz alloc) else None
  | Some _ =>
      if newsize =? 0 then Some (PMMG_DEL_MEM m p oldsize sz)
      else if newsize <? oldsize then
        let size_to_allocate := bytes_of newsize sz in
        match alloc with
        | None => Some (realloc_failed m p oldsize sz [])
        | Some a =>
            Some {| mesh := set_memCur m
                      (memCur m - (bytes_of oldsize sz - size_to_allocate));
                    ptr := Some a; log := [];
                    heap_call := true; on_failure := false; memset := false |}
        end
      else if newsize >? oldsize then
        let size_to_allocate := to_ll (to_size_t (newsize - oldsize) * sz) in
        let '(stat, l) := MEM_CHK_AVAIL m size_to_allocate in
        if stat =? PMMG_SUCCESS then
          match alloc with
          | None => Some (realloc_failed m p oldsize sz l)
          | Some a =>
              Some {| mesh := set_memCur m (memCur m + size_to_allocate);
                      ptr := Some a; log := l;
                      heap_call := true; on_failure := false; memset := false |}
          end
        else
          Some {| mesh := m; ptr := p; log := l;
                  heap_call := false; on_failure := false; memset := false |}
      else
        Some {| mesh := m; ptr := p; log := [];
                heap_call := false; on_failure := false; memset := false |}
  end.

(** [PMMG_RECALLOC(mesh,ptr,newsize,oldsize,type,msg,on_failure)]:
    [my_stat] becomes [PMMG_FAILURE] exactly when [PMMG_REALLOC] runs its
    [on_failure] argument. *)
Definition PMMG_RECALLOC (m : acct) (p : pointer) (newsize oldsize sz : Z)
    (alloc : pointer) : option effect :=
  match PMMG_REALLOC m p newsize oldsize sz alloc with
  | None => None
  | Some e =>
      let my_stat := if on_failure e then PMMG_FAILURE else PMMG_SUCCESS in
      Some {| mesh := mesh e; ptr := ptr e; log := log e;
              heap_call := heap_call e; on_failure := on_failure e;
              memset := (my_stat =? PMMG_SUCCESS) && (newsize >? oldsize) |}
  end.

(** *** Sequences of macro calls on one mesh *)

(** One macro call of a program, with its operands and with the answer of
    the system allocator where one is asked for. *)
Inductive op :=
| OpMalloc (size sz : Z) (alloc : pointer)
| OpCalloc (size sz : Z) (alloc : pointer)
| OpRealloc (p : pointer) (newsize oldsize sz : Z) (alloc : pointer)
| OpRecalloc (p : pointer) (newsize oldsize sz : Z) (alloc : pointer)
| OpDelMem (p : pointer) (size sz : Z).

(** The mesh after one call; a failed assertion aborts and leaves the
    accounting as it was. *)
Definition exec (m : acct) (o : op) : acct :=
  match o with
  | OpMalloc size sz a => mesh (PMMG_MALLOC m size sz a)
  | OpCalloc size sz a => mesh (PMMG_CALLOC m size sz a)
  | OpRealloc p n o sz a =>
      match PMMG_REALLOC m p n o sz a with Some e => mesh e | None => m end
  | OpRecalloc p n o sz a =>
      match PMMG_RECALLOC m p n o sz a with Some e => mesh e | None => m end
  | OpDelMem p size sz => mesh (PMMG_DEL_MEM m p size sz)
  end.

(** The meshes after each call of a sequence. *)
Fixpoint exec_trace (m : acct) (os : list op) : list acct :=
  match os with
  | [] => []
  | o :: os' => let m' := exec m o in m' :: exec_trace m' os'
  end.

End Mem.

(** ** Data model (the fields of the Mmg and ParMmg structures that the
    embedded functions read or write) *)

(** [MMG5_Info]: options of a mesh. [hsiz] is a [double]. *)
Module MMG5_Info.
Record t := { lag : Z; iso : Z; optimLES : Z; optim : Z; hsiz : float }.
End MMG5_Info.

(** [MMG5_Mesh]. [adja] is the adjacency array ([[]] when not allocated). *)
Module MMG5_Mesh.
Record t := {
  np : Z; npi : Z; nt : Z; nti : Z; na : Z; nai : Z; ne : Z; nei : Z;
  nsols : Z;
  memMax : Z; memCur : Z;
  info : MMG5_Info.t;
  adja : list Z
}.
End MMG5_Mesh.

(** [MMG5_Sol]: a metric or a solution field; [m] is the array of values. *)
Module MMG5_Sol.
Record t := { np : Z; npi : Z; npmax : Z; size : Z; m : Mem.pointer }.
End MMG5_Sol.

(** [PMMG_Grp]: [mesh] and [met] are pointers ([None] is NULL), [sol] an
    array of solution structures. *)
Module PMMG_Grp.
Record t := {
  mesh : option MMG5_Mesh.t;
  met : option MMG5_Sol.t;
  sol : list MMG5_Sol.t
}.
End PMMG_Grp.

(** [PMMG_ParMesh]; [ngrp] is the length of [listgrp] and [imprim] stands
    for [info.imprim]. *)
Module PMMG_ParMesh.
Record t := {
  listgrp : list PMMG_Grp.t;
  myrank : Z;
  imprim : Z;
  memMax : Z; memCur : Z
}.
Definition ngrp (p : t) : Z := Z.of_nat (length (listgrp p)).
End PMMG_ParMesh.

Abbreviation MMG5_pMesh := MMG5_Mesh.t.
Abbreviation MMG5_pSol := MMG5_Sol.t.
Abbreviation PMMG_pGrp := PMMG_Grp.t.
Abbreviation PMMG_pParMesh := PMMG_ParMesh.t.

(** ** Adjacency accessors (debug_pmmg.c) *)

(** [PMMG_adja_idx_of_face]; [None] when an assertion fails or the array is
    read out of its bounds. *)
Definition PMMG_adja_idx_of_face (mesh : MMG5_pMesh) (element face : Z)
  : option Z :=
  let location := 4 * (element - 1) + 1 + face in
  let max_loc := 4 * (MMG5_Mesh.ne mesh - 1) + 5 in
  if negb ((face >=? 0) && (face <? 4)) then None
  else if negb ((location >? 0) && (location <? max_loc)) then None
  else MMG5_Mesh.adja mesh !! Z.to_nat location.

(** [PMMG_adja_tetra_to_face]: C division truncates toward zero. *)
Definition PMMG_adja_tetra_to_face (mesh : MMG5_pMesh) (element face : Z)
  : option Z :=
  match PMMG_adja_idx_of_face mesh element face with
  | Some v => Some (Z.quot v 4)
  | None => None
  end.

(** [PMMG_adja_face_to_face]: C remainder has the sign of the dividend. *)
Definition PMMG_adja_face_to_face (mesh : MMG5_pMesh) (element face : Z)
  : option Z :=
  match PMMG_adja_idx_of_face mesh element face with
  | Some v => Some (Z.rem v 4)
  | None => None
  end.

(** ** Counted loops *)

(** [for ( int k=from; k<from+n; ++k ) body], on a state. *)
Fixpoint for_loop {S : Type} (n : nat) (from : nat) (body : nat -> S -> S)
    (s : S) : S :=
  match n with
  | O => s
  | Datatypes.S n' => for_loop n' (Datatypes.S from) body (body from s)
  end.

(** The same loop with a body that can fail (an access outside an
    array): the first failure ends the function. *)
Fixpoint for_loop_opt {S : Type} (n : nat) (from : nat)
    (body : nat -> S -> option S) (s : S) : option S :=
  match n with
  | O => Some s
  | Datatypes.S n' =>
      match body from s with
      | Some s' => for_loop_opt n' (Datatypes.S from) body s'
      | None => None
      end
  end.

(** ** PMMG_CLEAN_AND_RETURN (parmmg.h) *)

Module Clean.

Definition mesh_set_npi (v : Z) (x : MMG5_pMesh) : MMG5_pMesh :=
  {| MMG5_Mesh.np := MMG5_Mesh.np x; MMG5_Mesh.npi := v;
     MMG5_Mesh.nt := MMG5_Mesh.nt x; MMG5_Mesh.nti := MMG5_Mesh.nti x;
     MMG5_Mesh.na := MMG5_Mesh.na x; MMG5_Mesh.nai := MMG5_Mesh.nai x;
     MMG5_Mesh.ne := MMG5_Mesh.ne x; MMG5_Mesh.nei := MMG5_Mesh.nei x;
     MMG5_Mesh.nsols := MMG5_Mesh.nsols x;
     MMG5_Mesh.memMax := MMG5_Mesh.memMax x;
     MMG5_Mesh.memCur := MMG5_Mesh.memCur x;
     MMG5_Mesh.info := MMG5_Mesh.info x; MMG5_Mesh.adja := MMG5_Mesh.adja x |}.

Definition mesh_set_nti (v : Z) (x : MMG5_pMesh) : MMG5_pMesh :=
  {| MMG5_Mesh.np := MMG5_Mesh.np x; MMG5_Mesh.npi := MMG5_Mesh.npi x;
     MMG5_Mesh.nt := MMG5_Mesh.nt x; MMG5_Mesh.nti := v;
     MMG5_Mesh.na := MMG5_Mesh.na x; MMG5_Mesh.nai := MMG5_Mesh.nai x;
     MMG5_Mesh.ne := MMG5_Mesh.ne x; MMG5_Mesh.nei := MMG5_Mesh.nei x;
     MMG5_Mesh.nsols := MMG5_Mesh.nsols x;
     MMG5_Mesh.memMax := MMG5_Mesh.memMax x;
     MMG5_Mesh.memCur := MMG5_Mesh.memCur x;
     MMG5_Mesh.info := MMG5_Mesh.info x; MMG5_Mesh.adja := MMG5_Mesh.adja x |}.

Definition mesh_set_nai (v : Z) (x : MMG5_pMesh) : MMG5_pMesh :=
  {| MMG5_Mesh.np := MMG5_Mesh.np x; MMG5_Mesh.npi := MMG5_Mesh.npi x;
     MMG5_Mesh.nt := MMG5_Mesh.nt x; MMG5_Mesh.nti := MMG5_Mesh.nti x;
     MMG5_Mesh.na := MMG5_Mesh.na x; MMG5_Mesh.nai := v;
     MMG5_Mesh.ne := MMG5_Mesh.ne x; MMG5_Mesh.nei := MMG5_Mesh.nei x;
     MMG5_Mesh.nsols := MMG5_Mesh.nsols x;
     MMG5_Mesh.memMax := MMG5_Mesh.memMax x;
     MMG5_Mesh.memCur := MMG5_Mesh.memCur x;
     MMG5_Mesh.info := MMG5_Mesh.info x; MMG5_Mesh.adja := MMG5_Mesh.adja x |}.

Definition mesh_set_nei (v : Z) (x : MMG5_pMesh) : MMG5_pMesh :=
  {| MMG5_Mesh.np := MMG5_Mesh.np x; MMG5_Mesh.npi := MMG5_Mesh.npi x;
     MMG5_Mesh.nt := MMG5_Mesh.nt x; MMG5_Mesh.nti := MMG5_Mesh.nti x;
     MMG5_Mesh.na := MMG5_Mesh.na x; MMG5_Mesh.nai := MMG5_Mesh.nai x;
     MMG5_Mesh.ne := MMG5_Mesh.ne x; MMG5_Mesh.nei := v;
     MMG5_Mesh.nsols := MMG5_Mesh.nsols x;
     MMG5_Mesh.memMax := MMG5_Mesh.memMax x;
     MMG5_Mesh.memCur := MMG5_Mesh.memCur x;
     MMG5_Mesh.info := MMG5_Mesh.info x; MMG5_Mesh.adja := MMG5_Mesh.adja x |}.

Definition sol_set_npi (v : Z) (x : MMG5_pSol) : MMG5_pSol :=
  {| MMG5_Sol.np := MMG5_Sol.np x; MMG5_Sol.npi := v;
     MMG5_Sol.npmax := MMG5_Sol.npmax x; MMG5_Sol.size := MMG5_Sol.size x;
     MMG5_Sol.m := MMG5_Sol.m x |}.

Definition grp_set_mesh (v : option MMG5_pMesh) (g : PMMG_pGrp) : PMMG_pGrp :=
  {| PMMG_Grp.mesh := v; PMMG_Grp.met := PMMG_Grp.met g;
     PMMG_Grp.sol := PMMG_Grp.sol g |}.

Definition grp_set_met (v : option MMG5_pSol) (g : PMMG_pGrp) : PMMG_pGrp :=
  {| PMMG_Grp.mesh := PMMG_Grp.mesh g; PMMG_Grp.met := v;
     PMMG_Grp.sol := PMMG_Grp.sol g |}.

Definition grp_set_sol (v : list MMG5_pSol) (g : PMMG_pGrp) : PMMG_pGrp :=
  {| PMMG_Grp.mesh := PMMG_Grp.mesh g; PMMG_Grp.met := PMMG_Grp.met g;
     PMMG_Grp.sol := v |}.

Definition parmesh_set_listgrp (v : list PMMG_pGrp) (p : PMMG_pParMesh)
  : PMMG_pParMesh :=
  {| PMMG_ParMesh.listgrp := v;
     PMMG_ParMesh.myrank := PMMG_ParMesh.myrank p;
     PMMG_ParMesh.imprim := PMMG_ParMesh.imprim p;
     PMMG_ParMesh.memMax := PMMG_ParMesh.memMax p;
     PMMG_ParMesh.memCur := PMMG_ParMesh.memCur p |}.

(** First block of the loop body: the four assignments on the mesh. *)
Definition clean_mesh (g : PMMG_pGrp) : PMMG_pGrp :=
  match PMMG_Grp.mesh g with
  | Some x =>
      let x := mesh_set_npi (MMG5_Mesh.np x) x in
      let x := mesh_set_nti (MMG5_Mesh.nt x) x in
      let x := mesh_set_nai (MMG5_Mesh.na x) x in
      let x := mesh_set_nei (MMG5_Mesh.ne x) x in
      grp_set_mesh (Some x) g
  | None => g
  end.

(** Second block: the metric. *)
Definition clean_met (g : PMMG_pGrp) : PMMG_pGrp :=
  match PMMG_Grp.met g with
  | Some s => grp_set_met (Some (sol_set_npi (MMG5_Sol.np s) s)) g
  | None => g
  end.

(** Third block: the loop over [ksol < mesh->nsols], which reads and
    writes [sol[ksol]] with no test on [sol]: [None] when the array [sol]
    of the group has no entry [ksol] (NULL, or shorter than
    [mesh->nsols]). *)
Definition clean_sols (g : PMMG_pGrp) : option PMMG_pGrp :=
  match PMMG_Grp.mesh g with
  | Some x =>
      for_loop_opt (Z.to_nat (MMG5_Mesh.nsols x)) 0
        (fun ksol g =>
           match PMMG_Grp.sol g !! ksol with
           | Some s =>
               Some (grp_set_sol
                       (<[ksol := sol_set_npi (MMG5_Sol.np s) s]>
                          (PMMG_Grp.sol g)) g)
           | None => None
           end)
        g
  | None => Some g
  end.

Definition clean_grp (g : PMMG_pGrp) : option PMMG_pGrp :=
  clean_sols (clean_met (clean_mesh g)).

(** [PMMG_CLEAN_AND_RETURN(parmesh,val)]: the parmesh at the [return] and
    the returned value; [None] when the loop over the solutions of a
    group leaves its array. *)
Definition PMMG_CLEAN_AND_RETURN (parmesh : PMMG_pParMesh) (val : Z)
  : option (PMMG_pParMesh * Z) :=
  match
    for_loop_opt (Z.to_nat (PMMG_ParMesh.ngrp parmesh)) 0
      (fun kgrp p =>
         match PMMG_ParMesh.listgrp p !! kgrp with
         | Some g =>
             match clean_grp g with
             | Some g' =>
                 Some (parmesh_set_listgrp
                         (<[kgrp := g']> (PMMG_ParMesh.listgrp p)) p)
             | None => None
             end
         | None => None
         end)
      parmesh
  with
  | Some parmesh' => Some (parmesh', val)
  | None => None
  end.

End Clean.

(** ** PMMG_check_inputData (libparmmg.c) *)

(** Messages printed by the input check and by the entry points. *)
Inductive message :=
| Err_lag                 (* lagrangian mode unavailable *)
| Err_iso                 (* level-set discretisation unavailable *)
| Err_optimLES            (* optimLES unavailable with an anisotropic metric *)
| Err_optim_metric        (* OPTIM OPTION CAN NOT BE USED WITH AN INPUT METRIC *)
| Err_hsiz_metric         (* HSIZ OPTION CAN NOT BE USED WITH AN INPUT METRIC *)
| Err_hsiz_optim          (* HSIZ AND OPTIM OPTIONS CAN NOT BE USED TOGETHER *)
| Warn_wrong_metric_number (* WARNING: WRONG METRIC NUMBER. IGNORED *)
| Err_wrong_data_type     (* ERROR: WRONG DATA TYPE *)
| Msg_no_boundary.        (* IMPOSSIBLE TO BUILD THE BOUNDARY MESH *)

Module InputData.

Definition mesh_set_memCur (v : Z) (x : MMG5_pMesh) : MMG5_pMesh :=
  {| MMG5_Mesh.np := MMG5_Mesh.np x; MMG5_Mesh.npi := MMG5_Mesh.npi x;
     MMG5_Mesh.nt := MMG5_Mesh.nt x; MMG5_Mesh.nti := MMG5_Mesh.nti x;
     MMG5_Mesh.na := MMG5_Mesh.na x; MMG5_Mesh.nai := MMG5_Mesh.nai x;
     MMG5_Mesh.ne := MMG5_Mesh.ne x; MMG5_Mesh.nei := MMG5_Mesh.nei x;
     MMG5_Mesh.nsols := MMG5_Mesh.nsols x;
     MMG5_Mesh.memMax := MMG5_Mesh.memMax x;
     MMG5_Mesh.memCur := v;
     MMG5_Mesh.info := MMG5_Mesh.info x; MMG5_Mesh.adja := MMG5_Mesh.adja x |}.

Definition sol_set_np (v : Z) (x : MMG5_pSol) : MMG5_pSol :=
  {| MMG5_Sol.np := v; MMG5_Sol.npi := MMG5_Sol.npi x;
     MMG5_Sol.npmax := MMG5_Sol.npmax x; MMG5_Sol.size := MMG5_Sol.size x;
     MMG5_Sol.m := MMG5_Sol.m x |}.

Definition sol_set_m (v : Mem.pointer) (x : MMG5_pSol) : MMG5_pSol :=
  {| MMG5_Sol.np := MMG5_Sol.np x; MMG5_Sol.npi := MMG5_Sol.npi x;
     MMG5_Sol.npmax := MMG5_Sol.npmax x; MMG5_Sol.size := MMG5_Sol.size x;
     MMG5_Sol.m := v |}.

(** [sizeof(double)]. *)
Definition sizeof_double : Z := 8.

(** [_MMG5_DEL_MEM(mesh,met->m,size)], a macro of the Mmg library
    (mmgcommon.h, not among the sources at hand): the byte count is
    subtracted from [memCur] and the array is freed and set to NULL. *)
Definition MMG5_DEL_MEM_m (mesh : MMG5_pMesh) (met : MMG5_pSol) (size : Z)
  : MMG5_pMesh * MMG5_pSol :=
  (mesh_set_memCur (MMG5_Mesh.memCur mesh - to_ll size) mesh,
   sol_set_m None met).

(** What one iteration of the loop does with its group: [Reject d] is
    [return 0] after message [d]; [Accept g w] goes on to the next group,
    the group now being [g], after the messages [w]. *)
Inductive verdict :=
| Reject (d : message)
| Accept (g : PMMG_pGrp) (w : list message).

(** [mesh->info.hsiz>0.] *)
Definition hsiz_pos (mesh : MMG5_pMesh) : bool :=
  PrimFloat.ltb 0%float (MMG5_Info.hsiz (MMG5_Mesh.info mesh)).

(** The part of the loop body that reads the metric.
    [_MMG5_warnOrientation] only prints and is left out. *)
Definition check_met (g : PMMG_pGrp) (mesh : MMG5_pMesh) (met : MMG5_pSol)
  : verdict :=
  let info := MMG5_Mesh.info mesh in
  if negb (MMG5_Info.optimLES info =? 0) && (MMG5_Sol.size met =? 6)
  then Reject Err_optimLES
  else if negb (MMG5_Sol.np met =? 0) && negb (MMG5_Info.optim info =? 0)
  then Reject Err_optim_metric
  else if negb (MMG5_Sol.np met =? 0) && hsiz_pos mesh
  then Reject Err_hsiz_metric
  else if negb (MMG5_Info.optim info =? 0) && hsiz_pos mesh
  then Reject Err_hsiz_optim
  else if negb (MMG5_Sol.np met =? 0)
          && negb (MMG5_Sol.np met =? MMG5_Mesh.np mesh)
  then
    let '(mesh', met') :=
      MMG5_DEL_MEM_m mesh met
        (to_size_t (MMG5_Sol.size met * (MMG5_Sol.npmax met + 1))
         * sizeof_double) in
    Accept {| PMMG_Grp.mesh := Some mesh';
              PMMG_Grp.met := Some (sol_set_np 0 met');
              PMMG_Grp.sol := PMMG_Grp.sol g |}
           [Warn_wrong_metric_number]
  else if negb (MMG5_Sol.size met =? 1) && negb (MMG5_Sol.size met =? 6)
  then Reject Err_wrong_data_type
  else Accept g [].

(** The body of the loop over the groups; [None] is the dereference of a
    NULL [mesh] or [met]. *)
Definition check_grp (g : PMMG_pGrp) : option verdict :=
  match PMMG_Grp.mesh g with
  | None => None
  | Some mesh =>
      let info := MMG5_Mesh.info mesh in
      if MMG5_Info.lag info >? -1 then Some (Reject Err_lag)
      else if negb (MMG5_Info.iso info =? 0) then Some (Reject Err_iso)
      else match PMMG_Grp.met g with
           | None => None
           | Some met => Some (check_met g mesh met)
           end
  end.

(** The loop [for ( k=0; k<parmesh->ngrp; ++k )]: returned value, messages
    and the groups as the function leaves them. *)
Fixpoint check_groups (gs : list PMMG_pGrp)
  : option (Z * list message * list PMMG_pGrp) :=
  match gs with
  | [] => Some (1, [], [])
  | g :: gs' =>
      match check_grp g with
      | None => None
      | Some (Reject d) => Some (0, [d], g :: gs')
      | Some (Accept g' w) =>
          match check_groups gs' with
          | None => None
          | Some (r, l, gs'') => Some (r, w ++ l, g' :: gs'')
          end
      end
  end.

Definition PMMG_check_inputData (parmesh : PMMG_pParMesh)
  : option (Z * list message * PMMG_pParMesh) :=
  match check_groups (PMMG_ParMesh.listgrp parmesh) with
  | None => None
  | Some (r, l, gs) => Some (r, l, Clean.parmesh_set_listgrp gs parmesh)
  end.

End InputData.

(** ** The collaborators of the entry points *)

(** Functions of the Mmg library and of the other ParMmg modules that the
    entry points call and whose code is elsewhere.  Each takes the
    structures it is handed and gives back its return value and the
    structures as it leaves them. *)
Record Collaborators := {
  MMG5_scaleMesh : MMG5_pMesh * MMG5_pSol -> Z * (MMG5_pMesh * MMG5_pSol);
  MMG5_unscaleMesh : MMG5_pMesh * MMG5_pSol -> Z * (MMG5_pMesh * MMG5_pSol);
  MMG3D_doSol : MMG5_pMesh * MMG5_pSol -> Z * (MMG5_pMesh * MMG5_pSol);
  MMG3D_solTruncatureForOptim :
    MMG5_pMesh * MMG5_pSol -> MMG5_pMesh * MMG5_pSol;
  MMG3D_Set_constantSize :
    MMG5_pMesh * MMG5_pSol -> Z * (MMG5_pMesh * MMG5_pSol);
  MMG3D_tetraQual : MMG5_pMesh * MMG5_pSol -> Z * (MMG5_pMesh * MMG5_pSol);
  MMG3D_inqua : MMG5_pMesh * MMG5_pSol -> Z * (MMG5_pMesh * MMG5_pSol);
  MMG3D_analys : MMG5_pMesh -> Z * MMG5_pMesh;
  MMG3D_hashTetra : MMG5_pMesh -> Z -> Z * MMG5_pMesh;
  MMG3D_bdryBuild : MMG5_pMesh -> Z * MMG5_pMesh;
  PMMG_bcast_mesh : PMMG_pParMesh -> Z * PMMG_pParMesh;
  PMMG_distribute_mesh : PMMG_pParMesh -> Z * PMMG_pParMesh;
  PMMG_parmmglib1 : PMMG_pParMesh -> Z * PMMG_pParMesh;
  PMMG_merge_parmesh : PMMG_pParMesh -> Z * PMMG_pParMesh;
  PMMG_parmesh_Free_Comm : PMMG_pParMesh -> PMMG_pParMesh;
  (** return code of the [MPI_Allreduce] wrapped in [MPI_CHECK] *)
  MPI_Allreduce_rc : Z
}.

(** Modelled from the spec: [MPI_CHECK] and [MPI_SUCCESS] come from
    headers (mpi_pmmg.h, mpi.h) that are not among the sources at hand;
    the spec takes the transport as given.  [MPI_CHECK(call,on_failure)]
    is taken to run [on_failure] when [call] returns a value other than
    [MPI_SUCCESS]. *)
Definition MPI_SUCCESS : Z := 0.

(** ** Blocks of statements with early [return] *)

(** A block either falls through to the next statement or returns. *)
Inductive flow (S : Type) :=
| Next (s : S)
| Return (v : Z) (s : S).
Arguments Next {S} s.
Arguments Return {S} v s.

Definition andThen {S : Type} (a : flow S) (k : S -> flow S) : flow S :=
  match a with
  | Next s => k s
  | Return v s => Return v s
  end.

Notation "a ;;; k" := (andThen a k) (at level 61, left associativity).

(** [if ( !f(mesh,met) ) return v;] *)
Definition orReturn {S : Type} (f : S -> Z * S) (v : Z) (s : S) : flow S :=
  let '(r, s') := f s in if r =? 0 then Return v s' else Next s'.

(** [if ( c ) { block }] *)
Definition when {S : Type} (c : bool) (block : S -> flow S) (s : S)
  : flow S :=
  if c then block s else Next s.

(** ** PMMG_preprocessMesh (libparmmg.c) *)

Section Driver.

Variable K : Collaborators.

Definition on_mesh (f : MMG5_pMesh -> Z * MMG5_pMesh)
    (s : MMG5_pMesh * MMG5_pSol) : Z * (MMG5_pMesh * MMG5_pSol) :=
  let '(r, mesh') := f (fst s) in (r, (mesh', snd s)).

(** The statements of [PMMG_preprocessMesh] after the assertion, on the
    mesh and metric of the first group.  [_MMG3D_Set_commonFunc],
    [MMG3D_setfunc] (function pointers) and [_MMG3D_prilen] (printing) do
    not act on the modelled structures. *)
Definition preprocess_body (imprim : Z) (s : MMG5_pMesh * MMG5_pSol)
  : flow (MMG5_pMesh * MMG5_pSol) :=
  orReturn (MMG5_scaleMesh K) PMMG_LOWFAILURE s ;;;
  (fun s =>
     when (negb (MMG5_Info.optim (MMG5_Mesh.info (fst s)) =? 0)
           && (MMG5_Sol.np (snd s) =? 0))
       (fun s =>
          orReturn (MMG3D_doSol K) PMMG_STRONGFAILURE s ;;;
          (fun s => Next (MMG3D_solTruncatureForOptim K s))) s) ;;;
  (fun s =>
     when (InputData.hsiz_pos (fst s))
       (orReturn (MMG3D_Set_constantSize K) PMMG_STRONGFAILURE) s) ;;;
  orReturn (MMG3D_tetraQual K) PMMG_STRONGFAILURE ;;;
  when (Z.abs imprim >? 0) (orReturn (MMG3D_inqua K) PMMG_STRONGFAILURE) ;;;
  orReturn (on_mesh (MMG3D_analys K)) PMMG_STRONGFAILURE ;;;
  orReturn (MMG5_unscaleMesh K) PMMG_STRONGFAILURE ;;;
  (fun s => Return PMMG_SUCCESS s).

Definition flow_value {S : Type} (a : flow S) : Z :=
  match a with Next _ => PMMG_SUCCESS | Return v _ => v end.

Definition flow_state {S : Type} (a : flow S) : S :=
  match a with Next s => s | Return _ s => s end.

(** Writes the mesh and metric of group [k] back. *)
Definition store_grp (k : nat) (s : MMG5_pMesh * MMG5_pSol)
    (parmesh : PMMG_pParMesh) : PMMG_pParMesh :=
  Clean.parmesh_set_listgrp
    (alter (fun g => Clean.grp_set_met (Some (snd s))
                       (Clean.grp_set_mesh (Some (fst s)) g))
       k (PMMG_ParMesh.listgrp parmesh))
    parmesh.

(** The mesh and metric of group [k], when both pointers are set. *)
Definition load_grp (k : nat) (parmesh : PMMG_pParMesh)
  : option (MMG5_pMesh * MMG5_pSol) :=
  match PMMG_ParMesh.listgrp parmesh !! k with
  | Some g =>
      match PMMG_Grp.mesh g, PMMG_Grp.met g with
      | Some mesh, Some met => Some (mesh, met)
      | _, _ => None
      end
  | None => None
  end.

(** [PMMG_preprocessMesh]; [None] is the failed assertion (or the NULL
    dereference that follows it). *)
Definition PMMG_preprocessMesh (parmesh : PMMG_pParMesh)
  : option (Z * PMMG_pParMesh) :=
  match load_grp 0 parmesh with
  | None => None
  | Some s =>
      let a := preprocess_body (PMMG_ParMesh.imprim parmesh) s in
      Some (flow_value a, store_grp 0 (flow_state a) parmesh)
  end.

End Driver.

(** ** Processes *)

(** The calls an entry point can make that the statements speak of: the phases
    of the driver and the release functions declared in parmmg.h. *)
Inductive call :=
| C_bcast_mesh
| C_preprocessMesh
| C_unscaleMesh
| C_distribute_mesh
| C_parmmglib1
| C_merge_parmesh
| C_parmesh_Free_Comm
| C_hashTetra
| C_bdryBuild
| C_parmesh_Free_Listgrp
| C_listgrp_free
| C_grp_free
| C_Free_all.

Inductive redop := MPI_MIN | MPI_MAX.

(** What the code of an entry point does between two collectives. *)
Inductive action :=
| ACheck (ret : Z)            (* PMMG_check_inputData returned [ret] *)
| APrint (d : message)        (* a diagnostic was printed *)
| ACall (c : call) (ret : Z)  (* a collaborator was called and returned *)
| AClean.                     (* the loop of PMMG_CLEAN_AND_RETURN ran *)

(** The trace of a process: its actions, and the collectives it has
    completed, [Allreduced op send recv] being an [MPI_Allreduce] to which
    the process contributed [send] and that gave [recv]. *)
Inductive event :=
| Act (a : action)
| Allreduced (op : redop) (send recv : Z).

(** The code of an entry point on one process: it returns [val] leaving
    the parmesh as given, it crashes (NULL dereference, failed assertion),
    it does an action and goes on, or it calls [MPI_Allreduce] with a
    value and goes on with the reduced one. *)
Inductive Proc :=
| Done (val : Z) (parmesh : PMMG_pParMesh)
| Fault
| Emit (a : action) (rest : Proc)
| Coll (op : redop) (send : Z) (k : Z -> Proc).

Fixpoint emit_all (acts : list action) (rest : Proc) : Proc :=
  match acts with
  | [] => rest
  | a :: acts' => Emit a (emit_all acts' rest)
  end.

(** [PMMG_CLEAN_AND_RETURN(parmesh,val)] as the last statement. *)
Definition clean_and_return (parmesh : PMMG_pParMesh) (val : Z) : Proc :=
  match Clean.PMMG_CLEAN_AND_RETURN parmesh val with
  | Some (parmesh', v) => Emit AClean (Done v parmesh')
  | None => Fault
  end.

Definition mesh_set_memMax (v : Z) (x : MMG5_pMesh) : MMG5_pMesh :=
  {| MMG5_Mesh.np := MMG5_Mesh.np x; MMG5_Mesh.npi := MMG5_Mesh.npi x;
     MMG5_Mesh.nt := MMG5_Mesh.nt x; MMG5_Mesh.nti := MMG5_Mesh.nti x;
     MMG5_Mesh.na := MMG5_Mesh.na x; MMG5_Mesh.nai := MMG5_Mesh.nai x;
     MMG5_Mesh.ne := MMG5_Mesh.ne x; MMG5_Mesh.nei := MMG5_Mesh.nei x;
     MMG5_Mesh.nsols := MMG5_Mesh.nsols x;
     MMG5_Mesh.memMax := v;
     MMG5_Mesh.memCur := MMG5_Mesh.memCur x;
     MMG5_Mesh.info := MMG5_Mesh.info x; MMG5_Mesh.adja := MMG5_Mesh.adja x |}.

Definition parmesh_set_memMax (v : Z) (p : PMMG_pParMesh) : PMMG_pParMesh :=
  {| PMMG_ParMesh.listgrp := PMMG_ParMesh.listgrp p;
     PMMG_ParMesh.myrank := PMMG_ParMesh.myrank p;
     PMMG_ParMesh.imprim := PMMG_ParMesh.imprim p;
     PMMG_ParMesh.memMax := v;
     PMMG_ParMesh.memCur := PMMG_ParMesh.memCur p |}.

(** The mesh of the first group, [parmesh->listgrp[0].mesh]. *)
Definition mesh0 (parmesh : PMMG_pParMesh) : option MMG5_pMesh :=
  match PMMG_ParMesh.listgrp parmesh !! 0%nat with
  | Some g => PMMG_Grp.mesh g
  | None => None
  end.

Definition store_mesh0 (mesh : MMG5_pMesh) (parmesh : PMMG_pParMesh)
  : PMMG_pParMesh :=
  Clean.parmesh_set_listgrp
    (alter (Clean.grp_set_mesh (Some mesh)) 0%nat
       (PMMG_ParMesh.listgrp parmesh))
    parmesh.

Section EntryPoints.

Variable K : Collaborators.

(** "All the memory is devoted to the mesh":
    [PMMG_parmesh_Free_Comm(parmesh); tmpmem = parmesh->memMax - parmesh->memCur;
     parmesh->memMax = parmesh->memCur; parmesh->listgrp[0].mesh->memMax += tmpmem;]
    [None] when there is no first mesh to dereference. *)
Definition devote_memory (parmesh : PMMG_pParMesh) : option PMMG_pParMesh :=
  let parmesh := PMMG_parmesh_Free_Comm K parmesh in
  let tmpmem := PMMG_ParMesh.memMax parmesh - PMMG_ParMesh.memCur parmesh in
  let parmesh := parmesh_set_memMax (PMMG_ParMesh.memCur parmesh) parmesh in
  match mesh0 parmesh with
  | Some mesh =>
      Some (store_mesh0
              (mesh_set_memMax (MMG5_Mesh.memMax mesh + tmpmem) mesh) parmesh)
  | None => None
  end.

(** [(!MMG3D_hashTetra( mesh, 0 )) || (-1 == MMG3D_bdryBuild( mesh ))]:
    the value of the condition, the calls made and the mesh afterwards. *)
Definition boundary_fails (mesh : MMG5_pMesh)
  : bool * list action * MMG5_pMesh :=
  let '(r1, mesh1) := MMG3D_hashTetra K mesh 0 in
  if r1 =? 0 then (true, [ACall C_hashTetra r1], mesh1)
  else
    let '(r2, mesh2) := MMG3D_bdryBuild K mesh1 in
    (r2 =? -1, [ACall C_hashTetra r1; ACall C_bdryBuild r2], mesh2).

(** [if ( (ier==PMMG_STRONGFAILURE) && _MMG5_unscaleMesh( mesh, met ) )
      ier = PMMG_LOWFAILURE;] with [mesh], [met] those of group [k]:
    the new [ier], the calls made and the parmesh afterwards. *)
Definition unscale_if_strong (k : nat) (ier : Z) (parmesh : PMMG_pParMesh)
  : option (Z * list action * PMMG_pParMesh) :=
  if ier =? PMMG_STRONGFAILURE then
    match load_grp k parmesh with
    | None => None
    | Some s =>
        let '(r, s') := MMG5_unscaleMesh K s in
        Some (if negb (r =? 0) then PMMG_LOWFAILURE else ier,
              [ACall C_unscaleMesh r],
              store_grp k s' parmesh)
    end
  else Some (ier, [], parmesh).

(** "Boundaries reconstruction": the memory is devoted to the mesh, the
    tetrahedra are hashed and the boundary is built; [on_fail] and [on_ok]
    are the two returns. *)
Definition reconstruct_boundary (parmesh : PMMG_pParMesh)
    (on_fail on_ok : PMMG_pParMesh -> Proc) : Proc :=
  Emit (ACall C_parmesh_Free_Comm 0)
    match devote_memory parmesh with
    | None => Fault
    | Some parmesh =>
        match mesh0 parmesh with
        | None => Fault
        | Some mesh =>
            let '(failed, calls, mesh') := boundary_fails mesh in
            let parmesh := store_mesh0 mesh' parmesh in
            emit_all calls
              (if failed
               then Emit (APrint Msg_no_boundary) (on_fail parmesh)
               else on_ok parmesh)
        end
    end.

(** *** PMMG_parmmglib_centralized *)

(** Phase 4 on the root, and the final return. *)
Definition centralized_boundary (parmesh : PMMG_pParMesh) (ierlib : Z)
  : Proc :=
  if PMMG_ParMesh.myrank parmesh =? 0 then
    reconstruct_boundary parmesh
      (fun parmesh => clean_and_return parmesh PMMG_LOWFAILURE)
      (fun parmesh => clean_and_return parmesh ierlib)
  else clean_and_return parmesh ierlib.

(** After the reduction of the remeshing outcome: phase 3, the merge. *)
Definition centralized_merge (parmesh : PMMG_pParMesh) (ierlib : Z) : Proc :=
  if ierlib =? PMMG_STRONGFAILURE then Done ierlib parmesh
  else
    let '(iresult, parmesh) := PMMG_merge_parmesh K parmesh in
    Emit (ACall C_merge_parmesh iresult)
      (if iresult =? 0 then clean_and_return parmesh PMMG_STRONGFAILURE
       else centralized_boundary parmesh ierlib).

(** After the reduction of the preprocessing outcome: distribution of the
    partitions, then phase 2, the remeshing. *)
Definition centralized_remesh (parmesh : PMMG_pParMesh) (iresult : Z)
  : Proc :=
  if negb (iresult =? PMMG_SUCCESS) then Done iresult parmesh
  else
    let '(r, parmesh) := PMMG_distribute_mesh K parmesh in
    Emit (ACall C_distribute_mesh r)
      (if r =? 0 then clean_and_return parmesh PMMG_LOWFAILURE
       else
         let '(ier, parmesh) := PMMG_parmmglib1 K parmesh in
         Emit (ACall C_parmmglib1 ier)
           (Coll MPI_MAX ier (centralized_merge parmesh))).

(** The preprocessing of the first group and the unscaling on its
    failure, common to both entry points ([k] is the group unscaled). *)
Definition preprocess_phase (k : nat) (parmesh : PMMG_pParMesh)
    (rest : PMMG_pParMesh -> Z -> Proc) : Proc :=
  match PMMG_preprocessMesh K parmesh with
  | None => Fault
  | Some (ier, parmesh) =>
      Emit (ACall C_preprocessMesh ier)
        match unscale_if_strong k ier parmesh with
        | None => Fault
        | Some (ier, calls, parmesh) =>
            emit_all calls (Coll MPI_MAX ier (rest parmesh))
        end
  end.

(** After the reduction of the input check: phase 1, broadcast and
    preprocessing. *)
Definition centralized_distribute (parmesh : PMMG_pParMesh) (iresult : Z)
  : Proc :=
  if iresult =? 0 then Done PMMG_LOWFAILURE parmesh
  else
    let '(ier, parmesh) := PMMG_bcast_mesh K parmesh in
    Emit (ACall C_bcast_mesh ier)
      (if negb (ier =? 1) then Done PMMG_LOWFAILURE parmesh
       else preprocess_phase 0 parmesh centralized_remesh).

(** The input check and its reduction, common to both entry points. *)
Definition check_phase (parmesh : PMMG_pParMesh)
    (rest : PMMG_pParMesh -> Z -> Proc) : Proc :=
  match InputData.PMMG_check_inputData parmesh with
  | None => Fault
  | Some (ier, msgs, parmesh) =>
      emit_all (map APrint msgs)
        (Emit (ACheck ier) (Coll MPI_MIN ier (rest parmesh)))
  end.

Definition PMMG_parmmglib_centralized (parmesh : PMMG_pParMesh) : Proc :=
  check_phase parmesh centralized_distribute.

(** *** PMMG_parmmglib_distributed *)

(** After the reduction of the remeshing outcome: phase 3, boundary
    reconstruction on every process. *)
Definition distributed_boundary (parmesh : PMMG_pParMesh) (ierlib : Z)
  : Proc :=
  if ierlib =? PMMG_STRONGFAILURE then Done ierlib parmesh
  else
    reconstruct_boundary parmesh
      (fun parmesh => Done PMMG_LOWFAILURE parmesh)
      (fun parmesh => Done ierlib parmesh).

(** Phase 2, the remeshing. *)
Definition distributed_remesh (parmesh : PMMG_pParMesh) : Proc :=
  let '(ier, parmesh) := PMMG_parmmglib1 K parmesh in
  Emit (ACall C_parmmglib1 ier)
    (Coll MPI_MAX ier (distributed_boundary parmesh)).

(** Phase 1: the loop [for ( k=0; k<parmesh->ngrp; ++k )], with [n]
    iterations left.  [PMMG_preprocessMesh] works on the first group
    whatever [k] is; the unscaling is on group [k]. *)
Fixpoint distributed_analysis (n : nat) (k : nat)
    (parmesh : PMMG_pParMesh) : Proc :=
  match n with
  | O => distributed_remesh parmesh
  | S n' =>
      preprocess_phase k parmesh
        (fun parmesh iresult =>
           if negb (iresult =? PMMG_SUCCESS) then Done iresult parmesh
           else distributed_analysis n' (S k) parmesh)
  end.

(** After the reduction of the input check (inside [MPI_CHECK]). *)
Definition distributed_start (parmesh : PMMG_pParMesh) (iresult : Z)
  : Proc :=
  if negb (MPI_Allreduce_rc K =? MPI_SUCCESS)
  then Done PMMG_LOWFAILURE parmesh
  else if iresult =? 0 then Done PMMG_LOWFAILURE parmesh
  else
    distributed_analysis (length (PMMG_ParMesh.listgrp parmesh)) 0 parmesh.

Definition PMMG_parmmglib_distributed (parmesh : PMMG_pParMesh) : Proc :=
  check_phase parmesh distributed_start.

End EntryPoints.

(** ** The communicator: processes in lockstep at the collectives *)

(** Where a process stands once it can do nothing more on its own. *)
Inductive status :=
| Returned (val : Z) (parmesh : PMMG_pParMesh)
| Crashed
| Waiting (op : redop) (send : Z) (k : Z -> Proc).

Record pstate := { trace : list event; stat : status }.

(** Runs the code up to its return, its crash or its next collective. *)
Fixpoint exec (tr : list event) (p : Proc) : pstate :=
  match p with
  | Done v parmesh => {| trace := tr; stat := Returned v parmesh |}
  | Fault => {| trace := tr; stat := Crashed |}
  | Emit a rest => exec (tr ++ [Act a]) rest
  | Coll op send k => {| trace := tr; stat := Waiting op send k |}
  end.

Definition redop_eqb (a b : redop) : bool :=
  match a, b with
  | MPI_MIN, MPI_MIN | MPI_MAX, MPI_MAX => true
  | _, _ => false
  end.

Definition redop_fun (op : redop) : Z -> Z -> Z :=
  match op with MPI_MIN => Z.min | MPI_MAX => Z.max end.

(** Reduction of the contributions (of a non-empty communicator). *)
Definition reduce (op : redop) (vs : list Z) : Z :=
  match vs with
  | [] => 0
  | v :: vs' => fold_left (redop_fun op) vs' v
  end.

Definition waiting_on (op : redop) (st : pstate) : bool :=
  match stat st with
  | Waiting op' _ _ => redop_eqb op op'
  | _ => false
  end.

Definition send_of (st : pstate) : Z :=
  match stat st with
  | Waiting _ s _ => s
  | _ => 0
  end.

(** The process receives [recv] from the collective it waits in. *)
Definition resume (recv : Z) (st : pstate) : pstate :=
  match stat st with
  | Waiting op s k => exec (trace st ++ [Allreduced op s recv]) (k recv)
  | _ => st
  end.

(** [MPI_Allreduce] as the MPI standard has it (the MPI library is not
    among the sources): one collective completes when every process of
    the communicator is in it, and gives every process the reduction of
    all the contributions; otherwise nobody moves: a process that returned
    or crashed leaves the others waiting. *)
Definition round (sts : list pstate) : option (list pstate) :=
  match sts with
  | st :: _ =>
      match stat st with
      | Waiting op _ _ =>
          if forallb (waiting_on op) sts
          then Some (map (resume (reduce op (map send_of sts))) sts)
          else None
      | _ => None
      end
  | [] => None
  end.

(** At most [fuel] collectives. *)
Fixpoint run (fuel : nat) (sts : list pstate) : list pstate :=
  match fuel with
  | O => sts
  | S fuel' =>
      match round sts with
      | Some sts' => run fuel' sts'
      | None => sts
      end
  end.

(** A process of the communicator: its collaborators and its parmesh. *)
Definition process := (Collaborators * PMMG_pParMesh)%type.

Definition start (entry : Collaborators -> PMMG_pParMesh -> Proc)
    (procs : list process) : list pstate :=
  map (fun e => exec [] (entry (fst e) (snd e))) procs.

(** The centralized entry point called on every process. *)
Definition run_centralized (fuel : nat) (procs : list process)
  : list pstate :=
  run fuel (start PMMG_parmmglib_centralized procs).

(** The distributed entry point called on every process. *)
Definition run_distributed (fuel : nat) (procs : list process)
  : list pstate :=
  run fuel (start PMMG_parmmglib_distributed procs).

(** The two entry points of the library. *)
Inductive entry_point := Centralized | Distributed.

Definition run_entry (e : entry_point) (fuel : nat) (procs : list process)
  : list pstate :=
  match e with
  | Centralized => run_centralized fuel procs
  | Distributed => run_distributed fuel procs
  end.

(** The number of reductions an entry point goes through before that of
    the remeshing: the input check and the preprocessing in the
    centralized one; the input check and one preprocessing for each group
    in the distributed one. *)
Definition remesh_index (e : entry_point) (parmesh : PMMG_pParMesh) : nat :=
  match e with
  | Centralized => 2
  | Distributed => S (length (PMMG_ParMesh.listgrp parmesh))
  end.

(** *** Views of a trace *)

(** The collectives completed, in order. *)
Fixpoint colls (tr : list event) : list (redop * Z * Z) :=
  match tr with
  | [] => []
  | Allreduced op s r :: tr' => (op, s, r) :: colls tr'
  | Act _ :: tr' => colls tr'
  end.

(** The collaborators called and what they returned, in order. *)
Fixpoint calls (tr : list event) : list (call * Z) :=
  match tr with
  | [] => []
  | Act (ACall c r) :: tr' => (c, r) :: calls tr'
  | _ :: tr' => calls tr'
  end.

(** What the input check returned (a list of one value at most). *)
Fixpoint checks (tr : list event) : list Z :=
  match tr with
  | [] => []
  | Act (ACheck r) :: tr' => r :: checks tr'
  | _ :: tr' => checks tr'
  end.

(** The diagnostics printed, in order. *)
Fixpoint prints (tr : list event) : list message :=
  match tr with
  | [] => []
  | Act (APrint d) :: tr' => d :: prints tr'
  | _ :: tr' => prints tr'
  end.

(** How many times the loop of [PMMG_CLEAN_AND_RETURN] ran. *)
Fixpoint cleans (tr : list event) : nat :=
  match tr with
  | [] => O
  | Act AClean :: tr' => S (cleans tr')
  | _ :: tr' => cleans tr'
  end.

(** The names of the collaborators called, in order. *)
Definition called (tr : list event) : list call := map fst (calls tr).

(** The value returned, if the process returned. *)
Definition returned (st : pstate) : option Z :=
  match stat st with
  | Returned v _ => Some v
  | _ => None
  end.

(** The parmesh at the return, if the process returned. *)
Definition final_parmesh (st : pstate) : option PMMG_pParMesh :=
  match stat st with
  | Returned _ parmesh => Some parmesh
  | _ => None
  end.

Definition is_waiting (st : pstate) : bool :=
  match stat st with
  | Waiting _ _ _ => true
  | _ => false
  end.

(** A reduced value is as bad as the contribution: below it for
    [MPI_MIN], above it for [MPI_MAX]. *)
Definition worse_or_equal (c : redop * Z * Z) : Prop :=
  match c with
  | (MPI_MIN, send, recv) => recv <= send
  | (MPI_MAX, send, recv) => send <= recv
  end.

(** *** Properties of all the states a code can reach *)

(** [always P tr p]: code [p] started with trace [tr] satisfies [P] at
    its return, at its crash and at every collective it waits in,
    whatever the collectives give. *)
Inductive always (P : pstate -> Prop) : list event -> Proc -> Prop :=
| always_done tr v parmesh :
    P {| trace := tr; stat := Returned v parmesh |} ->
    always P tr (Done v parmesh)
| always_fault tr :
    P {| trace := tr; stat := Crashed |} ->
    always P tr Fault
| always_emit tr a rest :
    always P (tr ++ [Act a]) rest ->
    always P tr (Emit a rest)
| always_coll tr op send k :
    P {| trace := tr; stat := Waiting op send k |} ->
    (forall recv, always P (tr ++ [Allreduced op send recv]) (k recv)) ->
    always P tr (Coll op send k).

(** A state that satisfies [P] now and in all its futures. *)
Definition stable (P : pstate -> Prop) (st : pstate) : Prop :=
  P st
  /\ match stat st with
     | Waiting op send k =>
         forall recv,
           always P (trace st ++ [Allreduced op send recv]) (k recv)
     | _ => True
     end.

(** The history of a trace: the collectives without the contributions. *)
Definition history (tr : list event) : list (redop * Z) :=
  map (fun c => (fst (fst c), snd c)) (colls tr).

(** What the lockstep of the collectives keeps true of a communicator:
    the processes share one history, every reduced value is as bad as
    each contribution, and is the contribution of some process. *)
Definition lockstep (sts : list pstate) : Prop :=
  exists h : list (redop * Z),
    Forall (fun st => history (trace st) = h) sts
    /\ Forall (fun st => Forall worse_or_equal (colls (trace st))) sts
    /\ forall n op r, h !! n = Some (op, r) ->
         exists st, In st sts /\ colls (trace st) !! n = Some (op, r, r).

(** *** Summaries of traces *)

(** The views of a trace, side by side. *)
Record summary := {
  s_colls : list (redop * Z * Z);
  s_calls : list (call * Z);
  s_checks : list Z;
  s_prints : list message;
  s_cleans : nat
}.

Definition summ (tr : list event) : summary :=
  {| s_colls := colls tr; s_calls := calls tr; s_checks := checks tr;
     s_prints := prints tr; s_cleans := cleans tr |}.

(** The summary after one more action. *)
Definition note (a : action) (sm : summary) : summary :=
  match a with
  | ACheck r =>
      {| s_colls := s_colls sm; s_calls := s_calls sm;
         s_checks := s_checks sm ++ [r]; s_prints := s_prints sm;
         s_cleans := s_cleans sm |}
  | APrint d =>
      {| s_colls := s_colls sm; s_calls := s_calls sm;
         s_checks := s_checks sm; s_prints := s_prints sm ++ [d];
         s_cleans := s_cleans sm |}
  | ACall c r =>
      {| s_colls := s_colls sm; s_calls := s_calls sm ++ [(c, r)];
         s_checks := s_checks sm; s_prints := s_prints sm;
         s_cleans := s_cleans sm |}
  | AClean =>
      {| s_colls := s_colls sm; s_calls := s_calls sm;
         s_checks := s_checks sm; s_prints := s_prints sm;
         s_cleans := S (s_cleans sm) |}
  end.

(** The summary after the diagnostics [l]. *)
Definition note_prints (l : list message) (sm : summary) : summary :=
  {| s_colls := s_colls sm; s_calls := s_calls sm;
     s_checks := s_checks sm; s_prints := s_prints sm ++ l;
     s_cleans := s_cleans sm |}.

(** The summary after one more collective. *)
Definition note_coll (op : redop) (send recv : Z) (sm : summary) : summary :=
  {| s_colls := s_colls sm ++ [(op, send, recv)]; s_calls := s_calls sm;
     s_checks := s_checks sm; s_prints := s_prints sm;
     s_cleans := s_cleans sm |}.

(** [holds Q sm p]: code [p], started after a trace summarised by [sm],
    satisfies [Q] (a property of the summary of the trace and of the
    status) wherever [always] looks. *)
Inductive holds (Q : summary -> status -> Prop) : summary -> Proc -> Prop :=
| holds_done sm v parmesh :
    Q sm (Returned v parmesh) -> holds Q sm (Done v parmesh)
| holds_fault sm :
    Q sm Crashed -> holds Q sm Fault
| holds_emit sm a rest :
    holds Q (note a sm) rest -> holds Q sm (Emit a rest)
| holds_coll sm op send k :
    Q sm (Waiting op send k) ->
    (forall recv, holds Q (note_coll op send recv sm) (k recv)) ->
    holds Q sm (Coll op send k).

(** The summary of the empty trace. *)
Definition summ0 : summary :=
  {| s_colls := []; s_calls := []; s_checks := []; s_prints := [];
     s_cleans := O |}.

(** The value a status returns. *)
Definition value_of (s : status) : option Z :=
  match s with
  | Returned v _ => Some v
  | _ => None
  end.

(** The collective a status waits in. *)
Definition waits_in (s : status) : option (redop * Z) :=
  match s with
  | Waiting op send _ => Some (op, send)
  | _ => None
  end.

(** ** Statements about the memory macros *)

(** The request is refused at the ceiling: the allocator is not called,
    the pointer is [p0], the accounting is untouched and the
    out-of-memory message is printed. *)
Definition refused (m : Mem.acct) (p0 : Mem.pointer) (e : Mem.effect)
  : Prop :=
  Mem.heap_call e = false /\ Mem.ptr e = p0 /\ Mem.mesh e = m
  /\ In Mem.ExceededMaxMemory (Mem.log e).

(** The request passes the ceiling: the allocator is called; when it
    gives storage the pointer is set to it and [memCur] grows by [bytes];
    when it gives NULL the pointer is NULL and [on_failure] runs. *)
Definition attempted (m : Mem.acct) (bytes : Z) (alloc : Mem.pointer)
    (e : Mem.effect) : Prop :=
  Mem.heap_call e = true
  /\ match alloc with
     | Some a =>
         Mem.ptr e = Some a
         /\ Mem.memCur (Mem.mesh e) = Mem.memCur m + bytes
         /\ Mem.memMax (Mem.mesh e) = Mem.memMax m
         /\ Mem.on_failure e = false
     | None => Mem.ptr e = None /\ Mem.on_failure e = true
     end.

(** What [PMMG_MALLOC] and [PMMG_CALLOC] do with a non-zero request. *)
Definition alloc_contract (m : Mem.acct) (bytes : Z) (alloc : Mem.pointer)
    (e : Mem.effect) : Prop :=
  if Mem.memCur m + bytes >? Mem.memMax m
  then refused m None e /\ Mem.on_failure e = true
  else attempted m bytes alloc e
       /\ match alloc with Some _ => True | None => Mem.mesh e = m end.

(** What the growing branch of [PMMG_REALLOC] does. *)
Definition grow_contract (m : Mem.acct) (p : Mem.pointer) (bytes : Z)
    (alloc : Mem.pointer) (e : option Mem.effect) : Prop :=
  match e with
  | None => False
  | Some e =>
      if Mem.memCur m + bytes >? Mem.memMax m
      then refused m p e
      else attempted m bytes alloc e
  end.


(** A size and an element size whose product fits a [long long]. *)
Definition sized (size sz : Z) : Prop :=
  0 <= size /\ 0 < sz /\ ll_range (size * sz).



(** ** Statements about the traces of the entry points *)

(** The release functions declared in parmmg.h that free groups. *)
Definition releases_groups (c : call) : bool :=
  match c with
  | C_parmesh_Free_Listgrp | C_listgrp_free | C_grp_free | C_Free_all => true
  | _ => false
  end.

(** The phases of the driver. *)
Inductive phase := Distribution | Remeshing | Merging | Boundary.

Definition phase_of (c : call) : option phase :=
  match c with
  | C_bcast_mesh | C_preprocessMesh | C_unscaleMesh | C_distribute_mesh =>
      Some Distribution
  | C_parmmglib1 => Some Remeshing
  | C_merge_parmesh => Some Merging
  | C_parmesh_Free_Comm | C_hashTetra | C_bdryBuild => Some Boundary
  | _ => None
  end.

Definition phase_eqb (a b : phase) : bool :=
  match a, b with
  | Distribution, Distribution | Remeshing, Remeshing
  | Merging, Merging | Boundary, Boundary => true
  | _, _ => false
  end.

(** Removes the repetitions of a phase that follow one another. *)
Fixpoint squash (l : list phase) : list phase :=
  match l with
  | a :: (b :: _) as l' => if phase_eqb a b then squash l' else a :: squash l'
  | _ => l
  end.

(** The phases a process went through, in order. *)
Definition phases (tr : list event) : list phase :=
  squash (omap phase_of (called tr)).

(** [starts l full]: [l] is an initial segment of [full]. *)
Fixpoint starts (l full : list phase) : bool :=
  match l, full with
  | [], _ => true
  | a :: l', b :: full' => phase_eqb a b && starts l' full'
  | _ :: _, [] => false
  end.

(** The phases of the summary of a trace. *)
Definition s_phases (sm : summary) : list phase :=
  squash (omap phase_of (map fst (s_calls sm))).

(** What the reductions of the centralized entry point are and what they
    gate, on one process: at most three reductions; the first is the
    minimum of the results of the input check, the second the maximum of
    the preprocessing outcomes, the third the maximum of the remeshing
    outcomes; nothing is called before the first gave a non-zero value,
    the partitions are distributed only when the second gave
    [PMMG_SUCCESS], the merge is called only when the third gave a value
    other than [PMMG_STRONGFAILURE]. *)
Definition gates (sm : summary) (s : status) : Prop :=
  (length (s_colls sm) <= 3)%nat
  /\ (forall op s r, s_colls sm !! 0%nat = Some (op, s, r) ->
        op = MPI_MIN /\ s_checks sm = [s])
  /\ (forall op s r, s_colls sm !! 1%nat = Some (op, s, r) ->
        op = MPI_MAX /\ 0 <= s <= 2
        /\ forall c, In (C_preprocessMesh, c) (s_calls sm) ->
             c <> PMMG_SUCCESS -> s <> PMMG_SUCCESS)
  /\ (forall op s r, s_colls sm !! 2%nat = Some (op, s, r) ->
        op = MPI_MAX /\ In (C_parmmglib1, s) (s_calls sm)
        /\ forall c, In (C_parmmglib1, c) (s_calls sm) -> c = s)
  /\ (forall c, In c (s_checks sm) -> 0 <= c <= 1)
  /\ (s_calls sm <> [] ->
        exists s r, s_colls sm !! 0%nat = Some (MPI_MIN, s, r) /\ r <> 0)
  /\ (In C_parmmglib1 (map fst (s_calls sm)) ->
        exists s, s_colls sm !! 1%nat = Some (MPI_MAX, s, PMMG_SUCCESS))
  /\ (In C_distribute_mesh (map fst (s_calls sm)) ->
        exists s, s_colls sm !! 1%nat = Some (MPI_MAX, s, PMMG_SUCCESS))
  /\ (In C_merge_parmesh (map fst (s_calls sm)) ->
        exists s r, s_colls sm !! 2%nat = Some (MPI_MAX, s, r)
                    /\ r <> PMMG_STRONGFAILURE)
  /\ (In C_parmesh_Free_Comm (map fst (s_calls sm)) ->
        In C_merge_parmesh (map fst (s_calls sm))).

(** Where a process that has called [PMMG_parmmglib1] stands, [n] being
    the number of reductions that come before that of the remeshing: it
    waits in that reduction with the code [c] that [PMMG_parmmglib1]
    returned, or that reduction is done and the process has returned or
    crashed; with a reduced value [PMMG_STRONGFAILURE] it has returned it
    without entering the merge or the boundary reconstruction, and with
    a reduced value of [PMMG_LOWFAILURE] at least it returns no less. *)
Definition after_remesh (n : nat) (sm : summary) (s : status) : Prop :=
  forall c, In (C_parmmglib1, c) (s_calls sm) ->
    (length (s_colls sm) = n /\ waits_in s = Some (MPI_MAX, c))
    \/ (length (s_colls sm) = S n /\ waits_in s = None
        /\ exists r, s_colls sm !! n = Some (MPI_MAX, c, r)
           /\ (r = PMMG_STRONGFAILURE ->
                 value_of s = Some PMMG_STRONGFAILURE
                 /\ ~ In C_merge_parmesh (map fst (s_calls sm))
                 /\ ~ In C_parmesh_Free_Comm (map fst (s_calls sm)))
           /\ (PMMG_LOWFAILURE <= r ->
                 forall v, value_of s = Some v -> PMMG_LOWFAILURE <= v)).

(** What the reductions of an entry point are and what they gate, on one
    process, [n] being the number of reductions that come before that of
    the remeshing (two in the centralized entry point, one and the number
    of groups in the distributed one): the first reduction is the minimum
    of the results of the input check and nothing is called before it
    gave a non-zero value; the others are maxima; a preprocessing that
    fails contributes a failure to one of the reductions before that of
    the remeshing; the partitions are distributed and the remeshing is
    called only after all these gave [PMMG_SUCCESS]; the reduction
    numbered [n] is that of the outcome of the remeshing, and the merge
    and the boundary reconstruction are entered only when it gave a value
    other than [PMMG_STRONGFAILURE]. *)
Definition reduced (n : nat) (sm : summary) (s : status) : Prop :=
  (forall op s r, s_colls sm !! 0%nat = Some (op, s, r) ->
     op = MPI_MIN /\ s_checks sm = [s])
  /\ (forall c, In c (s_checks sm) -> 0 <= c <= 1)
  /\ (s_calls sm <> [] ->
        exists s r, s_colls sm !! 0%nat = Some (MPI_MIN, s, r) /\ r <> 0)
  /\ (forall i op s r, (1 <= i)%nat -> s_colls sm !! i = Some (op, s, r) ->
        op = MPI_MAX)
  /\ (forall c, In (C_preprocessMesh, c) (s_calls sm) -> c <> PMMG_SUCCESS ->
        exists i, (1 <= i < n)%nat
          /\ forall op s r, s_colls sm !! i = Some (op, s, r) -> 1 <= s)
  /\ (In C_distribute_mesh (map fst (s_calls sm))
      \/ In C_parmmglib1 (map fst (s_calls sm)) ->
        (n <= length (s_colls sm))%nat
        /\ forall i op s r, (1 <= i < n)%nat ->
             s_colls sm !! i = Some (op, s, r) -> r = PMMG_SUCCESS)
  /\ (forall op s r, s_colls sm !! n = Some (op, s, r) ->
        In (C_parmmglib1, s) (s_calls sm)
        /\ forall c, In (C_parmmglib1, c) (s_calls sm) -> c = s)
  /\ (In C_merge_parmesh (map fst (s_calls sm))
      \/ In C_parmesh_Free_Comm (map fst (s_calls sm)) ->
        exists s r, s_colls sm !! n = Some (MPI_MAX, s, r)
                    /\ r <> PMMG_STRONGFAILURE)
  /\ after_remesh n sm s.

(** The phases come in the order of the driver. *)
Definition in_order (sm : summary) (s : status) : Prop :=
  starts (s_phases sm) [Distribution; Remeshing; Merging; Boundary] = true.


(** ** Statements about PMMG_CLEAN_AND_RETURN *)

(** The "initial" counters of a mesh equal the current ones. *)
Definition mesh_synced (x : MMG5_pMesh) : Prop :=
  MMG5_Mesh.npi x = MMG5_Mesh.np x /\ MMG5_Mesh.nti x = MMG5_Mesh.nt x
  /\ MMG5_Mesh.nai x = MMG5_Mesh.na x /\ MMG5_Mesh.nei x = MMG5_Mesh.ne x.

Definition sol_synced (s : MMG5_pSol) : Prop :=
  MMG5_Sol.npi s = MMG5_Sol.np s.

(** Two meshes that differ in their "initial" counters at most. *)
Definition mesh_framed (x y : MMG5_pMesh) : Prop :=
  MMG5_Mesh.np x = MMG5_Mesh.np y /\ MMG5_Mesh.nt x = MMG5_Mesh.nt y
  /\ MMG5_Mesh.na x = MMG5_Mesh.na y /\ MMG5_Mesh.ne x = MMG5_Mesh.ne y
  /\ MMG5_Mesh.nsols x = MMG5_Mesh.nsols y
  /\ MMG5_Mesh.memMax x = MMG5_Mesh.memMax y
  /\ MMG5_Mesh.memCur x = MMG5_Mesh.memCur y
  /\ MMG5_Mesh.info x = MMG5_Mesh.info y
  /\ MMG5_Mesh.adja x = MMG5_Mesh.adja y.

(** Two solutions that differ in their "initial" counter at most. *)
Definition sol_framed (s t : MMG5_pSol) : Prop :=
  MMG5_Sol.np s = MMG5_Sol.np t /\ MMG5_Sol.npmax s = MMG5_Sol.npmax t
  /\ MMG5_Sol.size s = MMG5_Sol.size t /\ MMG5_Sol.m s = MMG5_Sol.m t.

(** Solution [j] of a group is one of the [mesh->nsols] first ones of a
    group that has a mesh. *)
Definition sol_in_loop (g : PMMG_pGrp) (j : nat) : Prop :=
  match PMMG_Grp.mesh g with
  | Some x => Z.of_nat j < MMG5_Mesh.nsols x
  | None => False
  end.

(** The array [sol] of the group has the [mesh->nsols] entries that the
    loop over the solutions writes. *)
Definition sols_allocated (g : PMMG_pGrp) : bool :=
  match PMMG_Grp.mesh g with
  | Some x => MMG5_Mesh.nsols x <=? Z.of_nat (length (PMMG_Grp.sol g))
  | None => true
  end.

(** The group as the body of the cleanup loop leaves it, when the loop
    over the solutions stays inside their array. *)
Definition synced_grp (g : PMMG_pGrp) : PMMG_pGrp :=
  let g := Clean.clean_met (Clean.clean_mesh g) in
  match PMMG_Grp.mesh g with
  | Some x =>
      Clean.grp_set_sol
        (for_loop (Z.to_nat (MMG5_Mesh.nsols x)) 0
           (fun k l =>
              alter (fun s => Clean.sol_set_npi (MMG5_Sol.np s) s) k l)
           (PMMG_Grp.sol g)) g
  | None => g
  end.

Definition synced_parmesh (p : PMMG_pParMesh) : PMMG_pParMesh :=
  Clean.parmesh_set_listgrp (map synced_grp (PMMG_ParMesh.listgrp p)) p.

(** Group [g'] is group [g] with its counters synchronised: the mesh and
    the metric when there are any, and the solutions of the loop. *)
Definition grp_cleaned (g g' : PMMG_pGrp) : Prop :=
  match PMMG_Grp.mesh g with
  | Some x =>
      exists x', PMMG_Grp.mesh g' = Some x'
                 /\ mesh_framed x x' /\ mesh_synced x'
  | None => PMMG_Grp.mesh g' = None
  end
  /\ match PMMG_Grp.met g with
     | Some s =>
         exists s', PMMG_Grp.met g' = Some s'
                    /\ sol_framed s s' /\ sol_synced s'
     | None => PMMG_Grp.met g' = None
     end
  /\ length (PMMG_Grp.sol g') = length (PMMG_Grp.sol g)
  /\ forall j s, PMMG_Grp.sol g !! j = Some s ->
       exists s', PMMG_Grp.sol g' !! j = Some s' /\ sol_framed s s'
                  /\ (sol_in_loop g j -> sol_synced s')
                  /\ (~ sol_in_loop g j -> s' = s).

(** Parmesh [p'] is parmesh [p] with the counters of every group
    synchronised and nothing else changed. *)
Definition parmesh_cleaned (p p' : PMMG_pParMesh) : Prop :=
  PMMG_ParMesh.myrank p' = PMMG_ParMesh.myrank p
  /\ PMMG_ParMesh.imprim p' = PMMG_ParMesh.imprim p
  /\ PMMG_ParMesh.memMax p' = PMMG_ParMesh.memMax p
  /\ PMMG_ParMesh.memCur p' = PMMG_ParMesh.memCur p
  /\ length (PMMG_ParMesh.listgrp p') = length (PMMG_ParMesh.listgrp p)
  /\ forall k g, PMMG_ParMesh.listgrp p !! k = Some g ->
       exists g', PMMG_ParMesh.listgrp p' !! k = Some g' /\ grp_cleaned g g'.

(** A process that returned through the cleanup macro holds a cleaned
    parmesh, whose groups had their arrays of solutions. *)
Definition cleaned_at_return (sm : summary) (s : status) : Prop :=
  s_cleans sm <> O ->
  match s with
  | Returned _ parmesh =>
      exists before,
        forallb sols_allocated (PMMG_ParMesh.listgrp before) = true
        /\ parmesh_cleaned before parmesh
  | _ => False
  end.

(** ** Statements about the boundary reconstruction *)

(** [MMG3D_hashTetra] returned 0 or [MMG3D_bdryBuild] returned -1. *)
Definition boundary_failed (sm : summary) : Prop :=
  In (C_hashTetra, 0) (s_calls sm) \/ In (C_bdryBuild, -1) (s_calls sm).

(** The process has returned and the mesh of its first group is there. *)
Definition mesh0_valid (s : status) : Prop :=
  match s with
  | Returned _ parmesh => is_Some (mesh0 parmesh)
  | _ => False
  end.

(** After a failed boundary reconstruction the process has printed the
    diagnostic and returned [PMMG_LOWFAILURE], the mesh of its first group
    is there and no group was released. *)
Definition partial_success (sm : summary) (s : status) : Prop :=
  boundary_failed sm ->
  value_of s = Some PMMG_LOWFAILURE
  /\ mesh0_valid s
  /\ (exists l, s_prints sm = l ++ [Msg_no_boundary])
  /\ forallb (fun c => negb (releases_groups (fst c))) (s_calls sm) = true.

(** The same where the return goes through [PMMG_CLEAN_AND_RETURN], as
    in the centralized entry point: after a failed boundary
    reconstruction the process waits in no reduction, has printed the
    diagnostic and released no group; and unless it has crashed (in the
    macro, which leaves the array of the solutions of a group that has
    fewer than [nsols] of them) it has returned [PMMG_LOWFAILURE] and the
    mesh of its first group is there. *)
Definition partial_unless_crashed (sm : summary) (s : status) : Prop :=
  boundary_failed sm ->
  waits_in s = None
  /\ (exists l, s_prints sm = l ++ [Msg_no_boundary])
  /\ forallb (fun c => negb (releases_groups (fst c))) (s_calls sm) = true
  /\ (s <> Crashed ->
        value_of s = Some PMMG_LOWFAILURE /\ mesh0_valid s).

(** In the centralized entry point the boundary is reconstructed after a
    merge that succeeded only. *)
Definition boundary_after_merge (sm : summary) (s : status) : Prop :=
  In C_hashTetra (map fst (s_calls sm))
  \/ In C_bdryBuild (map fst (s_calls sm)) ->
  exists m, In (C_merge_parmesh, m) (s_calls sm) /\ m <> 0.

(** ** Statements about the input check *)

(** The mismatched option combinations, in the words of the check:
    lagrangian mode, level-set discretisation, optimLES with an
    anisotropic metric, optim or hsiz with an input metric, optim with
    hsiz. *)
Definition option_error (mesh : MMG5_pMesh) (met : MMG5_pSol) : bool :=
  let info := MMG5_Mesh.info mesh in
  (MMG5_Info.lag info >? -1)
  || negb (MMG5_Info.iso info =? 0)
  || (negb (MMG5_Info.optimLES info =? 0) && (MMG5_Sol.size met =? 6))
  || (negb (MMG5_Sol.np met =? 0) && negb (MMG5_Info.optim info =? 0))
  || (negb (MMG5_Sol.np met =? 0) && InputData.hsiz_pos mesh)
  || (negb (MMG5_Info.optim info =? 0) && InputData.hsiz_pos mesh).

(** The metric has points, and not as many as the mesh. *)
Definition metric_mismatch (mesh : MMG5_pMesh) (met : MMG5_pSol) : bool :=
  negb (MMG5_Sol.np met =? 0)
  && negb (MMG5_Sol.np met =? MMG5_Mesh.np mesh).

(** The metric is neither a scalar nor a symmetric tensor field. *)
Definition wrong_size (met : MMG5_pSol) : bool :=
  negb (MMG5_Sol.size met =? 1) && negb (MMG5_Sol.size met =? 6).

(** The inputs the check refuses: an option error, or a wrong metric
    size on a metric that is not dropped for its number of points. *)
Definition rejected (mesh : MMG5_pMesh) (met : MMG5_pSol) : bool :=
  option_error mesh met
  || (negb (metric_mismatch mesh met) && wrong_size met).

Definition grp_rejected (g : PMMG_pGrp) : bool :=
  match PMMG_Grp.mesh g, PMMG_Grp.met g with
  | Some mesh, Some met => rejected mesh met
  | _, _ => false
  end.

(** The mesh and the metric of the group are allocated. *)
Definition grp_allocated (g : PMMG_pGrp) : Prop :=
  is_Some (PMMG_Grp.mesh g) /\ is_Some (PMMG_Grp.met g).

(** The messages that are errors (the others are a warning and a
    notice). *)
Definition is_error (d : message) : bool :=
  match d with
  | Warn_wrong_metric_number | Msg_no_boundary => false
  | _ => true
  end.

(** The metric of [g'] is the metric of [g] dropped: no point, no array. *)
Definition metric_dropped (g' : PMMG_pGrp) : Prop :=
  exists met', PMMG_Grp.met g' = Some met'
               /\ MMG5_Sol.np met' = 0 /\ MMG5_Sol.m met' = None.

(** Where the input check leaves a process when the reduced result is 0:
    the diagnostics and the result of the check, the reduction, and the
    return of [PMMG_LOWFAILURE]. *)
Definition stopped (e : process) : pstate :=
  match InputData.PMMG_check_inputData (snd e) with
  | Some (ier, msgs, parmesh) =>
      {| trace := (map Act (map APrint msgs) ++ [Act (ACheck ier)])
                  ++ [Allreduced MPI_MIN ier 0];
         stat := Returned PMMG_LOWFAILURE parmesh |}
  | None => {| trace := []; stat := Crashed |}
  end.

(** The groups of every process are allocated. *)
Definition all_allocated (procs : list process) : Prop :=
  Forall (fun e => Forall grp_allocated (PMMG_ParMesh.listgrp (snd e))) procs.

(** A group of the process is refused by the input check. *)
Definition has_rejected (e : process) : bool :=
  existsb grp_rejected (PMMG_ParMesh.listgrp (snd e)).

(** ** Statements about the outcomes that are not reduced *)

(** What a process does with the outcomes of [PMMG_bcast_mesh],
    [PMMG_distribute_mesh], [PMMG_merge_parmesh] and of the boundary
    reconstruction, which go through no reduction: after a
    [PMMG_bcast_mesh] that returned a value other than 1 it has returned
    [PMMG_LOWFAILURE] without preprocessing; after a
    [PMMG_distribute_mesh] that returned 0 it does not remesh, enters no
    reduction and returns nothing but [PMMG_LOWFAILURE], and after one
    that returned another value it remeshes; after a [PMMG_merge_parmesh]
    that returned 0 it does not release the communicators, does not
    reconstruct the boundary and returns nothing but
    [PMMG_STRONGFAILURE]; once the merge or the release of
    the communicators is called it enters no reduction; after a failed
    boundary reconstruction it returns nothing but [PMMG_LOWFAILURE]. *)
Definition local_outcomes (sm : summary) (s : status) : Prop :=
  (forall r, In (C_bcast_mesh, r) (s_calls sm) -> r <> 1 ->
     value_of s = Some PMMG_LOWFAILURE
     /\ ~ In C_preprocessMesh (map fst (s_calls sm)))
  /\ (In (C_distribute_mesh, 0) (s_calls sm) ->
        ~ In C_parmmglib1 (map fst (s_calls sm))
        /\ waits_in s = None
        /\ forall v, value_of s = Some v -> v = PMMG_LOWFAILURE)
  /\ (forall r, In (C_distribute_mesh, r) (s_calls sm) -> r <> 0 ->
        In C_parmmglib1 (map fst (s_calls sm)))
  /\ (In (C_merge_parmesh, 0) (s_calls sm) ->
        ~ In C_parmesh_Free_Comm (map fst (s_calls sm))
        /\ ~ In C_hashTetra (map fst (s_calls sm))
        /\ ~ In C_bdryBuild (map fst (s_calls sm))
        /\ forall v, value_of s = Some v -> v = PMMG_STRONGFAILURE)
  /\ (In C_merge_parmesh (map fst (s_calls sm))
      \/ In C_parmesh_Free_Comm (map fst (s_calls sm)) ->
        waits_in s = None)
  /\ (boundary_failed sm ->
        forall v, value_of s = Some v -> v = PMMG_LOWFAILURE).

(** The same in the distributed entry point, which neither broadcasts,
    distributes nor merges. *)
Definition boundary_local (sm : summary) (s : status) : Prop :=
  ~ In C_bcast_mesh (map fst (s_calls sm))
  /\ ~ In C_distribute_mesh (map fst (s_calls sm))
  /\ ~ In C_merge_parmesh (map fst (s_calls sm))
  /\ (In C_parmesh_Free_Comm (map fst (s_calls sm)) -> waits_in s = None)
  /\ (boundary_failed sm ->
        forall v, value_of s = Some v -> v = PMMG_LOWFAILURE).


(** ** Summaries in two parts *)

(** The summary of a trace followed by another. *)
Definition sm_app (x y : summary) : summary :=
  {| s_colls := s_colls x ++ s_colls y;
     s_calls := s_calls x ++ s_calls y;
     s_checks := s_checks x ++ s_checks y;
     s_prints := s_prints x ++ s_prints y;
     s_cleans := s_cleans x + s_cleans y |}.

(** The calls of the analysis loop of the distributed entry point. *)
Definition analysis_call (c : call * Z) : bool :=
  match fst c with
  | C_preprocessMesh | C_unscaleMesh => true
  | _ => false
  end.

(** A summary of the distributed entry point inside its analysis loop:
    nothing was called but the preprocessing and the unscaling, and the
    cleanup loop has not run. *)
Definition in_analysis (x : summary) : Prop :=
  forallb analysis_call (s_calls x) = true /\ s_cleans x = O.

(** What is true of the summary [x] of a process of the distributed
    entry point that starts iteration [k] of its analysis loop: [1 + k]
    reductions are done; the first was the minimum of the input check and
    gave a non-zero value; the others were maxima and gave
    [PMMG_SUCCESS]; nothing was called but the preprocessing and the
    unscaling, and a preprocessing that failed contributed a failure to
    one of these reductions. *)
Definition analysis_inv (k : nat) (x : summary) : Prop :=
  length (s_colls x) = S k
  /\ (exists s r, s_colls x !! 0%nat = Some (MPI_MIN, s, r) /\ r <> 0
                  /\ s_checks x = [s] /\ 0 <= s <= 1)
  /\ (forall i op s r, (1 <= i)%nat -> s_colls x !! i = Some (op, s, r) ->
        op = MPI_MAX /\ r = PMMG_SUCCESS)
  /\ in_analysis x
  /\ (forall c, In (C_preprocessMesh, c) (s_calls x) -> c <> PMMG_SUCCESS ->
        exists i, (1 <= i < S k)%nat
          /\ forall op s r, s_colls x !! i = Some (op, s, r) -> 1 <= s).

(** The summary [y] of what one iteration of the analysis loop adds: the
    preprocessing and the unscaling, and one maximum at most, to which a
    preprocessing that failed contributes a failure. *)
Definition iteration_part (y : summary) : Prop :=
  in_analysis y /\ s_checks y = []
  /\ (s_colls y = []
      \/ exists s r, s_colls y = [(MPI_MAX, s, r)]
           /\ forall c, In (C_preprocessMesh, c) (s_calls y) ->
                c <> PMMG_SUCCESS -> 1 <= s).

(** The summary [y] of what the distributed entry point adds after its
    analysis loop, and the status [s] reached: the remeshing and its
    reduction, then the boundary reconstruction. *)
Definition remesh_part (y : summary) (s : status) : Prop :=
  s_checks y = []
  /\ (forall c r, In (c, r) (s_calls y) ->
        c <> C_preprocessMesh /\ c <> C_distribute_mesh
        /\ c <> C_merge_parmesh)
  /\ (length (s_colls y) <= 1)%nat
  /\ (forall op s r, s_colls y !! 0%nat = Some (op, s, r) ->
        op = MPI_MAX /\ In (C_parmmglib1, s) (s_calls y)
        /\ forall c, In (C_parmmglib1, c) (s_calls y) -> c = s)
  /\ (In C_parmesh_Free_Comm (map fst (s_calls y)) ->
        exists s r, s_colls y !! 0%nat = Some (MPI_MAX, s, r)
                    /\ r <> PMMG_STRONGFAILURE)
  /\ after_remesh 0 y s.

(** ** Concrete inputs *)

(** The default options of a mesh. *)
Definition ex_info : MMG5_Info.t :=
  {| MMG5_Info.lag := -1; MMG5_Info.iso := 0; MMG5_Info.optimLES := 0;
     MMG5_Info.optim := 0; MMG5_Info.hsiz := (-1)%float |}.

(** Two tetrahedra glued by a face: face 0 of the first against face 3 of
    the second. *)
Definition ex_mesh_with (info : MMG5_Info.t) : MMG5_pMesh :=
  {| MMG5_Mesh.np := 5; MMG5_Mesh.npi := 0;
     MMG5_Mesh.nt := 6; MMG5_Mesh.nti := 0;
     MMG5_Mesh.na := 9; MMG5_Mesh.nai := 0;
     MMG5_Mesh.ne := 2; MMG5_Mesh.nei := 0;
     MMG5_Mesh.nsols := 1;
     MMG5_Mesh.memMax := 4096; MMG5_Mesh.memCur := 1024;
     MMG5_Mesh.info := info;
     MMG5_Mesh.adja := [0; 11; 0; 0; 0; 0; 0; 0; 4; 0; 0; 0; 0] |}.

Definition ex_mesh : MMG5_pMesh := ex_mesh_with ex_info.

(** A scalar field with [n] values. *)
Definition ex_sol (n : Z) : MMG5_pSol :=
  {| MMG5_Sol.np := n; MMG5_Sol.npi := 0; MMG5_Sol.npmax := 16;
     MMG5_Sol.size := 1; MMG5_Sol.m := Some 1%positive |}.

Definition ex_grp_with (info : MMG5_Info.t) (nmet : Z) : PMMG_pGrp :=
  {| PMMG_Grp.mesh := Some (ex_mesh_with info);
     PMMG_Grp.met := Some (ex_sol nmet);
     PMMG_Grp.sol := [ex_sol 5] |}.

Definition ex_parmesh_with (info : MMG5_Info.t) (nmet : Z) (rank : Z)
  : PMMG_pParMesh :=
  {| PMMG_ParMesh.listgrp := [ex_grp_with info nmet];
     PMMG_ParMesh.myrank := rank;
     PMMG_ParMesh.imprim := 0;
     PMMG_ParMesh.memMax := 2048; PMMG_ParMesh.memCur := 512 |}.

(** The parmesh of process [rank], with one group and a metric that has
    the points of the mesh. *)
Definition ex_parmesh (rank : Z) : PMMG_pParMesh :=
  ex_parmesh_with ex_info 5 rank.

(** Options with the lagrangian mode set. *)
Definition ex_info_lag : MMG5_Info.t :=
  {| MMG5_Info.lag := 0; MMG5_Info.iso := 0; MMG5_Info.optimLES := 0;
     MMG5_Info.optim := 0; MMG5_Info.hsiz := (-1)%float |}.

(** Collaborators that leave the structures as they are and succeed,
    but for the codes given: what [PMMG_parmmglib1], [PMMG_merge_parmesh],
    [MMG3D_hashTetra] and [MMG3D_bdryBuild] return. *)
Definition ex_K (remesh merge hash bdry : Z) : Collaborators :=
  {| MMG5_scaleMesh := fun s => (1, s);
     MMG5_unscaleMesh := fun s => (1, s);
     MMG3D_doSol := fun s => (1, s);
     MMG3D_solTruncatureForOptim := fun s => s;
     MMG3D_Set_constantSize := fun s => (1, s);
     MMG3D_tetraQual := fun s => (1, s);
     MMG3D_inqua := fun s => (1, s);
     MMG3D_analys := fun mesh => (1, mesh);
     MMG3D_hashTetra := fun mesh _ => (hash, mesh);
     MMG3D_bdryBuild := fun mesh => (bdry, mesh);
     PMMG_bcast_mesh := fun p => (1, p);
     PMMG_distribute_mesh := fun p => (1, p);
     PMMG_parmmglib1 := fun p => (remesh, p);
     PMMG_merge_parmesh := fun p => (merge, p);
     PMMG_parmesh_Free_Comm := fun p => p;
     MPI_Allreduce_rc := MPI_SUCCESS |}.

(** Collaborators that all succeed. *)
Definition ex_K_ok : Collaborators := ex_K PMMG_SUCCESS 1 1 4.

(** Two processes on which everything succeeds. *)
Definition ex_run_ok : list process :=
  [(ex_K_ok, ex_parmesh 0); (ex_K_ok, ex_parmesh 1)].

(** Two processes; the remeshing fails strongly on the second. *)
Definition ex_run_strong : list process :=
  [(ex_K_ok, ex_parmesh 0);
   (ex_K PMMG_STRONGFAILURE 1 1 4, ex_parmesh 1)].

(** Two processes; the boundary reconstruction fails on the root. *)
Definition ex_run_boundary : list process :=
  [(ex_K PMMG_SUCCESS 1 0 4, ex_parmesh 0); (ex_K_ok, ex_parmesh 1)].

(** Two processes; the merge fails on the second. *)
Definition ex_run_merge : list process :=
  [(ex_K_ok, ex_parmesh 0); (ex_K PMMG_SUCCESS 0 1 4, ex_parmesh 1)].

(** Two processes; the second has the lagrangian mode set. *)
Definition ex_run_lag : list process :=
  [(ex_K_ok, ex_parmesh 0); (ex_K_ok, ex_parmesh_with ex_info_lag 5 1)].

(** One process whose metric has 3 points for a mesh of 5. *)
Definition ex_run_mismatch : list process :=
  [(ex_K_ok, ex_parmesh_with ex_info 3 0)].


(** The parmesh of process [rank] with two groups. *)
Definition ex_parmesh2 (rank : Z) : PMMG_pParMesh :=
  {| PMMG_ParMesh.listgrp := [ex_grp_with ex_info 5; ex_grp_with ex_info 5];
     PMMG_ParMesh.myrank := rank;
     PMMG_ParMesh.imprim := 0;
     PMMG_ParMesh.memMax := 2048; PMMG_ParMesh.memCur := 512 |}.

(** Two processes, the first with one group and the second with two; the
    remeshing fails strongly on the second. *)
Definition ex_run_uneven : list process :=
  [(ex_K_ok, ex_parmesh 0);
   (ex_K PMMG_STRONGFAILURE 1 1 4, ex_parmesh2 1)].

(** A parmesh whose group has a mesh of one solution and no array of
    solutions. *)
Definition ex_parmesh_no_sol : PMMG_pParMesh :=
  {| PMMG_ParMesh.listgrp :=
       [Clean.grp_set_sol [] (ex_grp_with ex_info 5)];
     PMMG_ParMesh.myrank := 0;
     PMMG_ParMesh.imprim := 0;
     PMMG_ParMesh.memMax := 2048; PMMG_ParMesh.memCur := 512 |}.

(** The state of process [i] at the end of a run. *)
Definition outcome (i : nat) (sts : list pstate) : pstate :=
  nth i sts {| trace := []; stat := Crashed |}.

(** A mesh accounting with 100 bytes allowed. *)
Definition ex_acct (cur : Z) : Mem.acct :=
  {| Mem.memCur := cur; Mem.memMax := 100 |}.

(** ** Further statements about the memory macros *)

(** The sizes of the call are non-negative and their byte counts fit a
    [long long]. *)
Definition op_sized (o : Mem.op) : Prop :=
  match o with
  | Mem.OpMalloc size sz _ | Mem.OpCalloc size sz _
  | Mem.OpDelMem _ size sz => sized size sz
  | Mem.OpRealloc _ n o sz _ | Mem.OpRecalloc _ n o sz _ =>
      sized n sz /\ sized o sz
  end.

(** The effect of a macro that does nothing but set the accounting to
    [m] and the pointer to [p]. *)
Definition quiet (m : Mem.acct) (p : Mem.pointer) : Mem.effect :=
  {| Mem.mesh := m; Mem.ptr := p; Mem.log := [];
     Mem.heap_call := false; Mem.on_failure := false; Mem.memset := false |}.

(** ** Debugging aids (debug_pmmg.c) *)

(** A loop [for ( k=from; k<from+n; ++k )] whose body can fail (a failed
    assertion, a NULL or out-of-bounds dereference, a buffer overrun):
    the first failure ends the function. *)
Fixpoint loop_opt {S : Type} (n : nat) (from : Z)
    (body : Z -> S -> option S) (s : S) : option S :=
  match n with
  | O => Some s
  | Datatypes.S n' =>
      match body from s with
      | Some s' => loop_opt n' (from + 1) body s'
      | None => None
      end
  end.

(** [PMMG_my_fopen]; [fopen] is what the system's [fopen] returns ([None]
    is NULL): on NULL the wrapper prints a message and calls [abort]
    ([None]). *)
Definition PMMG_my_fopen (fopen : Mem.pointer) : option positive :=
  match fopen with
  | Some fp => Some fp
  | None => None
  end.

(** [MMG5_Tetra]: the vertices [v[4]] of a tetrahedron. *)
Module MMG5_Tetra.
Record t := { v : Z * Z * Z * Z }.
(** [v[k]] *)
Definition at_ (x : t) (k : nat) : option Z :=
  let '(a, b, c, d) := v x in
  match k with
  | 0%nat => Some a
  | 1%nat => Some b
  | 2%nat => Some c
  | 3%nat => Some d
  | _ => None
  end.
End MMG5_Tetra.

(** *** PMMG_tetras_of_mesh_to_txt *)

(** What the function writes, one item for each [fprintf], with the
    values it formats. *)
Inductive tetra_item :=
| Tetra_header (num ne nei : Z)    (* "Tetras in  mesh %d.ne: %d, nei:%d\n" *)
| Tetra_line (v0 v1 v2 v3 : Z).    (* "%d %d %d %d\n" *)

(** [PMMG_tetras_of_mesh_to_txt]; [tetra] is the array [mesh->tetra]
    (the record [MMG5_Mesh.t] does not carry the arrays).  The body of
    the loop reads [mesh->tetra->v], the vertices of the first entry of
    the array. *)
Definition PMMG_tetras_of_mesh_to_txt (fopen : Mem.pointer)
    (mesh : option MMG5_pMesh) (tetra : list MMG5_Tetra.t) (num : Z)
  : option (list tetra_item) :=
  match PMMG_my_fopen fopen with
  | None => None
  | Some _ =>
      match mesh with
      | None => None
      | Some mesh =>
          loop_opt (Z.to_nat (MMG5_Mesh.ne mesh + 1)) 1
            (fun k out =>
               match tetra !! 0%nat with
               | Some t =>
                   let '(a, b, c, d) := MMG5_Tetra.v t in
                   Some (out ++ [Tetra_line a b c d])
               | None => None
               end)
            [Tetra_header num (MMG5_Mesh.ne mesh) (MMG5_Mesh.nei mesh)]
      end
  end.

(** *** PMMG_find_tetras_referencing_null_points_to_txt *)

(** " mesh %d references point %d with all zero coordinates \n" *)
Inductive null_item := Null_tetra (imsh tet : Z).

(** The counter [check] after the loop over the four vertices. *)
Definition null_vertices (t : MMG5_Tetra.t) : Z :=
  for_loop 4 0
    (fun k check =>
       match MMG5_Tetra.at_ t k with
       | Some 0 => check + 1
       | _ => check
       end)
    0.

(** [PMMG_find_tetras_referencing_null_points_to_txt]; [tetra imsh] is the
    array [grp[imsh].mesh->tetra]. *)
Definition PMMG_find_tetras_referencing_null_points_to_txt
    (fopen : Mem.pointer) (grp : list PMMG_pGrp)
    (tetra : nat -> list MMG5_Tetra.t) (nmsh : Z) : option (list null_item) :=
  match PMMG_my_fopen fopen with
  | None => None
  | Some _ =>
      loop_opt (Z.to_nat nmsh) 0
        (fun imsh out =>
           match grp !! Z.to_nat imsh with
           | None => None
           | Some g =>
               match PMMG_Grp.mesh g with
               | None => None
               | Some mesh =>
                   loop_opt (Z.to_nat (MMG5_Mesh.ne mesh)) 0
                     (fun tet out =>
                        match tetra (Z.to_nat imsh) !! Z.to_nat tet with
                        | None => None
                        | Some t =>
                            Some (if null_vertices t =? 3
                                  then out ++ [Null_tetra imsh tet]
                                  else out)
                        end)
                     out
               end
           end)
        []
  end.

(** *** PMMG_listgrp_meshes_adja_of_tetras_to_txt *)

Inductive adja_item :=
| Adja_mesh (imsh ne : Z)       (* "Mesh %d, ne= %d\n" *)
| Adja_tetra (k : Z)            (* "tetra %d\t\t" *)
| Adja_idx (i idx : Z)          (* "adja[%d] %d" *)
| Adja_pair (tetra face : Z)    (* ", (tetra:%d, face:%1d)\t" *)
| Adja_newline.                 (* "\n" *)

(** The two [fprintf] of face [i] of tetrahedron [k]: three calls of the
    accessors, each with its assertions. *)
Definition adja_face_to_txt (mesh : MMG5_pMesh) (k i : Z)
    (out : list adja_item) : option (list adja_item) :=
  match PMMG_adja_idx_of_face mesh k i with
  | None => None
  | Some idx =>
      match PMMG_adja_tetra_to_face mesh k i,
            PMMG_adja_face_to_face mesh k i with
      | Some t, Some f => Some (out ++ [Adja_idx i idx; Adja_pair t f])
      | _, _ => None
      end
  end.

Definition PMMG_listgrp_meshes_adja_of_tetras_to_txt (fopen : Mem.pointer)
    (grp : list PMMG_pGrp) (ngrp : Z) : option (list adja_item) :=
  match PMMG_my_fopen fopen with
  | None => None
  | Some _ =>
      loop_opt (Z.to_nat ngrp) 0
        (fun imsh out =>
           match grp !! Z.to_nat imsh with
           | None => None
           | Some g =>
               match PMMG_Grp.mesh g with
               | None => None
               | Some mesh =>
                   loop_opt (Z.to_nat (MMG5_Mesh.ne mesh)) 1
                     (fun k out =>
                        match loop_opt 4 0 (adja_face_to_txt mesh k)
                                (out ++ [Adja_tetra k]) with
                        | Some out => Some (out ++ [Adja_newline])
                        | None => None
                        end)
                     (out ++ [Adja_mesh imsh (MMG5_Mesh.ne mesh)])
               end
           end)
        []
  end.

(** *** File names: [sprintf] *)

(** The characters of a string literal. *)
Definition lit (s : string) : list ascii := list_ascii_of_string s.

Definition digit (d : Z) : ascii := ascii_of_nat (48 + Z.to_nat d).

(** The decimal digits of [n >= 0], most significant first ([fuel]
    bounds their number). *)
Fixpoint digits (fuel : nat) (n : Z) : list ascii :=
  match fuel with
  | O => []
  | Datatypes.S f =>
      if n <? 10 then [digit n]
      else digits f (n / 10) ++ [digit (n mod 10)]
  end.

Definition decimal (n : Z) : list ascii :=
  digits (Datatypes.S (Z.to_nat (Z.log2 n))) n.

(** The conversion [%02d] of the C standard: the decimal digits, after a
    minus sign for a negative number, padded with zeros to two characters
    when shorter. *)
Definition fmt_02d (n : Z) : list ascii :=
  if n <? 0 then lit "-" ++ decimal (- n)
  else if n <? 10 then lit "0" ++ decimal n
  else decimal n.

(** What [sprintf] needs in the buffer: the characters and the
    terminating null character. *)
Definition sprintf_size (s : list ascii) : Z := Z.of_nat (length s) + 1.

(** *** PMMG_dump_malloc_allocator_info *)

(** The fields of [struct mallinfo] that are printed. *)
Record mallinfo := {
  arena : Z; ordblks : Z; smblks : Z; hblks : Z; hblkhd : Z;
  usmblks : Z; fsmblks : Z; uordblks : Z; fordblks : Z; keepcost : Z
}.

(** [PMMG_dump_malloc_allocator_info] on linux: the name of the file in
    [char name[16]] and the numbers written after [msg], in order; [me] is
    what [mallinfo()] returns.  [None] when [sprintf] writes past the end
    of [name] or when the file cannot be opened. *)
Definition PMMG_dump_malloc_allocator_info (fopen : Mem.pointer) (id : Z)
    (me : mallinfo) : option (list ascii * list Z) :=
  let name := lit "mem_info-" ++ fmt_02d id ++ lit ".txt" in
  if 16 <? sprintf_size name then None
  else
    match PMMG_my_fopen fopen with
    | None => None
    | Some _ =>
        let mb := 1024 * 1024 in
        Some (name,
              [Z.quot (arena me) mb; ordblks me; smblks me; hblks me;
               Z.quot (hblkhd me) mb; Z.quot (usmblks me) mb;
               Z.quot (fsmblks me) mb; Z.quot (uordblks me) mb;
               Z.quot (fordblks me) mb; Z.quot (keepcost me) mb])
    end.

(** *** PMMG_grplst_meshes_to_saveMesh *)

(** The files written by [MMG3D_saveMesh] and [MMG3D_saveSol]. *)
Inductive save_item :=
| Save_mesh (name : list ascii) (mesh : MMG5_pMesh)
| Save_sol (name : list ascii).

(** ["%s-P%02d-%02d.mesh"] and ["%s-P%02d-%02d.sol"] *)
Definition save_name (basename : list ascii) (rank grpId : Z)
    (ext : list ascii) : list ascii :=
  basename ++ lit "-P" ++ fmt_02d rank ++ lit "-" ++ fmt_02d grpId ++ ext.

(** The body of the loop of [PMMG_grplst_meshes_to_saveMesh] on the
    files written so far and the groups. *)
Definition saveMesh_body (K : Collaborators) (rank : Z)
    (basename : list ascii) (grpId : Z)
    (st : list save_item * list PMMG_pGrp)
  : option (list save_item * list PMMG_pGrp) :=
  let '(out, grps) := st in
  let name := save_name basename rank grpId (lit ".mesh") in
  if 2048 <? sprintf_size name then None
  else
    match grps !! Z.to_nat grpId with
    | None => None
    | Some g =>
        match PMMG_Grp.mesh g, PMMG_Grp.met g with
        | Some mesh, Some met =>
            let '(_, mesh1) := MMG3D_hashTetra K mesh 1 in
            let '(_, mesh2) := MMG3D_bdryBuild K mesh1 in
            let grps' :=
              <[Z.to_nat grpId := Clean.grp_set_mesh (Some mesh2) g]> grps in
            let out := out ++ [Save_mesh name mesh2] in
            match MMG5_Sol.m met with
            | Some _ =>
                let name := save_name basename rank grpId (lit ".sol") in
                if 2048 <? sprintf_size name then None
                else Some (out ++ [Save_sol name], grps')
            | None => Some (out, grps')
            end
        | _, _ => None
        end
    end.

(** [PMMG_grplst_meshes_to_saveMesh]: the files written and the groups
    afterwards.  [None] is the failed assertion, a [sprintf] past the end
    of [char name[2048]], or a NULL mesh or metric. *)
Definition PMMG_grplst_meshes_to_saveMesh (K : Collaborators)
    (listgrp : list PMMG_pGrp) (ngrp rank : Z) (basename : list ascii)
  : option (list save_item * list PMMG_pGrp) :=
  if negb (Z.of_nat (length basename) <? 2048 - 14) then None
  else
    loop_opt (Z.to_nat ngrp) 0 (saveMesh_body K rank basename)
      ([], listgrp).

(** *** PMMG_check_mem_max_and_mem_cur *)

Inductive mem_item :=
| MemCur_error (n_total : Z)   (* "memCur check ERROR: memCur ( ) > memGloMax" *)
| MemMax_error (n_total : Z).  (* "memMax check ERROR: memMax ( ) > memGloMax" *)

(** [n_total = first; for (...) n_total += field(mesh);] in [size_t]. *)
Definition sum_size_t (first : Z) (field : MMG5_pMesh -> Z)
    (meshes : list MMG5_pMesh) : Z :=
  fold_left (fun n mesh => to_size_t (n + field mesh)) meshes
    (to_size_t first).

(** [PMMG_check_mem_max_and_mem_cur]; [memGloMax] is the field
    [parmesh->memGloMax], which the record [PMMG_ParMesh.t] does not
    carry.  [None] is the dereference of a NULL mesh. *)
Definition PMMG_check_mem_max_and_mem_cur (parmesh : PMMG_pParMesh)
    (memGloMax : Z) : option (list mem_item) :=
  match mapM PMMG_Grp.mesh (PMMG_ParMesh.listgrp parmesh) with
  | None => None
  | Some meshes =>
      let n_cur :=
        sum_size_t (PMMG_ParMesh.memCur parmesh) MMG5_Mesh.memCur meshes in
      let n_max :=
        sum_size_t (PMMG_ParMesh.memMax parmesh) MMG5_Mesh.memMax meshes in
      Some ((if n_cur >? to_size_t memGloMax then [MemCur_error n_cur]
             else [])
            ++ (if n_max >? to_size_t memGloMax then [MemMax_error n_max]
                else []))
  end.

(** ** Statements about the debugging aids *)

(** The adjacency array of the mesh holds the entries of its [ne]
    tetrahedra. *)
Definition adja_allocated (mesh : MMG5_pMesh) : Prop :=
  4 * MMG5_Mesh.ne mesh < Z.of_nat (length (MMG5_Mesh.adja mesh)).

(** The line of tetrahedron [k] in the dump of the adjacency: for each
    face its entry in the array, the quotient and the remainder by 4. *)
Definition adja_tetra_text (mesh : MMG5_pMesh) (k : Z) : list adja_item :=
  [Adja_tetra k]
  ++ flat_map
       (fun i =>
          let idx :=
            nth (Z.to_nat (4 * (k - 1) + 1 + i)) (MMG5_Mesh.adja mesh) 0 in
          [Adja_idx i idx; Adja_pair (Z.quot idx 4) (Z.rem idx 4)])
       (seqZ 0 4)
  ++ [Adja_newline].

(** The dump of the adjacency of the groups: a header and the lines of
    the tetrahedra 1 to [ne] for each mesh. *)
Definition adja_text (grp : list PMMG_pGrp) : list adja_item :=
  flat_map
    (fun imsh =>
       match grp !! Z.to_nat imsh with
       | Some {| PMMG_Grp.mesh := Some mesh |} =>
           [Adja_mesh imsh (MMG5_Mesh.ne mesh)]
           ++ flat_map (adja_tetra_text mesh) (seqZ 1 (MMG5_Mesh.ne mesh))
       | _ => []
       end)
    (seqZ 0 (Z.of_nat (length grp))).

(** The tetrahedra that the search for null points reports in group
    [imsh], whose mesh has [ne] tetrahedra. *)
Definition null_report (tetra : nat -> list MMG5_Tetra.t) (imsh ne : Z)
  : list null_item :=
  flat_map
    (fun tet =>
       match tetra (Z.to_nat imsh) !! Z.to_nat tet with
       | Some t =>
           if null_vertices t =? 3 then [Null_tetra imsh tet] else []
       | None => []
       end)
    (seqZ 0 ne).

(** The array [tetra] of every group has the entries 0 to [ne - 1]. *)
Definition tetra_allocated (grp : list PMMG_pGrp)
    (tetra : nat -> list MMG5_Tetra.t) : Prop :=
  forall imsh g, grp !! imsh = Some g ->
    exists mesh, PMMG_Grp.mesh g = Some mesh
                 /\ MMG5_Mesh.ne mesh <= Z.of_nat (length (tetra imsh)).

(** The exact sum of a field over the parmesh and its meshes. *)
Definition total (first : Z) (field : MMG5_pMesh -> Z)
    (meshes : list MMG5_pMesh) : Z :=
  first + fold_right Z.add 0 (map field meshes).

(** The total of the [memCur] and the total of the [memMax] of a parmesh
    whose meshes are [meshes]. *)
Definition total_memCur (parmesh : PMMG_pParMesh) (meshes : list MMG5_pMesh)
  : Z :=
  total (PMMG_ParMesh.memCur parmesh) MMG5_Mesh.memCur meshes.

Definition total_memMax (parmesh : PMMG_pParMesh) (meshes : list MMG5_pMesh)
  : Z :=
  total (PMMG_ParMesh.memMax parmesh) MMG5_Mesh.memMax meshes.

(** The accounting invariant on the parmesh and on its meshes. *)
Definition accounts_kept (parmesh : PMMG_pParMesh)
    (meshes : list MMG5_pMesh) : Prop :=
  0 <= PMMG_ParMesh.memCur parmesh <= PMMG_ParMesh.memMax parmesh
  /\ Forall (fun mesh => 0 <= MMG5_Mesh.memCur mesh <= MMG5_Mesh.memMax mesh)
       meshes.

Definition is_memCur_error (d : mem_item) : bool :=
  match d with MemCur_error _ => true | MemMax_error _ => false end.

Definition is_memMax_error (d : mem_item) : bool :=
  match d with MemMax_error _ => true | MemCur_error _ => false end.

(** A mesh whose accounting holds [cur] bytes, and a parmesh with this
    mesh alone and [own] bytes of its own. *)
Definition ex_mesh_with_mem (cur : Z) : MMG5_pMesh :=
  InputData.mesh_set_memCur cur ex_mesh.

Definition ex_parmesh_with_mem (rank cur own : Z) : PMMG_pParMesh :=
  {| PMMG_ParMesh.listgrp :=
       [Clean.grp_set_mesh (Some (ex_mesh_with_mem cur))
          (ex_grp_with ex_info 5)];
     PMMG_ParMesh.myrank := rank;
     PMMG_ParMesh.imprim := 0;
     PMMG_ParMesh.memMax := 2048; PMMG_ParMesh.memCur := own |}.

(** The files that [PMMG_grplst_meshes_to_saveMesh] writes for group
    [grpId]: the mesh after [MMG3D_hashTetra] and [MMG3D_bdryBuild], and
    the metric when its array is allocated. *)
Definition save_group (K : Collaborators) (listgrp : list PMMG_pGrp)
    (rank : Z) (basename : list ascii) (grpId : Z) : list save_item :=
  match listgrp !! Z.to_nat grpId with
  | Some {| PMMG_Grp.mesh := Some mesh; PMMG_Grp.met := Some met |} =>
      Save_mesh (save_name basename rank grpId (lit ".mesh"))
        (snd (MMG3D_bdryBuild K (snd (MMG3D_hashTetra K mesh 1))))
      :: match MMG5_Sol.m met with
         | Some _ => [Save_sol (save_name basename rank grpId (lit ".sol"))]
         | None => []
         end
  | _ => []
  end.

(** The name of a file written. *)
Definition save_file (d : save_item) : list ascii :=
  match d with
  | Save_mesh name _ => name
  | Save_sol name => name
  end.

(** The number that decimal digits stand for. *)
Definition digits_value (l : list ascii) : Z :=
  fold_left (fun acc c => 10 * acc + (Z.of_nat (nat_of_ascii c) - 48)) l 0.

(** The characters ['0'] to ['9']. *)
Definition is_digit (c : ascii) : bool :=
  ((48 <=? nat_of_ascii c) && (nat_of_ascii c <=? 57))%nat.

(** The two names that [PMMG_grplst_meshes_to_saveMesh] builds for group
    [grpId]. *)
Definition save_names (basename : list ascii) (rank grpId : Z)
  : list (list ascii) :=
  [save_name basename rank grpId (lit ".mesh");
   save_name basename rank grpId (lit ".sol")].

(** ** Statements about the input check, once passed *)

(** What the check leaves of a group it accepted: a mesh and a metric with
    no option error and no mismatch between the numbers of points; the
    size of the metric can be wrong only where the metric was dropped. *)
Definition grp_checked (g : PMMG_pGrp) : Prop :=
  exists mesh met,
    PMMG_Grp.mesh g = Some mesh /\ PMMG_Grp.met g = Some met
    /\ option_error mesh met = false
    /\ metric_mismatch mesh met = false
    /\ (wrong_size met = true ->
        MMG5_Sol.np met = 0 /\ MMG5_Sol.m met = None).

(** The metric of the group, when there is one, is a scalar or a
    symmetric tensor field. *)
Definition grp_sized (g : PMMG_pGrp) : Prop :=
  forall met, PMMG_Grp.met g = Some met -> wrong_size met = false.

(** ** Statements about the values returned *)

(** The contributions to the reductions are 0, 1 or 2. *)
Definition sends_in_range (x : summary) : Prop :=
  forall op sd r, In (op, sd, r) (s_colls x) -> 0 <= sd <= 2.

(** Where the values of a process come from: what it contributes to a
    reduction is 0, 1, 2 or a code that [PMMG_parmmglib1] returned to it,
    and what it returns is [PMMG_LOWFAILURE], [PMMG_STRONGFAILURE] or the
    result of a reduction. *)
Definition codes_known (sm : summary) (s : status) : Prop :=
  (forall op sd r, In (op, sd, r) (s_colls sm) ->
     0 <= sd <= 2 \/ In (C_parmmglib1, sd) (s_calls sm))
  /\ (forall v, value_of s = Some v ->
        v = PMMG_LOWFAILURE \/ v = PMMG_STRONGFAILURE
        \/ exists op sd, In (op, sd, v) (s_colls sm)).

(** ** Statements about the broadcast of the mesh *)

(** The input check accepts the parmesh of the process, and
    [PMMG_bcast_mesh] then returns [r] on it. *)
Definition bcast_returns (e : process) (r : Z) : Prop :=
  exists msgs parmesh',
    InputData.PMMG_check_inputData (snd e) = Some (1, msgs, parmesh')
    /\ fst (PMMG_bcast_mesh (fst e) parmesh') = r.

(** The state of a process of the centralized entry point after a first
    reduction that gave 1. *)
Definition after_check (e : process) : pstate :=
  resume 1 (exec [] (PMMG_parmmglib_centralized (fst e) (snd e))).

(** Collaborators that all succeed but for [PMMG_bcast_mesh], which
    returns 0. *)
Definition ex_K_no_bcast : Collaborators :=
  {| MMG5_scaleMesh := MMG5_scaleMesh ex_K_ok;
     MMG5_unscaleMesh := MMG5_unscaleMesh ex_K_ok;
     MMG3D_doSol := MMG3D_doSol ex_K_ok;
     MMG3D_solTruncatureForOptim := MMG3D_solTruncatureForOptim ex_K_ok;
     MMG3D_Set_constantSize := MMG3D_Set_constantSize ex_K_ok;
     MMG3D_tetraQual := MMG3D_tetraQual ex_K_ok;
     MMG3D_inqua := MMG3D_inqua ex_K_ok;
     MMG3D_analys := MMG3D_analys ex_K_ok;
     MMG3D_hashTetra := MMG3D_hashTetra ex_K_ok;
     MMG3D_bdryBuild := MMG3D_bdryBuild ex_K_ok;
     PMMG_bcast_mesh := fun p => (0, p);
     PMMG_distribute_mesh := PMMG_distribute_mesh ex_K_ok;
     PMMG_parmmglib1 := PMMG_parmmglib1 ex_K_ok;
     PMMG_merge_parmesh := PMMG_merge_parmesh ex_K_ok;
     PMMG_parmesh_Free_Comm := PMMG_parmesh_Free_Comm ex_K_ok;
     MPI_Allreduce_rc := MPI_Allreduce_rc ex_K_ok |}.

(** Two processes; the broadcast of the mesh fails on the second. *)
Definition ex_run_no_bcast : list process :=
  [(ex_K_ok, ex_parmesh 0); (ex_K_no_bcast, ex_parmesh 1)].

(** ** Statements about the preprocessing *)

(** A block that returns, returns [PMMG_STRONGFAILURE], or
    [PMMG_SUCCESS] with what an [_MMG5_unscaleMesh] that returned a
    non-zero value left. *)
Definition late (K : Collaborators) (a : flow (MMG5_pMesh * MMG5_pSol))
  : Prop :=
  match a with
  | Next _ => True
  | Return v s =>
      v = PMMG_STRONGFAILURE
      \/ (v = PMMG_SUCCESS
          /\ exists s', fst (MMG5_unscaleMesh K s') <> 0
                        /\ s = snd (MMG5_unscaleMesh K s'))
  end.

(** * Theorems *)

(** ** Integer conversions *)

Lemma to_ll_id (x : Z) : ll_range x -> to_ll x = x.
Proof.
  unfold ll_range, to_ll. intros [Hlo Hhi].
  assert (E : 2 ^ 64 = 2 * 2 ^ 63) by reflexivity.
  destruct (Z_lt_le_dec x 0) as [Hneg | Hpos].
  - assert (Hm : x mod 2 ^ 64 = x + 2 ^ 64).
    { symmetry. apply Z.mod_unique with (q := -1); lia. }
    rewrite Hm. destruct (Z.ltb_spec (x + 2 ^ 64) (2 ^ 63)); lia.
  - rewrite Z.mod_small by lia.
    destruct (Z.ltb_spec x (2 ^ 63)); lia.
Qed.

Lemma to_ll_mod (x : Z) : to_ll (x mod 2 ^ 64) = to_ll x.
Proof. unfold to_ll. now rewrite Z.mod_mod. Qed.

Lemma to_ll_mul (a sz : Z) :
  ll_range (a * sz) -> to_ll (to_size_t a * sz) = a * sz.
Proof.
  intros H. unfold to_size_t.
  rewrite <- to_ll_mod, Z.mul_mod_idemp_l by (vm_compute; discriminate).
  rewrite to_ll_mod. now apply to_ll_id.
Qed.

Lemma bytes_of_sized (size sz : Z) :
  sized size sz -> bytes_of size sz = size * sz /\ 0 <= size * sz.
Proof.
  intros (H0 & Hsz & Hr). unfold bytes_of.
  rewrite to_ll_mul by exact Hr. split; [reflexivity | nia].
Qed.

Lemma free_bytes_sized (size sz : Z) :
  sized size sz -> to_ll (to_size_t (- size) * sz) = - (size * sz).
Proof.
  intros (H0 & Hsz & Hr). rewrite to_ll_mul.
  - ring.
  - unfold ll_range in *. nia.
Qed.

(** ** Memory accounting macros *)

Section MemFacts.

Import Mem.

Lemma chk_avail_cases (m : acct) (bytes : Z) :
  (memCur m + bytes > memMax m
   /\ MEM_CHK_AVAIL m bytes = (PMMG_FAILURE, [ExceededMaxMemory]))
  \/ (memCur m + bytes <= memMax m
      /\ fst (MEM_CHK_AVAIL m bytes) = PMMG_SUCCESS
      /\ ~ In ExceededMaxMemory (snd (MEM_CHK_AVAIL m bytes))).
Proof.
  unfold MEM_CHK_AVAIL.
  destruct (Z.gtb_spec (memCur m + bytes) (memMax m)).
  - left. split; [lia | reflexivity].
  - right. split; [lia |].
    destruct (memCur m + bytes <? 0); simpl; split; try reflexivity;
      intuition discriminate.
Qed.

Lemma del_mem_ptr (m : acct) (p : pointer) (size sz : Z) :
  ptr (PMMG_DEL_MEM m p size sz) = None.
Proof.
  unfold PMMG_DEL_MEM.
  match goal with |- context [let '(_, _) := ?x in _] => destruct x end.
  reflexivity.
Qed.

Lemma malloc_contract (m : acct) (size sz : Z) (alloc : pointer) :
  size <> 0 ->
  alloc_contract m (bytes_of size sz) alloc (PMMG_MALLOC m size sz alloc).
Proof.
  intros Hs. unfold alloc_contract, PMMG_MALLOC.
  apply Z.eqb_neq in Hs. rewrite Hs. simpl negb. cbv iota.
  destruct (chk_avail_cases m (bytes_of size sz)) as [[Hgt E] | (Hle & E1 & E2)].
  - rewrite E. simpl.
    destruct (Z.gtb_spec (memCur m + bytes_of size sz) (memMax m)); [| lia].
    unfold refused. simpl. tauto.
  - destruct (MEM_CHK_AVAIL m (bytes_of size sz)) as [stat l]. simpl in *.
    subst stat. simpl.
    destruct (Z.gtb_spec (memCur m + bytes_of size sz) (memMax m)); [lia |].
    unfold attempted. destruct alloc; simpl; tauto.
Qed.

Lemma calloc_contract (m : acct) (size sz : Z) (alloc : pointer) :
  size <> 0 ->
  alloc_contract m (bytes_of size sz) alloc (PMMG_CALLOC m size sz alloc).
Proof.
  intros Hs. unfold alloc_contract, PMMG_CALLOC.
  apply Z.eqb_neq in Hs. rewrite Hs. simpl negb. cbv iota.
  destruct (chk_avail_cases m (bytes_of size sz)) as [[Hgt E] | (Hle & E1 & E2)].
  - rewrite E. simpl.
    destruct (Z.gtb_spec (memCur m + bytes_of size sz) (memMax m)); [| lia].
    unfold refused. simpl. tauto.
  - destruct (MEM_CHK_AVAIL m (bytes_of size sz)) as [stat l]. simpl in *.
    subst stat. simpl.
    destruct (Z.gtb_spec (memCur m + bytes_of size sz) (memMax m)); [lia |].
    unfold attempted. destruct alloc; simpl; tauto.
Qed.

Lemma realloc_grow_contract (m : acct) (b : positive)
    (newsize oldsize sz : Z) (alloc : pointer) :
  newsize <> 0 -> oldsize < newsize ->
  grow_contract m (Some b) (to_ll (to_size_t (newsize - oldsize) * sz)) alloc
    (PMMG_REALLOC m (Some b) newsize oldsize sz alloc).
Proof.
  intros Hn Hlt. unfold grow_contract, PMMG_REALLOC.
  apply Z.eqb_neq in Hn. rewrite Hn.
  destruct (Z.ltb_spec newsize oldsize); [lia |].
  destruct (Z.gtb_spec newsize oldsize); [| lia].
  set (bytes := to_ll (to_size_t (newsize - oldsize) * sz)).
  destruct (chk_avail_cases m bytes) as [[Hgt E] | (Hle & E1 & E2)].
  - rewrite E. simpl.
    destruct (Z.gtb_spec (memCur m + bytes) (memMax m)); [| lia].
    unfold refused. simpl. tauto.
  - destruct (MEM_CHK_AVAIL m bytes) as [stat l]. simpl in *.
    subst stat. simpl.
    destruct (Z.gtb_spec (memCur m + bytes) (memMax m)); [lia |].
    destruct alloc; unfold attempted; simpl; [tauto |].
    rewrite del_mem_ptr. tauto.
Qed.

(** C3 (as amended): a non-zero request through [PMMG_MALLOC] or
    [PMMG_CALLOC] that would pass [memMax] calls no allocator, leaves the
    pointer NULL and [memCur] as it was, prints the out-of-memory message
    and runs [on_failure]; one that fits calls the allocator, and [memCur]
    grows by exactly the requested bytes when storage is returned, while a
    NULL answer leaves [memCur] as it was and runs [on_failure].  The
    growing branch of [PMMG_REALLOC] over the ceiling calls no allocator,
    keeps the pointer and [memCur] and prints the out-of-memory message;
    under the ceiling it calls [realloc] and [memCur] grows by the bytes
    added when storage is returned. *)
Theorem mem_request_contract (m : acct) (size sz : Z) (b : positive)
    (newsize oldsize : Z) (alloc : pointer) :
  size <> 0 -> newsize <> 0 -> oldsize < newsize ->
  alloc_contract m (bytes_of size sz) alloc (PMMG_MALLOC m size sz alloc)
  /\ alloc_contract m (bytes_of size sz) alloc (PMMG_CALLOC m size sz alloc)
  /\ grow_contract m (Some b) (to_ll (to_size_t (newsize - oldsize) * sz))
       alloc (PMMG_REALLOC m (Some b) newsize oldsize sz alloc).
Proof.
  intros Hs Hn Hlt. split; [| split].
  - now apply malloc_contract.
  - now apply calloc_contract.
  - now apply realloc_grow_contract.
Qed.

(** *** The accounting invariant *)




Lemma grow_sized (n o sz : Z) :
  sized n sz -> sized o sz -> o < n ->
  to_ll (to_size_t (n - o) * sz) = (n - o) * sz /\ 0 <= (n - o) * sz.
Proof.
  intros (Hn & Hs & Hr) (Ho & _ & _) Hlt.
  rewrite to_ll_mul; [split; [reflexivity | nia] |].
  unfold ll_range in *. nia.
Qed.





End MemFacts.
(** ** The communicator *)

Section Communicator.

Lemma colls_app (a b : list event) : colls (a ++ b) = colls a ++ colls b.
Proof.
  induction a as [| [x | op s r] a IH]; simpl; [reflexivity | exact IH |].
  now rewrite IH.
Qed.

Lemma calls_app (a b : list event) : calls (a ++ b) = calls a ++ calls b.
Proof.
  induction a as [| [[] | op s r] a IH]; simpl; try exact IH;
    [reflexivity | now rewrite IH].
Qed.

Lemma checks_app (a b : list event) : checks (a ++ b) = checks a ++ checks b.
Proof.
  induction a as [| [[] | op s r] a IH]; simpl; try exact IH;
    [reflexivity | now rewrite IH].
Qed.

Lemma prints_app (a b : list event) : prints (a ++ b) = prints a ++ prints b.
Proof.
  induction a as [| [[] | op s r] a IH]; simpl; try exact IH;
    [reflexivity | now rewrite IH].
Qed.

Lemma cleans_app (a b : list event) : cleans (a ++ b) = (cleans a + cleans b)%nat.
Proof.
  induction a as [| [[] | op s r] a IH]; simpl; try exact IH;
    [reflexivity | now rewrite IH].
Qed.

(** Running code adds actions only. *)
Lemma exec_colls (p : Proc) : forall tr, colls (trace (exec tr p)) = colls tr.
Proof.
  induction p as [v pm | | a rest IH | op s k IH]; intros tr; simpl;
    try reflexivity.
  rewrite IH, colls_app. simpl. apply app_nil_r.
Qed.

Lemma exec_history (p : Proc) (tr : list event) :
  history (trace (exec tr p)) = history tr.
Proof. unfold history. now rewrite exec_colls. Qed.

Lemma redop_eqb_eq (a b : redop) : redop_eqb a b = true -> a = b.
Proof. destruct a, b; simpl; congruence. Qed.

Lemma waiting_on_inv (op : redop) (st : pstate) :
  waiting_on op st = true ->
  exists k, stat st = Waiting op (send_of st) k.
Proof.
  unfold waiting_on, send_of. destruct (stat st) as [| | op' s k]; try discriminate.
  intros H. apply redop_eqb_eq in H. subst. now exists k.
Qed.

Lemma resume_colls (op : redop) (recv : Z) (st : pstate) :
  waiting_on op st = true ->
  colls (trace (resume recv st))
  = colls (trace st) ++ [(op, send_of st, recv)].
Proof.
  intros H. destruct (waiting_on_inv _ _ H) as [k Hk].
  unfold resume. rewrite Hk, exec_colls, colls_app. reflexivity.
Qed.

(** *** Reductions *)

Lemma fold_min_le (vs : list Z) : forall a,
  fold_left Z.min vs a <= a
  /\ (forall x, In x vs -> fold_left Z.min vs a <= x)
  /\ (fold_left Z.min vs a = a \/ In (fold_left Z.min vs a) vs).
Proof.
  induction vs as [| v vs IH]; intros a; simpl.
  - split; [lia | split; [tauto | now left]].
  - destruct (IH (Z.min a v)) as (H1 & H2 & H3).
    split; [lia | split].
    + intros x [-> | Hx]; [lia | now apply H2].
    + destruct H3 as [H3 | H3]; [| now right; right].
      rewrite H3. destruct (Z.min_spec a v) as [[_ ->] | [_ ->]];
        [now left | now right; left].
Qed.

Lemma fold_max_ge (vs : list Z) : forall a,
  a <= fold_left Z.max vs a
  /\ (forall x, In x vs -> x <= fold_left Z.max vs a)
  /\ (fold_left Z.max vs a = a \/ In (fold_left Z.max vs a) vs).
Proof.
  induction vs as [| v vs IH]; intros a; simpl.
  - split; [lia | split; [tauto | now left]].
  - destruct (IH (Z.max a v)) as (H1 & H2 & H3).
    split; [lia | split].
    + intros x [-> | Hx]; [lia | now apply H2].
    + destruct H3 as [H3 | H3]; [| now right; right].
      rewrite H3. destruct (Z.max_spec a v) as [[_ ->] | [_ ->]];
        [now right; left | now left].
Qed.

Lemma reduce_worse (op : redop) (vs : list Z) (s : Z) :
  In s vs -> worse_or_equal (op, s, reduce op vs).
Proof.
  destruct vs as [| v vs]; [intros [] |]. intros Hin. unfold reduce.
  destruct op; simpl.
  - destruct (fold_min_le vs v) as (H1 & H2 & _).
    destruct Hin as [-> | Hin]; [exact H1 | now apply H2].
  - destruct (fold_max_ge vs v) as (H1 & H2 & _).
    destruct Hin as [-> | Hin]; [exact H1 | now apply H2].
Qed.

Lemma reduce_attained (op : redop) (vs : list Z) :
  vs <> [] -> In (reduce op vs) vs.
Proof.
  destruct vs as [| v vs]; [congruence |]. intros _. unfold reduce.
  destruct op; simpl.
  - destruct (fold_min_le vs v) as (_ & _ & [-> | H]); [now left | now right].
  - destruct (fold_max_ge vs v) as (_ & _ & [-> | H]); [now left | now right].
Qed.

(** *** Rounds *)

Lemma round_inv (sts sts' : list pstate) :
  round sts = Some sts' ->
  exists op,
    sts <> []
    /\ Forall (fun st => waiting_on op st = true) sts
    /\ sts' = map (resume (reduce op (map send_of sts))) sts.
Proof.
  unfold round. destruct sts as [| st rest]; [discriminate |].
  destruct (stat st) as [| | op s k] eqn:Hst; try discriminate.
  destruct (forallb (waiting_on op) (st :: rest)) eqn:Hall; [| discriminate].
  intros [= <-]. exists op. split; [discriminate | split; [| reflexivity]].
  apply Forall_forall. intros x Hx.
  rewrite forallb_forall in Hall. apply Hall. now apply list_elem_of_In.
Qed.

Lemma round_all_waiting (op : redop) (sts : list pstate) :
  sts <> [] -> Forall (fun st => waiting_on op st = true) sts ->
  round sts <> None.
Proof.
  intros Hne Hall. unfold round. destruct sts as [| st rest]; [congruence |].
  pose proof (Forall_inv Hall) as H0.
  destruct (waiting_on_inv _ _ H0) as [k Hk]. rewrite Hk.
  assert (forallb (waiting_on op) (st :: rest) = true) as ->; [| discriminate].
  apply forallb_forall. intros x Hx. rewrite Forall_forall in Hall.
  apply Hall. now apply list_elem_of_In.
Qed.

Lemma lockstep_round (sts sts' : list pstate) :
  lockstep sts -> round sts = Some sts' -> lockstep sts'.
Proof.
  intros (h & Hh & Hw & Hat) Hr.
  destruct (round_inv _ _ Hr) as (op & Hne & Hall & ->).
  set (v := reduce op (map send_of sts)).
  rewrite Forall_forall in Hh, Hw, Hall.
  assert (Hcol : forall st, In st sts ->
            colls (trace (resume v st))
            = colls (trace st) ++ [(op, send_of st, v)]).
  { intros st Hst. apply resume_colls, Hall. now apply list_elem_of_In. }
  exists (h ++ [(op, v)]). split; [| split].
  - apply Forall_forall. intros x Hx. apply list_elem_of_In, in_map_iff in Hx.
    destruct Hx as (st & <- & Hst). unfold history.
    rewrite (Hcol _ Hst), map_app. simpl. f_equal.
    apply (Hh st). now apply list_elem_of_In.
  - apply Forall_forall. intros x Hx. apply list_elem_of_In, in_map_iff in Hx.
    destruct Hx as (st & <- & Hst). rewrite (Hcol _ Hst).
    apply Forall_app. split; [apply Hw; now apply list_elem_of_In |].
    constructor; [| constructor].
    apply reduce_worse, in_map_iff. now exists st.
  - intros n op' r Hn.
    destruct (lookup_app_Some h [(op, v)] n (op', r)) as [Hl _].
    destruct (Hl Hn) as [Hold | [Hlen Hnew]].
    + destruct (Hat _ _ _ Hold) as (st & Hst & Hc).
      exists (resume v st). split; [apply in_map_iff; now exists st |].
      rewrite (Hcol _ Hst). now apply lookup_app_l_Some.
    + destruct (n - length h)%nat eqn:Hd; simpl in Hnew; [| discriminate].
      injection Hnew as <- <-.
      assert (Hv : In v (map send_of sts)).
      { apply reduce_attained. destruct sts; [congruence | discriminate]. }
      apply in_map_iff in Hv. destruct Hv as (st & Hs & Hst).
      exists (resume v st). split; [apply in_map_iff; now exists st |].
      rewrite (Hcol _ Hst), Hs.
      assert (Hlen' : length (colls (trace st)) = length h).
      { rewrite <- (Hh st) by now apply list_elem_of_In.
        unfold history. now rewrite length_map. }
      rewrite lookup_app_r by lia.
      replace (n - length (colls (trace st)))%nat with O by lia. reflexivity.
Qed.

Lemma lockstep_run (fuel : nat) : forall sts,
  lockstep sts -> lockstep (run fuel sts).
Proof.
  induction fuel as [| fuel IH]; intros sts H; simpl; [exact H |].
  destruct (round sts) as [sts' |] eqn:Hr; [| exact H].
  apply IH. eapply lockstep_round; eauto.
Qed.

Lemma lockstep_start (entry : Collaborators -> PMMG_pParMesh -> Proc)
    (procs : list process) :
  lockstep (start entry procs).
Proof.
  exists []. unfold start. split; [| split].
  - apply Forall_forall. intros x Hx. apply list_elem_of_In, in_map_iff in Hx.
    destruct Hx as (e & <- & _). now rewrite exec_history.
  - apply Forall_forall. intros x Hx. apply list_elem_of_In, in_map_iff in Hx.
    destruct Hx as (e & <- & _). rewrite exec_colls. constructor.
  - intros n op r Hn. now rewrite lookup_nil in Hn.
Qed.

(** If fewer collectives completed than the fuel allows, the run stopped
    because no collective could complete. *)
Lemma run_quiescent_from (fuel : nat) : forall sts c st,
  Forall (fun x => length (colls (trace x)) = c) sts ->
  In st (run fuel sts) ->
  (length (colls (trace st)) < c + fuel)%nat ->
  round (run fuel sts) = None.
Proof.
  induction fuel as [| fuel IH]; intros sts c st Hc Hin Hlt; simpl in *.
  - rewrite Forall_forall in Hc.
    specialize (Hc st (proj2 (list_elem_of_In _ _) Hin)). lia.
  - destruct (round sts) as [sts' |] eqn:Hr; [| exact Hr].
    apply (IH sts' (S c) st); [| exact Hin | lia].
    destruct (round_inv _ _ Hr) as (op & _ & Hall & ->).
    rewrite Forall_forall in Hall, Hc. apply Forall_forall.
    intros x Hx. apply list_elem_of_In, in_map_iff in Hx.
    destruct Hx as (y & <- & Hy). apply list_elem_of_In in Hy.
    rewrite (resume_colls op) by now apply Hall.
    rewrite length_app, (Hc y Hy). simpl. lia.
Qed.

Lemma run_quiescent (entry : Collaborators -> PMMG_pParMesh -> Proc)
    (fuel : nat) (procs : list process) (st : pstate) :
  In st (run fuel (start entry procs)) ->
  (length (colls (trace st)) < fuel)%nat ->
  round (run fuel (start entry procs)) = None.
Proof.
  intros Hin Hlt. apply (run_quiescent_from fuel _ O st); [| exact Hin | lia].
  unfold start. apply Forall_forall. intros x Hx.
  apply list_elem_of_In, in_map_iff in Hx. destruct Hx as (e & <- & _).
  now rewrite exec_colls.
Qed.

(** *** Transfer of the properties of a code to the runs *)

Lemma always_exec (P : pstate -> Prop) (tr : list event) (p : Proc) :
  always P tr p -> stable P (exec tr p).
Proof.
  induction 1; simpl; unfold stable; simpl; try tauto.
  exact IHalways.
Qed.

Lemma stable_round (P : pstate -> Prop) (sts sts' : list pstate) :
  Forall (stable P) sts -> round sts = Some sts' -> Forall (stable P) sts'.
Proof.
  intros Hs Hr. destruct (round_inv _ _ Hr) as (op & _ & Hall & ->).
  rewrite Forall_forall in Hs, Hall. apply Forall_forall.
  intros x Hx. apply list_elem_of_In, in_map_iff in Hx.
  destruct Hx as (st & <- & Hst). apply list_elem_of_In in Hst.
  destruct (waiting_on_inv _ _ (Hall _ Hst)) as [k Hk].
  destruct (Hs _ Hst) as [_ Hfut]. rewrite Hk in Hfut.
  unfold resume. rewrite Hk. apply always_exec, Hfut.
Qed.

Lemma stable_run (P : pstate -> Prop) (fuel : nat) : forall sts,
  Forall (stable P) sts -> Forall (stable P) (run fuel sts).
Proof.
  induction fuel as [| fuel IH]; intros sts H; simpl; [exact H |].
  destruct (round sts) as [sts' |] eqn:Hr; [| exact H].
  apply IH. eapply stable_round; eauto.
Qed.

Lemma always_run_in (P : pstate -> Prop)
    (entry : Collaborators -> PMMG_pParMesh -> Proc)
    (procs : list process) :
  (forall e, In e procs -> always P [] (entry (fst e) (snd e))) ->
  forall fuel st, In st (run fuel (start entry procs)) -> P st.
Proof.
  intros Hentry fuel st Hin.
  assert (H : Forall (stable P) (run fuel (start entry procs))).
  { apply stable_run. unfold start. apply Forall_forall.
    intros x Hx. apply list_elem_of_In, in_map_iff in Hx.
    destruct Hx as (e & <- & He). apply always_exec, Hentry, He. }
  rewrite Forall_forall in H. apply (H st). now apply list_elem_of_In.
Qed.

Lemma always_run (P : pstate -> Prop)
    (entry : Collaborators -> PMMG_pParMesh -> Proc) :
  (forall K parmesh, always P [] (entry K parmesh)) ->
  forall fuel procs st, In st (run fuel (start entry procs)) -> P st.
Proof.
  intros Hentry fuel procs. apply always_run_in. intros e _. apply Hentry.
Qed.

End Communicator.


(** ** The entry points, one process at a time *)

Section Paths.

Lemma colls_prints (l : list message) : colls (map Act (map APrint l)) = [].
Proof. induction l; simpl; auto. Qed.

Lemma calls_prints (l : list message) : calls (map Act (map APrint l)) = [].
Proof. induction l; simpl; auto. Qed.

Lemma checks_prints (l : list message) : checks (map Act (map APrint l)) = [].
Proof. induction l; simpl; auto. Qed.

Lemma prints_prints (l : list message) : prints (map Act (map APrint l)) = l.
Proof. induction l; simpl; [reflexivity | now f_equal]. Qed.

End Paths.

Section Summaries.

Lemma summ_note (a : action) (tr : list event) :
  summ (tr ++ [Act a]) = note a (summ tr).
Proof.
  unfold summ. rewrite colls_app, calls_app, checks_app, prints_app, cleans_app.
  destruct a; simpl; rewrite ?app_nil_r, ?Nat.add_0_r; try reflexivity.
  f_equal. lia.
Qed.

Lemma summ_note_coll (op : redop) (s r : Z) (tr : list event) :
  summ (tr ++ [Allreduced op s r]) = note_coll op s r (summ tr).
Proof.
  unfold summ. rewrite colls_app, calls_app, checks_app, prints_app, cleans_app.
  simpl. rewrite ?app_nil_r, ?Nat.add_0_r. reflexivity.
Qed.

Lemma holds_always (Q : summary -> status -> Prop) (sm : summary) (p : Proc) :
  holds Q sm p ->
  forall tr, sm = summ tr ->
    always (fun st => Q (summ (trace st)) (stat st)) tr p.
Proof.
  induction 1 as [sm v pm H | sm H | sm a rest H IH | sm op s k H Hk IH];
    intros tr ->.
  - now apply always_done.
  - now apply always_fault.
  - apply always_emit, IH. now rewrite summ_note.
  - apply always_coll; [exact H |].
    intros recv. apply IH. now rewrite summ_note_coll.
Qed.

Lemma holds_entry (Q : summary -> status -> Prop) (p : Proc) :
  holds Q summ0 p -> always (fun st => Q (summ (trace st)) (stat st)) [] p.
Proof. intros H. now apply (holds_always Q summ0). Qed.

Lemma holds_prints (Q : summary -> status -> Prop) (l : list message) :
  forall sm rest,
    holds Q (note_prints l sm) rest ->
    holds Q sm (emit_all (map APrint l) rest).
Proof.
  induction l as [| d l IH]; intros sm rest H; simpl.
  - destruct sm. unfold note_prints in H. simpl in H.
    now rewrite app_nil_r in H.
  - apply holds_emit, IH. destruct sm. unfold note_prints, note in *.
    simpl in *. now rewrite <- app_assoc.
Qed.

Lemma holds_emit_all (Q : summary -> status -> Prop) (l : list action) :
  forall sm rest,
    holds Q (fold_left (fun s a => note a s) l sm) rest ->
    holds Q sm (emit_all l rest).
Proof.
  induction l as [| a l IH]; intros sm rest H; simpl in *; [exact H |].
  apply holds_emit, IH. exact H.
Qed.

Lemma holds_impl (Q Q' : summary -> status -> Prop) (sm : summary) (p : Proc) :
  (forall sm s, Q sm s -> Q' sm s) -> holds Q sm p -> holds Q' sm p.
Proof.
  intros HQ. induction 1; constructor; auto.
Qed.

End Summaries.

(** The innermost scrutinee of nested conditionals. *)
Ltac scrutinee x k :=
  lazymatch x with
  | (if ?c then _ else _) => scrutinee c k
  | (match ?y with _ => _ end) => scrutinee y k
  | _ => k x
  end.

Ltac unfold_entry :=
  cbv beta iota zeta delta
    [PMMG_parmmglib_centralized PMMG_parmmglib_distributed check_phase
     centralized_distribute preprocess_phase centralized_remesh
     centralized_merge centralized_boundary reconstruct_boundary
     clean_and_return distributed_start
     distributed_remesh distributed_boundary unscale_if_strong
     boundary_fails].

Ltac tidy_summary :=
  unfold note_coll, note_prints, summ0;
  cbn [note fold_left app s_colls s_calls s_checks s_prints s_cleans].

(** Runs the code of an entry point symbolically, one branch a goal. *)
Ltac path_step :=
  lazymatch goal with
  | |- holds _ _ (Done _ _) => apply holds_done
  | |- holds _ _ Fault => apply holds_fault
  | |- holds _ _ (Emit _ _) => apply holds_emit; tidy_summary
  | |- holds _ _ (emit_all (map APrint _) _) =>
      apply holds_prints; tidy_summary
  | |- holds _ _ (emit_all _ _) => apply holds_emit_all; tidy_summary
  | |- holds _ _ (Coll _ _ _) =>
      apply holds_coll; [| intro; tidy_summary]
  | |- holds _ _ (if ?c then _ else _) =>
      scrutinee c ltac:(fun y => destruct y eqn:?)
  | |- holds _ _ (match ?x with _ => _ end) =>
      scrutinee x ltac:(fun y => destruct y eqn:?)
  end.

Ltac paths := tidy_summary; unfold_entry; repeat (path_step; unfold_entry).

(** *** What the collaborating functions of libparmmg.c return *)

Section ReturnValues.

Lemma check_groups_ret (gs : list PMMG_pGrp) : forall r l gs',
  InputData.check_groups gs = Some (r, l, gs') -> r = 0 \/ r = 1.
Proof.
  induction gs as [| g gs IH]; intros r l gs' H; simpl in H.
  - injection H as <- _ _. now right.
  - destruct (InputData.check_grp g) as [[d | g' w] |]; try discriminate.
    + injection H as <- _ _. now left.
    + destruct (InputData.check_groups gs) as [[[r0 l0] gs0] |];
        try discriminate.
      injection H as <- _ _. eapply IH. reflexivity.
Qed.

Lemma check_inputData_ret (parmesh parmesh' : PMMG_pParMesh) (r : Z)
    (l : list message) :
  InputData.PMMG_check_inputData parmesh = Some (r, l, parmesh') ->
  0 <= r <= 1.
Proof.
  unfold InputData.PMMG_check_inputData.
  destruct (InputData.check_groups _) as [[[r0 l0] gs0] |] eqn:E;
    [| discriminate].
  intros [= <- _ _]. destruct (check_groups_ret _ _ _ _ E); lia.
Qed.

Definition one_of_codes (v : Z) : Prop :=
  v = PMMG_SUCCESS \/ v = PMMG_LOWFAILURE \/ v = PMMG_STRONGFAILURE.

Definition returns_code {S : Type} (a : flow S) : Prop :=
  match a with Next _ => True | Return v _ => one_of_codes v end.

Lemma andThen_code {S : Type} (a : flow S) (k : S -> flow S) :
  returns_code a -> (forall s, returns_code (k s)) ->
  returns_code (a ;;; k).
Proof. destruct a; simpl; auto. Qed.

Lemma orReturn_code {S : Type} (f : S -> Z * S) (v : Z) (s : S) :
  one_of_codes v -> returns_code (orReturn f v s).
Proof.
  intros Hv. unfold orReturn. destruct (f s) as [r s'].
  destruct (r =? 0); simpl; auto.
Qed.

Lemma when_code {S : Type} (c : bool) (k : S -> flow S) (s : S) :
  (forall s, returns_code (k s)) -> returns_code (when c k s).
Proof. intros H. unfold when. destruct c; simpl; auto. Qed.

Lemma preprocess_body_code (K : Collaborators) (imprim : Z)
    (s : MMG5_pMesh * MMG5_pSol) :
  one_of_codes (flow_value (preprocess_body K imprim s)).
Proof.
  assert (H : returns_code (preprocess_body K imprim s)).
  { unfold preprocess_body.
    repeat first
      [ apply andThen_code; [| intros ?]
      | apply when_code; intros ? ];
      try apply orReturn_code; simpl; unfold one_of_codes; auto. }
  destruct (preprocess_body K imprim s); simpl in *;
    [unfold one_of_codes; tauto | exact H].
Qed.

Lemma preprocessMesh_ret (K : Collaborators) (parmesh parmesh' : PMMG_pParMesh)
    (r : Z) :
  PMMG_preprocessMesh K parmesh = Some (r, parmesh') -> 0 <= r <= 2.
Proof.
  unfold PMMG_preprocessMesh. destruct (load_grp 0 parmesh); [| discriminate].
  intros [= <- _].
  destruct (preprocess_body_code K (PMMG_ParMesh.imprim parmesh) p)
    as [-> | [-> | ->]]; vm_compute; intuition discriminate.
Qed.

End ReturnValues.
(** ** PMMG_CLEAN_AND_RETURN *)

Section CleanFacts.

Import Clean.

(** A loop that alters the entries [from .. from+n-1] of an array. *)
Lemma for_loop_alter_lookup {A : Type} (f : A -> A) (n : nat) :
  forall (from : nat) (l : list A) (i : nat),
    for_loop n from (fun k l => alter f k l) l !! i
    = if bool_decide (from <= i < from + n)%nat then f <$> l !! i else l !! i.
Proof.
  induction n as [| n IH]; intros from l i; simpl.
  - rewrite bool_decide_eq_false_2 by lia. reflexivity.
  - rewrite IH. destruct (Nat.eq_dec i from) as [-> | Hne].
    + rewrite bool_decide_eq_false_2 by lia.
      rewrite bool_decide_eq_true_2 by lia.
      now rewrite list_lookup_alter_eq.
    + rewrite list_lookup_alter_ne by congruence.
      destruct (bool_decide (S from <= i < S from + n)%nat) eqn:E.
      * apply bool_decide_eq_true in E.
        now rewrite bool_decide_eq_true_2 by lia.
      * apply bool_decide_eq_false in E.
        now rewrite bool_decide_eq_false_2 by lia.
Qed.

Lemma for_loop_alter_length {A : Type} (f : A -> A) (n : nat) :
  forall (from : nat) (l : list A),
    length (for_loop n from (fun k l => alter f k l) l) = length l.
Proof.
  induction n as [| n IH]; intros from l; simpl; [reflexivity |].
  now rewrite IH, length_alter.
Qed.

Lemma for_loop_alter_all {A : Type} (f : A -> A) (l : list A) :
  for_loop (length l) 0 (fun k l => alter f k l) l = map f l.
Proof.
  apply list_eq. intros i. rewrite for_loop_alter_lookup.
  change (map f l) with (f <$> l). rewrite list_lookup_fmap.
  case_bool_decide as E; [reflexivity |].
  rewrite lookup_ge_None_2 by lia. reflexivity.
Qed.

Lemma insert_alter {A : Type} (f : A -> A) (l : list A) (i : nat) (a : A) :
  l !! i = Some a -> <[i := f a]> l = alter f i l.
Proof.
  intros H. apply list_eq. intros j. destruct (Nat.eq_dec j i) as [-> | Hne].
  - rewrite list_lookup_alter_eq, H.
    apply list_lookup_insert_eq. now apply lookup_lt_Some in H.
  - rewrite list_lookup_alter_ne by congruence.
    now rewrite list_lookup_insert_ne by congruence.
Qed.

Section FieldLoop.

Context {St A : Type} (get : St -> list A) (set : list A -> St -> St)
  (F : A -> option A) (body : nat -> St -> option St).

Hypothesis get_set : forall a s, get (set a s) = a.
Hypothesis set_set : forall a b s, set a (set b s) = set a s.
Hypothesis set_get : forall s, set (get s) s = s.
Hypothesis body_eq : forall k s,
  body k s
  = match get s !! k with
    | Some a =>
        match F a with
        | Some a' => Some (set (<[k := a']> (get s)) s)
        | None => None
        end
    | None => None
    end.

(** A loop that rewrites the entries [from .. from+n-1] of an array of
    its state, all of them there and rewritten without failure. *)
Lemma for_loop_opt_done (G : A -> A) (n : nat) :
  forall (from : nat) (s : St),
    (forall k, (from <= k < from + n)%nat ->
       exists a, get s !! k = Some a /\ F a = Some (G a)) ->
    for_loop_opt n from body s
    = Some (set (for_loop n from (fun k l => alter G k l) (get s)) s).
Proof.
  induction n as [| n IH]; intros from s H; cbn [for_loop_opt for_loop].
  - now rewrite set_get.
  - destruct (H from ltac:(lia)) as (a & Ha & Hf).
    rewrite body_eq, Ha, Hf, (insert_alter G _ _ _ Ha).
    rewrite IH.
    + now rewrite get_set, set_set.
    + intros k Hk. rewrite get_set.
      rewrite list_lookup_alter_ne by lia. apply H. lia.
Qed.

(** The loop fails when an entry is missing or cannot be rewritten. *)
Lemma for_loop_opt_fails (n : nat) :
  forall (from : nat) (s : St) (k : nat),
    (from <= k < from + n)%nat ->
    match get s !! k with Some a => F a = None | None => True end ->
    for_loop_opt n from body s = None.
Proof.
  induction n as [| n IH]; intros from s k Hk Hbad; [lia |].
  cbn [for_loop_opt]. rewrite body_eq.
  destruct (get s !! from) as [a |] eqn:Ha; [| reflexivity].
  destruct (F a) as [a' |] eqn:Hf; [| reflexivity].
  destruct (Nat.eq_dec k from) as [-> | Hne].
  { rewrite Ha in Hbad. congruence. }
  apply (IH _ _ k); [lia |].
  rewrite get_set. now rewrite list_lookup_insert_ne by congruence.
Qed.

End FieldLoop.

Lemma clean_mesh_met_sols (g : PMMG_pGrp) :
  PMMG_Grp.sol (clean_met (clean_mesh g)) = PMMG_Grp.sol g
  /\ option_map MMG5_Mesh.nsols (PMMG_Grp.mesh (clean_met (clean_mesh g)))
     = option_map MMG5_Mesh.nsols (PMMG_Grp.mesh g).
Proof. now destruct g as [[x |] [s |] sols]. Qed.

(** The loop over the solutions completes exactly when their array has
    the [nsols] entries. *)
Lemma clean_grp_eq (g : PMMG_pGrp) :
  clean_grp g = if sols_allocated g then Some (synced_grp g) else None.
Proof.
  unfold clean_grp, synced_grp, sols_allocated, clean_sols.
  destruct (clean_mesh_met_sols g) as [Hs Hn]. cbv zeta.
  set (g1 := clean_met (clean_mesh g)) in *.
  destruct (PMMG_Grp.mesh g1) as [x1 |] eqn:E1;
    destruct (PMMG_Grp.mesh g) as [x |]; try discriminate Hn;
    [| reflexivity].
  cbn in Hn. injection Hn as Hn. rewrite <- Hn, <- Hs.
  destruct (Z.leb_spec (MMG5_Mesh.nsols x1)
              (Z.of_nat (length (PMMG_Grp.sol g1)))) as [Hle | Hgt].
  - apply (for_loop_opt_done PMMG_Grp.sol grp_set_sol
             (fun s => Some (sol_set_npi (MMG5_Sol.np s) s))).
    + reflexivity.
    + reflexivity.
    + now intros [].
    + intros k s. now destruct (PMMG_Grp.sol s !! k).
    + intros k Hk.
      destruct (lookup_lt_is_Some_2 (PMMG_Grp.sol g1) k ltac:(lia))
        as [a Ha].
      now exists a.
  - apply (for_loop_opt_fails PMMG_Grp.sol grp_set_sol
             (fun s => Some (sol_set_npi (MMG5_Sol.np s) s)))
      with (k := length (PMMG_Grp.sol g1)).
    + reflexivity.
    + intros k s. now destruct (PMMG_Grp.sol s !! k).
    + lia.
    + now rewrite lookup_ge_None_2 by lia.
Qed.

Lemma forallb_false {A : Type} (f : A -> bool) (l : list A) :
  forallb f l = false -> exists k a, l !! k = Some a /\ f a = false.
Proof.
  induction l as [| x l IH]; cbn; [discriminate |].
  destruct (f x) eqn:E; cbn.
  - intros H. destruct (IH H) as (k & a & Hk & Ha). now exists (S k), a.
  - intros _. now exists 0%nat, x.
Qed.

(** The macro completes exactly when every group has its array of
    solutions, and then leaves every group synchronised. *)
Lemma clean_return_eq (parmesh : PMMG_pParMesh) (val : Z) :
  PMMG_CLEAN_AND_RETURN parmesh val
  = if forallb sols_allocated (PMMG_ParMesh.listgrp parmesh)
    then Some (synced_parmesh parmesh, val) else None.
Proof.
  unfold PMMG_CLEAN_AND_RETURN, PMMG_ParMesh.ngrp, synced_parmesh.
  rewrite Nat2Z.id.
  destruct (forallb sols_allocated (PMMG_ParMesh.listgrp parmesh)) eqn:E.
  - rewrite (for_loop_opt_done PMMG_ParMesh.listgrp parmesh_set_listgrp
               clean_grp _ ltac:(reflexivity) ltac:(reflexivity)
               ltac:(now intros []) ltac:(reflexivity) synced_grp).
    + now rewrite for_loop_alter_all.
    + intros k Hk.
      destruct (lookup_lt_is_Some_2 (PMMG_ParMesh.listgrp parmesh) k
                  ltac:(lia)) as [g Hg].
      exists g. split; [exact Hg |]. rewrite clean_grp_eq.
      rewrite forallb_forall in E.
      rewrite (E g); [reflexivity |].
      apply list_elem_of_In. eapply list_elem_of_lookup_2. exact Hg.
  - destruct (forallb_false _ _ E) as (k & g & Hk & Hg).
    rewrite (for_loop_opt_fails PMMG_ParMesh.listgrp parmesh_set_listgrp
               clean_grp _ ltac:(reflexivity) ltac:(reflexivity)
               _ 0 parmesh k); [reflexivity | |].
    + apply lookup_lt_Some in Hk. lia.
    + rewrite Hk, clean_grp_eq, Hg. reflexivity.
Qed.

Lemma synced_grp_cleaned (g : PMMG_pGrp) : grp_cleaned g (synced_grp g).
Proof.
  unfold synced_grp. cbv zeta.
  destruct g as [[x |] [s |] sols]; unfold grp_cleaned, sol_in_loop;
    cbn [clean_mesh clean_met PMMG_Grp.mesh PMMG_Grp.met PMMG_Grp.sol
         grp_set_mesh grp_set_met grp_set_sol].
  all: repeat match goal with
       | |- _ /\ _ => split
       | |- exists _, Some _ = Some _ /\ _ => eexists; split; [reflexivity |]
       | |- None = None => reflexivity
       end.
  all: try (unfold mesh_framed, mesh_synced, sol_framed, sol_synced;
            simpl; tauto).
  all: try apply for_loop_alter_length.
  all: try reflexivity.
  - intros j s0 Hj. rewrite for_loop_alter_lookup, Hj.
    case_bool_decide as E; simpl in *.
    + eexists; split; [reflexivity |].
      split; [unfold sol_framed; simpl; tauto |].
      split; [intros _; reflexivity |].
      intros Hn. exfalso. apply Hn. lia.
    + eexists; split; [reflexivity |].
      split; [unfold sol_framed; tauto |].
      split; [| reflexivity].
      intros Hn. exfalso. apply E. lia.
  - intros j s0 Hj. rewrite for_loop_alter_lookup, Hj.
    case_bool_decide as E; simpl in *.
    + eexists; split; [reflexivity |].
      split; [unfold sol_framed; simpl; tauto |].
      split; [intros _; reflexivity |].
      intros Hn. exfalso. apply Hn. lia.
    + eexists; split; [reflexivity |].
      split; [unfold sol_framed; tauto |].
      split; [| reflexivity].
      intros Hn. exfalso. apply E. lia.
  - intros j s0 Hj. exists s0. unfold sol_framed. tauto.
  - intros j s0 Hj. exists s0. unfold sol_framed. tauto.
Qed.

Lemma synced_parmesh_cleaned (parmesh : PMMG_pParMesh) :
  parmesh_cleaned parmesh (synced_parmesh parmesh).
Proof.
  unfold parmesh_cleaned, synced_parmesh. simpl. repeat split.
  - apply length_map.
  - intros k g Hk.
    change (map synced_grp (PMMG_ParMesh.listgrp parmesh))
      with (synced_grp <$> PMMG_ParMesh.listgrp parmesh).
    rewrite list_lookup_fmap, Hk.
    eexists; split; [reflexivity | apply synced_grp_cleaned].
Qed.

(** What a return of the macro tells: the value is the one given, every
    group had its array of solutions, and the parmesh is the one given
    with its counters synchronised. *)
Lemma clean_spec (parmesh parmesh' : PMMG_pParMesh) (val v : Z) :
  PMMG_CLEAN_AND_RETURN parmesh val = Some (parmesh', v) ->
  v = val
  /\ forallb sols_allocated (PMMG_ParMesh.listgrp parmesh) = true
  /\ parmesh_cleaned parmesh parmesh'.
Proof.
  rewrite clean_return_eq.
  destruct (forallb sols_allocated (PMMG_ParMesh.listgrp parmesh));
    [| discriminate].
  intros [= <- <-]. split; [reflexivity |]. split; [reflexivity |].
  apply synced_parmesh_cleaned.
Qed.

Lemma cleaned_mesh0 (p p' : PMMG_pParMesh) :
  parmesh_cleaned p p' -> is_Some (mesh0 p) -> is_Some (mesh0 p').
Proof.
  intros (_ & _ & _ & _ & _ & Hg) [x Hx]. unfold mesh0 in *.
  destruct (PMMG_ParMesh.listgrp p !! 0%nat) as [g |] eqn:E; [| discriminate].
  destruct (Hg _ _ E) as (g' & -> & Hc & _). rewrite Hx in Hc.
  destruct Hc as (x' & -> & _). now exists x'.
Qed.

Lemma store_mesh0_mesh0 (mesh : MMG5_pMesh) (p : PMMG_pParMesh) :
  is_Some (mesh0 p) -> mesh0 (store_mesh0 mesh p) = Some mesh.
Proof.
  intros [x Hx]. unfold mesh0, store_mesh0 in *. simpl.
  destruct (PMMG_ParMesh.listgrp p !! 0%nat) as [g |] eqn:E; [| discriminate].
  rewrite list_lookup_alter_eq, E. reflexivity.
Qed.

End CleanFacts.

(** Brings the values the collaborating functions return into the
    context of a path. *)
Ltac ret_facts :=
  repeat match goal with
  | H : Clean.PMMG_CLEAN_AND_RETURN _ _ = Some (_, _) |- _ =>
      apply clean_spec in H as (-> & _ & H)
  | H : InputData.PMMG_check_inputData _ = Some (?r, _, _) |- _ =>
      lazymatch goal with
      | _ : 0 <= r <= 1 |- _ => fail
      | _ => pose proof (check_inputData_ret _ _ _ _ H)
      end
  | H : PMMG_preprocessMesh _ _ = Some (?r, _) |- _ =>
      lazymatch goal with
      | _ : 0 <= r <= 2 |- _ => fail
      | _ => pose proof (preprocessMesh_ret _ _ _ _ H)
      end
  end.

(** Turns the tests of a path into facts on integers. *)
Ltac test_facts :=
  repeat match goal with
  | H : negb _ = true |- _ => apply negb_true_iff in H
  | H : negb _ = false |- _ => apply negb_false_iff in H
  | H : (_ =? _) = true |- _ => apply Z.eqb_eq in H
  | H : (_ =? _) = false |- _ => apply Z.eqb_neq in H
  end.

(** Keeps the facts on integers of a path and drops the rest. *)
Ltac keep_integers :=
  repeat match goal with
  | H : ?x = ?y |- _ =>
      lazymatch x with
      | mesh0 _ => fail
      | _ =>
          lazymatch type of x with
          | Z => fail
          | _ => clear H
          end
      end
  end.

Ltac path_facts := ret_facts; test_facts; keep_integers.

(** Decomposes the hypotheses of a leaf: memberships in explicit lists and
    equations between explicit values. *)
Ltac leaf_hyps :=
  repeat match goal with
  | H : False |- _ => destruct H
  | H : ?a <> ?a |- _ => destruct H; reflexivity
  | H : _ /\ _ |- _ => destruct H
  | H : _ \/ _ |- _ => destruct H
  | H : Some _ = Some _ |- _ => injection H as H
  | H : None = Some _ |- _ => discriminate H
  | H : Some _ = None |- _ => discriminate H
  | H : (_, _) = (_, _) |- _ => apply pair_equal_spec in H
  | H : [] = _ :: _ |- _ => discriminate H
  | H : _ :: _ = [] |- _ => discriminate H
  | H : _ :: _ = _ :: _ |- _ => injection H as ? H
  | H : ?a = ?b |- _ =>
      first [ is_var a; subst a | is_var b; subst b
            | is_constructor a; is_constructor b; discriminate H
            | constr_eq a b; clear H ]
  end.

Ltac leaf_cases :=
  repeat match goal with
  | |- context [if ?c then _ else _] => destruct c eqn:?
  | H : context [if ?c then _ else _] |- _ => destruct c eqn:?
  end.

Ltac leaf_atom :=
  leaf_cases; test_facts;
  try solve
    [ reflexivity | lia | congruence | discriminate | assumption
    | lazymatch goal with
      | |- _ = ?l ++ _ => is_evar l; unify l (@nil message); reflexivity
      end ].

(** Settles a statement on an explicit summary, following its shape. *)
Ltac leaf_goal :=
  leaf_hyps;
  lazymatch goal with
  | |- _ /\ _ => split; leaf_goal
  | |- _ \/ _ => first [solve [left; leaf_goal] | solve [right; leaf_goal]]
  | |- exists _, _ =>
      leaf_cases; test_facts;
      first [ solve [exfalso; first [lia | congruence]]
            | eexists; leaf_goal ]
  | |- ~ _ => intro; leaf_goal
  | |- forall _, _ => intro; leaf_goal
  | |- _ => leaf_atom
  end.

Ltac leaf :=
  unfold PMMG_SUCCESS, PMMG_LOWFAILURE, PMMG_STRONGFAILURE in *;
  cbn [s_colls s_calls s_checks s_prints s_cleans length map fst snd In
       lookup list_lookup value_of waits_in s_phases] in *;
  leaf_goal.


Section CentralizedPaths.

Variable K : Collaborators.

Lemma centralized_gates (parmesh : PMMG_pParMesh) :
  holds gates summ0 (PMMG_parmmglib_centralized K parmesh).
Proof. paths; path_facts; unfold gates; leaf. Qed.

Lemma centralized_after_remesh (parmesh : PMMG_pParMesh) :
  holds (after_remesh 2) summ0 (PMMG_parmmglib_centralized K parmesh).
Proof. paths; path_facts; unfold after_remesh; leaf. Qed.

Lemma centralized_in_order (parmesh : PMMG_pParMesh) :
  holds in_order summ0 (PMMG_parmmglib_centralized K parmesh).
Proof. paths; reflexivity. Qed.


Lemma centralized_boundary_after_merge (parmesh : PMMG_pParMesh) :
  holds boundary_after_merge summ0 (PMMG_parmmglib_centralized K parmesh).
Proof. paths; path_facts; unfold boundary_after_merge; leaf. Qed.

Lemma centralized_partial_success (parmesh : PMMG_pParMesh) :
  holds partial_unless_crashed summ0 (PMMG_parmmglib_centralized K parmesh).
Proof.
  paths; path_facts; unfold partial_unless_crashed, boundary_failed; leaf.
  all: try (simpl; eapply cleaned_mesh0; [eassumption |];
            rewrite store_mesh0_mesh0; eauto).
Qed.

Lemma centralized_cleaned_at_return (parmesh : PMMG_pParMesh) :
  holds cleaned_at_return summ0 (PMMG_parmmglib_centralized K parmesh).
Proof.
  paths; unfold cleaned_at_return; cbn [s_cleans]; intros Hc;
    try (now destruct Hc);
    match goal with
    | H : Clean.PMMG_CLEAN_AND_RETURN ?p _ = Some _ |- _ =>
        apply clean_spec in H as (_ & Ha & Hs); now exists p
    end.
Qed.

Lemma centralized_local_outcomes (parmesh : PMMG_pParMesh) :
  holds local_outcomes summ0 (PMMG_parmmglib_centralized K parmesh).
Proof.
  paths; path_facts; unfold local_outcomes, boundary_failed; leaf.
Qed.


End CentralizedPaths.

(** ** The distributed entry point, one process at a time *)

Section Shift.

Lemma sm_app_summ0 (x : summary) : sm_app x summ0 = x.
Proof.
  destruct x. unfold sm_app, summ0. simpl.
  now rewrite !app_nil_r, Nat.add_0_r.
Qed.

Lemma note_sm_app (a : action) (x y : summary) :
  note a (sm_app x y) = sm_app x (note a y).
Proof.
  destruct a; unfold note, sm_app; simpl; rewrite ?app_assoc; try reflexivity.
  f_equal. lia.
Qed.

Lemma note_coll_sm_app (op : redop) (s r : Z) (x y : summary) :
  note_coll op s r (sm_app x y) = sm_app x (note_coll op s r y).
Proof. unfold note_coll, sm_app; simpl. now rewrite app_assoc. Qed.

(** A property of the whole summary is a property of its second part. *)
Lemma holds_shift (Q : summary -> status -> Prop) (x : summary) (p : Proc) :
  forall y,
    holds (fun y s => Q (sm_app x y) s) y p <-> holds Q (sm_app x y) p.
Proof.
  induction p as [v pm | | a rest IH | op s k IH]; intros y; split;
    intros H; inversion H; subst.
  - now apply holds_done.
  - now apply holds_done.
  - now apply holds_fault.
  - now apply holds_fault.
  - apply holds_emit. rewrite note_sm_app. now apply IH.
  - apply holds_emit. apply IH. now rewrite <- note_sm_app.
  - apply holds_coll; [assumption |]. intros r.
    rewrite note_coll_sm_app. now apply IH.
  - apply holds_coll; [assumption |]. intros r.
    apply IH. now rewrite <- note_coll_sm_app.
Qed.

Lemma holds_from (Q : summary -> status -> Prop) (x : summary) (p : Proc) :
  holds (fun y s => Q (sm_app x y) s) summ0 p -> holds Q x p.
Proof. intros H. apply holds_shift in H. now rewrite sm_app_summ0 in H. Qed.

Lemma in_analysis_app (x y : summary) :
  in_analysis x -> in_analysis y -> in_analysis (sm_app x y).
Proof.
  intros [Hx Hcx] [Hy Hcy]. unfold in_analysis, sm_app. simpl.
  rewrite forallb_app, Hx, Hy, Hcx, Hcy. now split.
Qed.

Lemma in_analysis_not_called (x : summary) (c : call) :
  in_analysis x -> analysis_call (c, 0) = false ->
  ~ In c (map fst (s_calls x)).
Proof.
  intros [Hx _] Hc Hin. apply in_map_iff in Hin.
  destruct Hin as ([c' r] & <- & Hin).
  rewrite forallb_forall in Hx. specialize (Hx _ Hin).
  unfold analysis_call in *. simpl in *. congruence.
Qed.

Lemma in_analysis_no_call (x : summary) (c : call) (r : Z) :
  in_analysis x -> analysis_call (c, 0) = false -> ~ In (c, r) (s_calls x).
Proof.
  intros Hx Hc Hin. apply (in_analysis_not_called x c Hx Hc).
  apply in_map_iff. now exists (c, r).
Qed.

Lemma in_analysis_keeps_groups (x : summary) :
  in_analysis x ->
  forallb (fun c => negb (releases_groups (fst c))) (s_calls x) = true.
Proof.
  intros [Hx _]. rewrite forallb_forall in *. intros [c r] Hc.
  specialize (Hx _ Hc). unfold analysis_call in Hx. simpl in *.
  now destruct c.
Qed.


Lemma partial_success_prefix (x y : summary) (s : status) :
  in_analysis x -> partial_success y s -> partial_success (sm_app x y) s.
Proof.
  intros Hx H.
  pose proof (in_analysis_no_call x C_hashTetra 0 Hx eq_refl) as Hn1.
  pose proof (in_analysis_no_call x C_bdryBuild (-1) Hx eq_refl) as Hn2.
  pose proof (in_analysis_keeps_groups x Hx) as Hk.
  unfold partial_success, boundary_failed, sm_app in *. simpl.
  rewrite forallb_app, Hk. intros Hb.
  destruct H as (Hv & Hm & (l & Hl) & Hr).
  { destruct Hb as [Hb | Hb]; apply in_app_or in Hb; tauto. }
  split; [exact Hv |]. split; [exact Hm |]. split; [| exact Hr].
  exists (s_prints x ++ l). now rewrite Hl, app_assoc.
Qed.

Lemma cleaned_at_return_prefix (x y : summary) (s : status) :
  in_analysis x -> cleaned_at_return y s -> cleaned_at_return (sm_app x y) s.
Proof.
  intros [_ Hc] H. unfold cleaned_at_return, sm_app in *. simpl.
  now rewrite Hc.
Qed.

Lemma boundary_failed_prefix (x y : summary) :
  in_analysis x -> boundary_failed (sm_app x y) -> boundary_failed y.
Proof.
  intros Hx Hb.
  pose proof (in_analysis_no_call x C_hashTetra 0 Hx eq_refl) as Hn1.
  pose proof (in_analysis_no_call x C_bdryBuild (-1) Hx eq_refl) as Hn2.
  unfold boundary_failed, sm_app in *. simpl in Hb.
  destruct Hb as [Hb | Hb]; apply in_app_or in Hb; tauto.
Qed.

Lemma called_prefix (x y : summary) (c : call) :
  in_analysis x -> analysis_call (c, 0) = false ->
  In c (map fst (s_calls (sm_app x y))) -> In c (map fst (s_calls y)).
Proof.
  intros Hx Hc H. unfold sm_app in H. simpl in H.
  rewrite map_app in H. apply in_app_or in H as [H | H]; [| exact H].
  now destruct (in_analysis_not_called x c Hx Hc).
Qed.


Lemma boundary_local_prefix (x y : summary) (s : status) :
  in_analysis x -> boundary_local y s -> boundary_local (sm_app x y) s.
Proof.
  intros Hx (H1 & H2 & H3 & H4 & H5). unfold boundary_local.
  split; [intros H; apply H1; now apply (called_prefix x y C_bcast_mesh) |].
  split;
    [intros H; apply H2; now apply (called_prefix x y C_distribute_mesh) |].
  split; [intros H; apply H3; now apply (called_prefix x y C_merge_parmesh) |].
  split.
  - intros H. apply H4. now apply (called_prefix x y C_parmesh_Free_Comm).
  - intros H. now apply H5, (boundary_failed_prefix x).
Qed.


End Shift.

Section DistributedPaths.

Variable K : Collaborators.



Lemma distributed_analysis_partial_success (n : nat) : forall k parmesh x,
  in_analysis x ->
  holds partial_success x (distributed_analysis K n k parmesh).
Proof.
  induction n as [| n IH]; intros k parmesh x Hx; apply holds_from;
    simpl distributed_analysis; paths.
  all: try (apply holds_shift, IH, in_analysis_app;
            [exact Hx | split; reflexivity]).
  all: apply partial_success_prefix; [exact Hx |];
    path_facts; unfold partial_success, boundary_failed; leaf.
  all: simpl; rewrite store_mesh0_mesh0; eauto.
Qed.

Lemma distributed_partial_success (parmesh : PMMG_pParMesh) :
  holds partial_success summ0 (PMMG_parmmglib_distributed K parmesh).
Proof.
  paths.
  all: try (apply distributed_analysis_partial_success; split; reflexivity).
  all: path_facts; unfold partial_success, boundary_failed; leaf.
Qed.

Lemma distributed_analysis_cleaned (n : nat) : forall k parmesh x,
  in_analysis x ->
  holds cleaned_at_return x (distributed_analysis K n k parmesh).
Proof.
  induction n as [| n IH]; intros k parmesh x Hx; apply holds_from;
    simpl distributed_analysis; paths.
  all: try (apply holds_shift, IH, in_analysis_app;
            [exact Hx | split; reflexivity]).
  all: apply cleaned_at_return_prefix; [exact Hx |];
    unfold cleaned_at_return; cbn [s_cleans]; intros Hc; now destruct Hc.
Qed.

Lemma distributed_cleaned_at_return (parmesh : PMMG_pParMesh) :
  holds cleaned_at_return summ0 (PMMG_parmmglib_distributed K parmesh).
Proof.
  paths.
  all: try (apply distributed_analysis_cleaned; split; reflexivity).
  all: unfold cleaned_at_return; cbn [s_cleans]; intros Hc; now destruct Hc.
Qed.

Lemma distributed_analysis_boundary_local (n : nat) : forall k parmesh x,
  in_analysis x ->
  holds boundary_local x (distributed_analysis K n k parmesh).
Proof.
  induction n as [| n IH]; intros k parmesh x Hx; apply holds_from;
    simpl distributed_analysis; paths.
  all: try (apply holds_shift, IH, in_analysis_app;
            [exact Hx | split; reflexivity]).
  all: apply boundary_local_prefix; [exact Hx |];
    path_facts; unfold boundary_local, boundary_failed; leaf.
Qed.

Lemma boundary_local_outcomes (sm : summary) (s : status) :
  boundary_local sm s -> local_outcomes sm s.
Proof.
  intros (H1 & H2 & H3 & H4 & H5). unfold local_outcomes.
  assert (Hc : forall c r, In (c, r) (s_calls sm) ->
                 In c (map fst (s_calls sm))).
  { intros c r H. apply in_map_iff. now exists (c, r). }
  split; [intros r H; now destruct (H1 (Hc _ _ H)) |].
  split; [intros H; now destruct (H2 (Hc _ _ H)) |].
  split; [intros r H; now destruct (H2 (Hc _ _ H)) |].
  split; [intros H; now destruct (H3 (Hc _ _ H)) |].
  split; [| exact H5].
  intros [H | H]; [now destruct (H3 H) | now apply H4].
Qed.

Lemma distributed_local_outcomes (parmesh : PMMG_pParMesh) :
  holds local_outcomes summ0 (PMMG_parmmglib_distributed K parmesh).
Proof.
  apply (holds_impl boundary_local); [apply boundary_local_outcomes |].
  paths.
  all: try (apply distributed_analysis_boundary_local; split; reflexivity).
  all: path_facts; unfold boundary_local, boundary_failed; leaf.
Qed.



End DistributedPaths.
(** ** What both entry points reduce *)

Section Reduced.

Lemma holds_and (Q Q' : summary -> status -> Prop) (p : Proc) :
  forall sm, holds Q sm p -> holds Q' sm p ->
             holds (fun sm s => Q sm s /\ Q' sm s) sm p.
Proof.
  induction p as [v pm | | a rest IH | op s k IH]; intros sm H H';
    inversion H; inversion H'; subst.
  - now apply holds_done.
  - now apply holds_fault.
  - apply holds_emit. now apply IH.
  - apply holds_coll; [now split |]. intros r. now apply IH.
Qed.

Lemma gates_reduced (sm : summary) (s : status) :
  gates sm s /\ after_remesh 2 sm s -> reduced 2 sm s.
Proof.
  intros [(G0 & G1 & G2 & G3 & G4 & G5 & G6 & G7 & G8 & G9) Ha].
  unfold reduced.
  split; [exact G1 |]. split; [exact G4 |]. split; [exact G5 |].
  split; [| split; [| split; [| split; [| split; [| exact Ha]]]]];
    [| | | intros op s0 r Hl; now destruct (G3 _ _ _ Hl) |].
  - intros i op s0 r Hi Hl.
    pose proof (lookup_lt_Some _ _ _ Hl) as Hlt.
    assert (E : i = 1%nat \/ i = 2%nat) by lia.
    destruct E as [-> | ->]; [now destruct (G2 _ _ _ Hl) | now destruct (G3 _ _ _ Hl)].
  - intros c Hc Hne. exists 1%nat. split; [lia |].
    intros op s0 r Hl. destruct (G2 _ _ _ Hl) as (_ & Hr & Hf).
    specialize (Hf c Hc Hne). unfold PMMG_SUCCESS in *. lia.
  - intros Hd.
    assert (E : exists s0, s_colls sm !! 1%nat = Some (MPI_MAX, s0, PMMG_SUCCESS))
      by (destruct Hd; auto).
    destruct E as [s0 E]. split; [apply lookup_lt_Some in E; lia |].
    intros i op s1 r Hi Hl. assert (i = 1%nat) as -> by lia. congruence.
  - intros [Hm | Hf]; auto.
Qed.

(** *** The analysis loop of the distributed entry point *)

Lemma called_after_analysis (x y : summary) (c : call) :
  in_analysis x -> analysis_call (c, 0) = false ->
  In c (map fst (s_calls x ++ s_calls y)) -> In c (map fst (s_calls y)).
Proof.
  intros Hx Hc H. rewrite map_app in H. apply in_app_or in H.
  destruct H as [H | H]; [| exact H].
  now destruct (in_analysis_not_called x c Hx Hc).
Qed.

Lemma call_after_analysis (x y : summary) (c : call) (r : Z) :
  in_analysis x -> analysis_call (c, 0) = false ->
  In (c, r) (s_calls x ++ s_calls y) -> In (c, r) (s_calls y).
Proof.
  intros Hx Hc H. apply in_app_or in H. destruct H as [H | H]; [| exact H].
  now destruct (in_analysis_no_call x c r Hx Hc).
Qed.

(** A call that is not of the analysis loop is in the second part. *)
Ltac after_analysis Hx H :=
  match type of H with
  | In ?c _ => apply (called_after_analysis _ _ c Hx eq_refl) in H
  end.

(** A call that is not of the analysis loop is in neither part. *)
Ltac outside_analysis Hx Hy H :=
  exfalso;
  match type of H with
  | In ?c _ =>
      apply (called_after_analysis _ _ c Hx eq_refl) in H;
      exact (in_analysis_not_called _ c Hy eq_refl H)
  end.

Lemma analysis_inv_first (k : nat) (x y : summary) :
  analysis_inv k x -> s_checks y = [] ->
  (forall op s r, (s_colls x ++ s_colls y) !! 0%nat = Some (op, s, r) ->
     op = MPI_MIN /\ s_checks x ++ s_checks y = [s])
  /\ (forall c, In c (s_checks x ++ s_checks y) -> 0 <= c <= 1)
  /\ (exists s r, (s_colls x ++ s_colls y) !! 0%nat = Some (MPI_MIN, s, r)
                  /\ r <> 0).
Proof.
  intros (Hlen & (s0 & r0 & H0 & Hr0 & Hchk & Hs0) & _) Hy.
  rewrite Hy, app_nil_r, Hchk.
  assert (E : (s_colls x ++ s_colls y) !! 0%nat = Some (MPI_MIN, s0, r0))
    by (rewrite lookup_app_l by lia; exact H0).
  split; [| split].
  - intros op s r H. rewrite E in H. now injection H as <- <- <-.
  - intros c [<- | []]. exact Hs0.
  - now exists s0, r0.
Qed.

Lemma reduced_iteration (n k : nat) (x y : summary) (s : status) :
  analysis_inv k x -> (S k < n)%nat -> iteration_part y ->
  reduced n (sm_app x y) s.
Proof.
  intros Hinv Hk (Hy & Hyc & Hcol).
  destruct (analysis_inv_first k x y Hinv Hyc) as (F1 & F2 & F3).
  destruct Hinv as (Hlen & _ & Hmax & Hx & Hfail).
  assert (Hly : (length (s_colls y) <= 1)%nat).
  { destruct Hcol as [-> | (s0 & r0 & -> & _)]; simpl; lia. }
  unfold reduced, after_remesh, sm_app. simpl.
  split; [exact F1 |]. split; [exact F2 |]. split; [intros _; exact F3 |].
  split; [| split; [| split; [| split; [| split]]]].
  - intros i op s0 r Hi Hl. destruct (decide (i < S k)%nat) as [Hlt | Hge].
    + rewrite lookup_app_l in Hl by lia. now destruct (Hmax _ _ _ _ Hi Hl).
    + rewrite lookup_app_r in Hl by lia.
      destruct Hcol as [E | (s1 & r1 & E & _)]; rewrite E in Hl.
      * now rewrite lookup_nil in Hl.
      * destruct (i - length (s_colls x))%nat; simpl in Hl; [| discriminate].
        now injection Hl as <- _ _.
  - intros c Hc Hne. apply in_app_or in Hc. destruct Hc as [Hc | Hc].
    + destruct (Hfail c Hc Hne) as (i & Hi & Hs). exists i. split; [lia |].
      intros op s0 r Hl. rewrite lookup_app_l in Hl by lia. eauto.
    + exists (S k). split; [lia |]. intros op s0 r Hl.
      rewrite lookup_app_r in Hl by lia. rewrite Hlen, Nat.sub_diag in Hl.
      destruct Hcol as [E | (s1 & r1 & E & Hs)]; rewrite E in Hl;
        [discriminate |].
      injection Hl as _ <- _. now apply (Hs c).
  - intros [H | H]; outside_analysis Hx Hy H.
  - intros op s0 r Hl. rewrite lookup_app_r in Hl by lia.
    apply lookup_lt_Some in Hl. lia.
  - intros [H | H]; outside_analysis Hx Hy H.
  - intros c Hc.
    apply (call_after_analysis x y C_parmmglib1 c Hx eq_refl) in Hc.
    now destruct (in_analysis_no_call y C_parmmglib1 c Hy eq_refl).
Qed.

Lemma analysis_inv_step (k : nat) (x y : summary) :
  analysis_inv k x -> iteration_part y ->
  (exists s, s_colls y = [(MPI_MAX, s, PMMG_SUCCESS)]) ->
  analysis_inv (S k) (sm_app x y).
Proof.
  intros Hinv (Hy & Hyc & Hcol) [s E].
  destruct (analysis_inv_first k x y Hinv Hyc) as (F1 & F2 & s0 & r0 & F3 & F4).
  destruct Hinv as (Hlen & _ & Hmax & Hx & Hfail).
  unfold analysis_inv, sm_app. simpl.
  split; [rewrite length_app, Hlen, E; simpl; lia |].
  split; [| split; [| split; [now apply in_analysis_app |]]].
  - exists s0, r0. split; [exact F3 |]. split; [exact F4 |].
    destruct (F1 _ _ _ F3) as [_ Hc]. split; [exact Hc |].
    apply F2. rewrite Hc. now left.
  - intros i op s1 r Hi Hl. destruct (decide (i < S k)%nat) as [Hlt | Hge].
    + rewrite lookup_app_l in Hl by lia. eauto.
    + rewrite lookup_app_r in Hl by lia. rewrite E in Hl.
      destruct (i - length (s_colls x))%nat; simpl in Hl; [| discriminate].
      now injection Hl as <- _ <-.
  - intros c Hc Hne. apply in_app_or in Hc. destruct Hc as [Hc | Hc].
    + destruct (Hfail c Hc Hne) as (i & Hi & Hs). exists i. split; [lia |].
      intros op s1 r Hl. rewrite lookup_app_l in Hl by lia. eauto.
    + exists (S k). split; [lia |]. intros op s1 r Hl.
      rewrite lookup_app_r in Hl by lia. rewrite Hlen, Nat.sub_diag in Hl.
      destruct Hcol as [E' | (s2 & r2 & E' & Hs)]; rewrite E' in Hl;
        [discriminate |].
      injection Hl as _ <- _. now apply (Hs c).
Qed.

Lemma reduced_remesh (k : nat) (x y : summary) (s : status) :
  analysis_inv k x -> remesh_part y s -> reduced (S k) (sm_app x y) s.
Proof.
  intros Hinv (Hyc & Hcalls & Hone & Hcol0 & Hfree & Hafter).
  assert (Hcol : forall i op s r, s_colls y !! i = Some (op, s, r) ->
            i = O /\ op = MPI_MAX /\ In (C_parmmglib1, s) (s_calls y)
            /\ forall c, In (C_parmmglib1, c) (s_calls y) -> c = s).
  { intros i op s0 r Hl. pose proof (lookup_lt_Some _ _ _ Hl) as Hlt.
    assert (i = O) as -> by lia. split; [reflexivity | eauto]. }
  destruct (analysis_inv_first k x y Hinv Hyc) as (F1 & F2 & F3).
  destruct Hinv as (Hlen & _ & Hmax & Hx & Hfail).
  assert (Hn : forall i, (s_colls x ++ s_colls y) !! (S k + i)%nat
                         = s_colls y !! i).
  { intros i. rewrite lookup_app_r by lia. f_equal. lia. }
  assert (Hnot : forall c, c = C_preprocessMesh \/ c = C_distribute_mesh
                           \/ c = C_merge_parmesh ->
                 ~ In c (map fst (s_calls y))).
  { intros c Hc H. apply in_map_iff in H. destruct H as ([c' r] & <- & H).
    destruct (Hcalls _ _ H) as (H1 & H2 & H3). simpl in Hc. tauto. }
  unfold reduced, after_remesh, sm_app. simpl.
  split; [exact F1 |]. split; [exact F2 |]. split; [intros _; exact F3 |].
  split; [| split; [| split; [| split; [| split]]]].
  - intros i op s0 r Hi Hl. destruct (decide (i < S k)%nat) as [Hlt | Hge].
    + rewrite lookup_app_l in Hl by lia. now destruct (Hmax _ _ _ _ Hi Hl).
    + rewrite lookup_app_r in Hl by lia. now destruct (Hcol _ _ _ _ Hl).
  - intros c Hc Hne. apply in_app_or in Hc. destruct Hc as [Hc | Hc].
    + destruct (Hfail c Hc Hne) as (i & Hi & Hs). exists i. split; [lia |].
      intros op s0 r Hl. rewrite lookup_app_l in Hl by lia. eauto.
    + now destruct (Hcalls _ _ Hc) as [[] _].
  - intros _. split; [rewrite length_app; lia |].
    intros i op s0 r Hi Hl. rewrite lookup_app_l in Hl by lia.
    now destruct (Hmax _ _ _ _ (proj1 Hi) Hl).
  - intros op s0 r Hl. replace (S k) with (S k + 0)%nat in Hl by lia.
    rewrite Hn in Hl. destruct (Hcol _ _ _ _ Hl) as (_ & _ & Hin & Huniq).
    split; [apply in_or_app; now right |].
    intros c Hc. apply Huniq.
    exact (call_after_analysis x y C_parmmglib1 c Hx eq_refl Hc).
  - intros [H | H].
    + after_analysis Hx H. destruct (Hnot C_merge_parmesh); tauto.
    + after_analysis Hx H.
      destruct (Hfree H) as (s0 & r & Hl & Hr). exists s0, r.
      split; [| exact Hr].
      replace (S k) with (S k + 0)%nat by lia. now rewrite Hn.
  - intros c Hc.
    apply (call_after_analysis x y C_parmmglib1 c Hx eq_refl) in Hc.
    rewrite length_app, Hlen.
    destruct (Hafter c Hc) as [[Hl Hw] | (Hl & Hw & r & Hr & Hs & Hlow)].
    + left. split; [lia | exact Hw].
    + right. split; [lia |]. split; [exact Hw |]. exists r.
      split; [replace (S k) with (S k + 0)%nat by lia; now rewrite Hn |].
      split; [| exact Hlow].
      intros E. destruct (Hs E) as (Hv & Hm & Hf).
      split; [exact Hv |].
      split; intros H; after_analysis Hx H; tauto.
Qed.

End Reduced.

Section DistributedReduced.

Variable K : Collaborators.

Lemma distributed_analysis_reduced (n : nat) : forall k parmesh x,
  analysis_inv k x ->
  holds (reduced (S (k + n))) x (distributed_analysis K n k parmesh).
Proof.
  induction n as [| n IH]; intros k parmesh x Hx; apply holds_from;
    simpl distributed_analysis; paths.
  all: try (rewrite Nat.add_0_r; apply reduced_remesh; [exact Hx |]).
  all: try (apply holds_shift;
            replace (S (k + S n)) with (S (S k + n)) by lia; apply IH).
  all: path_facts.
  all: try (apply reduced_iteration with k; [exact Hx | lia |]).
  all: try (apply analysis_inv_step; [exact Hx | |]).
  all: unfold remesh_part, iteration_part, in_analysis, after_remesh; leaf.
Qed.

Lemma check_groups_length (gs gs' : list PMMG_pGrp) (r : Z)
    (l : list message) :
  InputData.check_groups gs = Some (r, l, gs') -> length gs' = length gs.
Proof.
  revert gs' r l. induction gs as [| g gs IH]; intros gs' r l H; simpl in H.
  - now injection H as _ _ <-.
  - destruct (InputData.check_grp g) as [[d | g' l'] |]; try discriminate.
    + now injection H as _ _ <-.
    + destruct (InputData.check_groups gs) as [[[r0 l0] gs0] |];
        try discriminate.
      injection H as _ _ <-. simpl. f_equal. eauto.
Qed.

Lemma check_inputData_length (parmesh parmesh' : PMMG_pParMesh) (r : Z)
    (l : list message) :
  InputData.PMMG_check_inputData parmesh = Some (r, l, parmesh') ->
  length (PMMG_ParMesh.listgrp parmesh')
  = length (PMMG_ParMesh.listgrp parmesh).
Proof.
  unfold InputData.PMMG_check_inputData.
  destruct (InputData.check_groups (PMMG_ParMesh.listgrp parmesh))
    as [[[r0 l0] gs] |] eqn:E; [| discriminate].
  intros [= _ _ <-]. simpl. eapply check_groups_length; eauto.
Qed.

(** Before the analysis loop nothing is called. *)
Lemma reduced_start (n : nat) (sm : summary) (s : status) :
  s_calls sm = [] ->
  (s_colls sm = []
   \/ exists c r, s_colls sm = [(MPI_MIN, c, r)] /\ s_checks sm = [c]) ->
  (forall c, In c (s_checks sm) -> 0 <= c <= 1) ->
  reduced (S n) sm s.
Proof.
  intros Hcalls Hcolls Hchk. unfold reduced, after_remesh. rewrite Hcalls.
  simpl.
  assert (Hone : forall i x, (1 <= i)%nat -> s_colls sm !! i = Some x -> False).
  { intros i x Hi Hl. apply lookup_lt_Some in Hl.
    destruct Hcolls as [E | (c & r & E & _)]; rewrite E in Hl; simpl in Hl;
      lia. }
  split; [| split; [exact Hchk | split; [congruence |]]].
  - intros op s0 r Hl.
    destruct Hcolls as [E | (c & r' & E & Ec)]; rewrite E in Hl;
      [discriminate |].
    now injection Hl as <- <- <-.
  - split; [intros i op s0 r Hi Hl; now destruct (Hone _ _ Hi Hl) |].
    split; [tauto |]. split; [tauto |].
    split; [| split; tauto].
    intros op s0 r Hl. destruct (Hone (S n) _ ltac:(lia) Hl).
Qed.

Lemma distributed_reduced (parmesh : PMMG_pParMesh) :
  holds (reduced (S (length (PMMG_ParMesh.listgrp parmesh)))) summ0
    (PMMG_parmmglib_distributed K parmesh).
Proof.
  paths.
  all: try match goal with
       | H : InputData.PMMG_check_inputData _ = Some _ |- _ =>
           rewrite <- (check_inputData_length _ _ _ _ H)
       end.
  all: try (apply (distributed_analysis_reduced _ O)).
  all: path_facts.
  all: try (apply reduced_start; [reflexivity | | ]).
  all: try solve [leaf].
  unfold analysis_inv, in_analysis. simpl.
  split; [reflexivity |]. split; [exists z, recv; tauto |].
  split; [| split; [tauto | intros c []]].
  intros [| i] op s r Hi Hl; [lia | discriminate].
Qed.

End DistributedReduced.

Lemma centralized_reduced (K : Collaborators) (parmesh : PMMG_pParMesh) :
  holds (reduced 2) summ0 (PMMG_parmmglib_centralized K parmesh).
Proof.
  apply (holds_impl _ _ _ _ gates_reduced), holds_and;
    [apply centralized_gates | apply centralized_after_remesh].
Qed.
(** ** Runs of the entry points *)

Section Runs.

Lemma holds_run (Q : summary -> status -> Prop)
    (entry : Collaborators -> PMMG_pParMesh -> Proc) :
  (forall K parmesh, holds Q summ0 (entry K parmesh)) ->
  forall fuel procs st,
    In st (run fuel (start entry procs)) -> Q (summ (trace st)) (stat st).
Proof.
  intros H fuel procs st Hin.
  apply (always_run (fun st => Q (summ (trace st)) (stat st)) entry)
    with (fuel := fuel) (procs := procs); [| exact Hin].
  intros K parmesh. apply holds_entry, H.
Qed.

Lemma lockstep_history (sts : list pstate) (st st' : pstate) :
  lockstep sts -> In st sts -> In st' sts ->
  history (trace st) = history (trace st').
Proof.
  intros (h & Hh & _) H H'. rewrite Forall_forall in Hh.
  rewrite (Hh st), (Hh st'); auto; now apply list_elem_of_In.
Qed.

Lemma lockstep_worse (sts : list pstate) (st : pstate) (n : nat)
    (c : redop * Z * Z) :
  lockstep sts -> In st sts -> colls (trace st) !! n = Some c ->
  worse_or_equal c.
Proof.
  intros (h & _ & Hw & _) H Hn. rewrite Forall_forall in Hw.
  specialize (Hw st (proj2 (list_elem_of_In _ _) H)).
  rewrite Forall_forall in Hw. apply Hw.
  apply list_elem_of_lookup. now exists n.
Qed.

Lemma lockstep_same (sts : list pstate) (st st' : pstate) (n : nat)
    (op : redop) (s r : Z) :
  lockstep sts -> In st sts -> In st' sts ->
  colls (trace st) !! n = Some (op, s, r) ->
  exists s', colls (trace st') !! n = Some (op, s', r)
             /\ worse_or_equal (op, s', r).
Proof.
  intros Hl H H' Hn.
  pose proof (lockstep_history _ _ _ Hl H H') as Hh. unfold history in Hh.
  assert (E : (fun c : redop * Z * Z => (fst (fst c), snd c))
                <$> colls (trace st') !! n = Some (op, r)).
  { rewrite <- list_lookup_fmap. change (@fmap list _) with (@map).
    rewrite <- Hh. change (@map) with (@fmap list _).
    rewrite list_lookup_fmap, Hn. reflexivity. }
  destruct (colls (trace st') !! n) as [[[op' s'] r'] |] eqn:E';
    [| discriminate].
  simpl in E. injection E as -> ->. exists s'. split; [reflexivity |].
  eapply lockstep_worse; eauto.
Qed.

Lemma lockstep_attained (sts : list pstate) (st : pstate) (n : nat)
    (op : redop) (s r : Z) :
  lockstep sts -> In st sts ->
  colls (trace st) !! n = Some (op, s, r) ->
  exists p, In p sts /\ colls (trace p) !! n = Some (op, r, r).
Proof.
  intros (h & Hh & _ & Hat) H Hn. apply (Hat n op r).
  rewrite Forall_forall in Hh.
  rewrite <- (Hh st) by now apply list_elem_of_In.
  unfold history. change (@map) with (@fmap list _).
  rewrite list_lookup_fmap, Hn. reflexivity.
Qed.

Lemma lockstep_length (sts : list pstate) (st st' : pstate) :
  lockstep sts -> In st sts -> In st' sts ->
  length (colls (trace st)) = length (colls (trace st')).
Proof.
  intros Hl H H'. pose proof (lockstep_history _ _ _ Hl H H') as Hh.
  unfold history in Hh. apply (f_equal (@length _)) in Hh.
  now rewrite !length_map in Hh.
Qed.

Lemma lockstep_centralized (fuel : nat) (procs : list process) :
  lockstep (run_centralized fuel procs).
Proof. apply lockstep_run, lockstep_start. Qed.

Lemma gates_run (fuel : nat) (procs : list process) (st : pstate) :
  In st (run_centralized fuel procs) -> gates (summ (trace st)) (stat st).
Proof. apply (holds_run gates), centralized_gates. Qed.

Lemma lockstep_entry (e : entry_point) (fuel : nat) (procs : list process) :
  lockstep (run_entry e fuel procs).
Proof. destruct e; apply lockstep_run, lockstep_start. Qed.

Lemma reduced_run (e : entry_point) (fuel : nat) (procs : list process)
    (n : nat) (st : pstate) :
  (forall p, In p procs -> remesh_index e (snd p) = n) ->
  In st (run_entry e fuel procs) -> reduced n (summ (trace st)) (stat st).
Proof.
  intros Hn. destruct e; unfold run_entry, run_centralized, run_distributed;
    apply (always_run_in (fun st => reduced n (summ (trace st)) (stat st)));
    intros p Hp; rewrite <- (Hn p Hp); apply holds_entry.
  - apply centralized_reduced.
  - apply distributed_reduced.
Qed.

Lemma entry_holds (Q : summary -> status -> Prop) :
  (forall K parmesh, holds Q summ0 (PMMG_parmmglib_centralized K parmesh)) ->
  (forall K parmesh, holds Q summ0 (PMMG_parmmglib_distributed K parmesh)) ->
  forall e fuel procs st,
    In st (run_entry e fuel procs) -> Q (summ (trace st)) (stat st).
Proof.
  intros Hc Hd [] fuel procs st H.
  - exact (holds_run Q _ Hc fuel procs st H).
  - exact (holds_run Q _ Hd fuel procs st H).
Qed.

Lemma run_entry_quiescent (e : entry_point) (fuel : nat)
    (procs : list process) (st : pstate) :
  In st (run_entry e fuel procs) ->
  (length (colls (trace st)) < fuel)%nat ->
  round (run_entry e fuel procs) = None.
Proof. destruct e; apply run_quiescent. Qed.

Lemma called_calls (c : call) (tr : list event) :
  In c (called tr) <-> exists r, In (c, r) (calls tr).
Proof.
  unfold called. rewrite in_map_iff. split.
  - intros ([c' r] & <- & H). now exists r.
  - intros (r & H). now exists (c, r).
Qed.

(** C1 (as amended): in every run of an entry point (in the distributed
    one, with the same number of groups on every process), the outcome of
    the input check (by a minimum), of each preprocessing and of the
    remeshing (by a maximum) is aggregated over all the processes before
    the driver decides: all processes complete the same reductions with
    the same results, a result is as bad as every contribution and is the
    contribution of some process, and on these results no process calls
    anything when the input check failed on a peer, distributes the
    partitions or remeshes when a preprocessing failed on a peer, or
    enters the merge or the boundary reconstruction when the remeshing
    failed strongly on a peer (the codes of the remeshing being at most
    [PMMG_STRONGFAILURE]).  The outcomes of [PMMG_bcast_mesh],
    [PMMG_distribute_mesh], [PMMG_merge_parmesh] and of the boundary
    reconstruction are not reduced, each process decides on its own:
    after a [PMMG_bcast_mesh] other than 1 it has returned
    [PMMG_LOWFAILURE] without preprocessing; after a
    [PMMG_distribute_mesh] of 0 it does not remesh, waits in no
    reduction and returns nothing but [PMMG_LOWFAILURE], after another
    value it remeshes; after a [PMMG_merge_parmesh] of 0 it neither
    releases the communicators nor reconstructs the boundary and returns
    nothing but [PMMG_STRONGFAILURE]; once the merge or the release of
    the communicators is called it waits in no reduction; after a failed
    boundary reconstruction it returns nothing but [PMMG_LOWFAILURE]. *)
Theorem reductions_decide (e : entry_point) (fuel : nat)
    (procs : list process) (n : nat) (st st' : pstate) :
  (forall p, In p procs -> remesh_index e (snd p) = n) ->
  In st (run_entry e fuel procs) ->
  In st' (run_entry e fuel procs) ->
  (forall p c, In p (run_entry e fuel procs) ->
     In (C_parmmglib1, c) (calls (trace p)) -> c <= PMMG_STRONGFAILURE) ->
  history (trace st) = history (trace st')
  /\ (forall i op s r, colls (trace st) !! i = Some (op, s, r) ->
        worse_or_equal (op, s, r)
        /\ exists p, In p (run_entry e fuel procs)
                     /\ colls (trace p) !! i = Some (op, r, r))
  /\ reduced n (summ (trace st)) (stat st)
  /\ (In 0 (checks (trace st)) -> calls (trace st') = [])
  /\ (forall c, In (C_preprocessMesh, c) (calls (trace st)) ->
        c <> PMMG_SUCCESS ->
        ~ In C_distribute_mesh (called (trace st'))
        /\ ~ In C_parmmglib1 (called (trace st')))
  /\ (In (C_parmmglib1, PMMG_STRONGFAILURE) (calls (trace st)) ->
        ~ In C_merge_parmesh (called (trace st'))
        /\ ~ In C_parmesh_Free_Comm (called (trace st')))
  /\ local_outcomes (summ (trace st)) (stat st).
Proof.
  intros Hn H H' Hcodes.
  pose proof (entry_holds local_outcomes centralized_local_outcomes
                distributed_local_outcomes e fuel procs st H) as Hlocal.
  pose proof (lockstep_entry e fuel procs) as Hl.
  pose proof (reduced_run _ _ _ _ _ Hn H) as G.
  pose proof (reduced_run _ _ _ _ _ Hn H') as G'.
  split; [eapply lockstep_history; eauto |].
  split; [| split; [exact G |]].
  { intros i op s r Hi. split.
    - exact (lockstep_worse _ st i _ Hl H Hi).
    - exact (lockstep_attained _ st i op s r Hl H Hi). }
  destruct G as (G1 & _ & _ & G4 & G5 & _ & G7 & _).
  destruct G' as (_ & _ & G3' & _ & _ & G6' & _ & G8' & _).
  unfold called. simpl in *. split; [| split; [| split; [| exact Hlocal]]].
  - intros Hc. destruct (calls (trace st')) as [| x l] eqn:E; [reflexivity |].
    destruct G3' as (s' & r & Hr & Hne); [discriminate |].
    destruct (lockstep_same _ _ _ _ _ _ _ Hl H' H Hr) as (s & Hs & Hw).
    destruct (G1 _ _ _ Hs) as [_ Hchk]. rewrite Hchk in Hc.
    destruct Hc as [-> | []]. simpl in Hw.
    destruct (lockstep_attained _ _ _ _ _ _ Hl H Hs) as (p & Hp & Hpr).
    destruct (reduced_run _ _ _ _ _ Hn Hp) as (P1 & P2 & _). simpl in *.
    destruct (P1 _ _ _ Hpr) as [_ Hpc].
    specialize (P2 r). rewrite Hpc in P2. simpl in P2.
    assert (0 <= r <= 1) by auto. lia.
  - intros c Hc Hne. destruct (G5 c Hc Hne) as (i & Hi & Hsend).
    assert (Hno : In C_distribute_mesh (map fst (calls (trace st')))
                  \/ In C_parmmglib1 (map fst (calls (trace st'))) -> False).
    { intros Hd. destruct (G6' Hd) as [Hlen Hok].
      destruct (lookup_lt_is_Some_2 (colls (trace st')) i)
        as [[[op' s'] r] Hl']; [lia |].
      destruct (lockstep_same _ _ _ _ _ _ _ Hl H' H Hl') as (s & Hs & Hw).
      pose proof (Hok _ _ _ _ Hi Hl') as Hr.
      pose proof (G4 _ _ _ _ (proj1 Hi) Hs) as Hop.
      specialize (Hsend _ _ _ Hs). subst op' r. simpl in Hw.
      unfold PMMG_SUCCESS in *. lia. }
    tauto.
  - intros Hc.
    assert (Hno : In C_merge_parmesh (map fst (calls (trace st')))
                  \/ In C_parmesh_Free_Comm (map fst (calls (trace st')))
                  -> False).
    { intros Hm. destruct (G8' Hm) as (s' & r & Hs' & Hne).
      destruct (lockstep_same _ _ _ _ _ _ _ Hl H' H Hs') as (s & Hs & Hw).
      destruct (G7 _ _ _ Hs) as (_ & Huniq).
      rewrite <- (Huniq _ Hc) in Hw, Hs. simpl in Hw.
      destruct (lockstep_attained _ _ _ _ _ _ Hl H Hs) as (p & Hp & Hpr).
      destruct (reduced_run _ _ _ _ _ Hn Hp)
        as (_ & _ & _ & _ & _ & _ & P7 & _).
      simpl in P7. destruct (P7 _ _ _ Hpr) as (Hin & _).
      specialize (Hcodes p r Hp Hin). lia. }
    tauto.
Qed.

(** C2 (as amended): in a run of the centralized entry point, or of the
    distributed one with the same number of groups on every process,
    with fuel for its reductions, in which every process has returned
    from [PMMG_parmmglib1]: if one process returned [PMMG_STRONGFAILURE]
    from it and the others [PMMG_SUCCESS] (or [PMMG_STRONGFAILURE]),
    every process returns [PMMG_STRONGFAILURE] from the entry point and
    none enters the merge or the boundary reconstruction; and if one
    process returned [PMMG_LOWFAILURE] from it, no process is left waiting
    and every value returned is [PMMG_LOWFAILURE] at least. *)
Theorem remesh_failure_shared (e : entry_point) (fuel : nat)
    (procs : list process) (n : nat) :
  (forall p, In p procs -> remesh_index e (snd p) = n) ->
  (S n <= fuel)%nat ->
  (forall st, In st (run_entry e fuel procs) ->
     In C_parmmglib1 (called (trace st))) ->
  ((exists st, In st (run_entry e fuel procs)
      /\ In (C_parmmglib1, PMMG_STRONGFAILURE) (calls (trace st))) ->
   (forall st c, In st (run_entry e fuel procs) ->
      In (C_parmmglib1, c) (calls (trace st)) ->
      c = PMMG_SUCCESS \/ c = PMMG_STRONGFAILURE) ->
   forall st, In st (run_entry e fuel procs) ->
     returned st = Some PMMG_STRONGFAILURE
     /\ ~ In C_merge_parmesh (called (trace st))
     /\ ~ In C_parmesh_Free_Comm (called (trace st)))
  /\ ((exists st, In st (run_entry e fuel procs)
         /\ In (C_parmmglib1, PMMG_LOWFAILURE) (calls (trace st))) ->
      forall st, In st (run_entry e fuel procs) ->
        is_waiting st = false
        /\ forall v, returned st = Some v -> PMMG_LOWFAILURE <= v).
Proof.
  intros Hn Hfuel Hall.
  pose proof (lockstep_entry e fuel procs) as Hl.
  assert (Hafter : forall st, In st (run_entry e fuel procs) ->
            after_remesh n (summ (trace st)) (stat st)).
  { intros st Hst. apply (reduced_run _ _ _ _ _ Hn Hst). }
  (* every process is past the reduction of the remeshing *)
  assert (Hpast : forall st, In st (run_entry e fuel procs) ->
            forall c, In (C_parmmglib1, c) (calls (trace st)) ->
              waits_in (stat st) = None
              /\ exists r, colls (trace st) !! n = Some (MPI_MAX, c, r)
                 /\ (r = PMMG_STRONGFAILURE ->
                       value_of (stat st) = Some PMMG_STRONGFAILURE
                       /\ ~ In C_merge_parmesh (called (trace st))
                       /\ ~ In C_parmesh_Free_Comm (called (trace st)))
                 /\ (PMMG_LOWFAILURE <= r ->
                       forall v, value_of (stat st) = Some v ->
                         PMMG_LOWFAILURE <= v)).
  { intros st Hst c Hc.
    destruct (Hafter _ Hst c Hc) as [[Hlen Hw] | (_ & Hw & Hr)];
      [exfalso | now split].
    simpl in Hlen.
    assert (Hq : round (run_entry e fuel procs) = None).
    { apply (run_entry_quiescent _ fuel procs st Hst). lia. }
    apply (round_all_waiting MPI_MAX) in Hq; [exact Hq | |].
    - intros E. rewrite E in Hst. destruct Hst.
    - apply Forall_forall. intros x Hx. apply list_elem_of_In in Hx.
      destruct (proj1 (called_calls _ _) (Hall x Hx)) as (cx & Hcx).
      pose proof (lockstep_length _ _ _ Hl Hst Hx) as Hlx.
      destruct (Hafter _ Hx cx Hcx)
        as [[_ Hwx] | (Hlen' & _)]; [| simpl in Hlen'; lia].
      unfold waiting_on. destruct (stat x); try discriminate.
      simpl in Hwx. injection Hwx as -> _. reflexivity. }
  split.
  - intros (st1 & Hst1 & Hc1) Hcodes st Hst.
    destruct (proj1 (called_calls _ _) (Hall st Hst)) as (c & Hc).
    destruct (Hpast st Hst c Hc) as (_ & r & Hr & Hstrong & _).
    destruct (Hpast st1 Hst1 _ Hc1) as (_ & r1 & Hr1 & _).
    destruct (lockstep_same _ _ _ _ _ _ _ Hl Hst1 Hst Hr1) as (s' & Hs' & _).
    rewrite Hr in Hs'. injection Hs' as <- <-.
    pose proof (lockstep_worse _ _ _ _ Hl Hst1 Hr1) as Hw. simpl in Hw.
    destruct (lockstep_attained _ _ _ _ _ _ Hl Hst1 Hr1) as (p & Hp & Hpr).
    destruct (reduced_run _ _ _ _ _ Hn Hp)
      as (_ & _ & _ & _ & _ & _ & P7 & _).
    simpl in P7. destruct (P7 _ _ _ Hpr) as (Hin & _).
    assert (E : r = PMMG_STRONGFAILURE).
    { destruct (Hcodes p r Hp Hin) as [-> | ->];
        [unfold PMMG_SUCCESS, PMMG_STRONGFAILURE in *; lia | reflexivity]. }
    destruct (Hstrong E) as [Hv Hm]. split; [| exact Hm].
    unfold returned. destruct (stat st); simpl in *; congruence.
  - intros (st1 & Hst1 & Hc1) st Hst.
    destruct (proj1 (called_calls _ _) (Hall st Hst)) as (c & Hc).
    destruct (Hpast st Hst c Hc) as (Hw & r & Hr & _ & Hlow).
    destruct (Hpast st1 Hst1 _ Hc1) as (_ & r1 & Hr1 & _).
    destruct (lockstep_same _ _ _ _ _ _ _ Hl Hst1 Hst Hr1) as (s' & Hs' & _).
    rewrite Hr in Hs'. injection Hs' as <- <-.
    pose proof (lockstep_worse _ _ _ _ Hl Hst1 Hr1) as Hwo. simpl in Hwo.
    split.
    + unfold is_waiting. destruct (stat st); simpl in *; congruence.
    + intros v Hv. apply (Hlow Hwo). unfold returned in Hv.
      destruct (stat st); simpl in *; congruence.
Qed.

Lemma either_run (Q : summary -> status -> Prop) :
  (forall K parmesh, holds Q summ0 (PMMG_parmmglib_centralized K parmesh)) ->
  (forall K parmesh, holds Q summ0 (PMMG_parmmglib_distributed K parmesh)) ->
  forall fuel procs st,
    In st (run_centralized fuel procs) \/ In st (run_distributed fuel procs) ->
    Q (summ (trace st)) (stat st).
Proof.
  intros Hc Hd fuel procs st [H | H].
  - exact (holds_run Q _ Hc fuel procs st H).
  - exact (holds_run Q _ Hd fuel procs st H).
Qed.

Lemma no_release_called (tr : list event) :
  forallb (fun c => negb (releases_groups (fst c))) (calls tr) = true ->
  forall c, In c (called tr) -> releases_groups c = false.
Proof.
  intros H c Hc. apply in_map_iff in Hc. destruct Hc as ([c' r] & <- & Hc).
  rewrite forallb_forall in H. specialize (H _ Hc). simpl in *.
  now apply negb_true_iff in H.
Qed.

Lemma partial_success_unless_crashed (sm : summary) (s : status) :
  partial_success sm s -> partial_unless_crashed sm s.
Proof.
  intros H Hb. destruct (H Hb) as (Hv & Hm & Hp & Hr).
  split; [now destruct s |]. split; [exact Hp |]. split; [exact Hr |].
  now intros _.
Qed.

(** C5: in either entry point, if the boundary reconstruction fails
    ([MMG3D_hashTetra] returns 0 or [MMG3D_bdryBuild] returns -1; in the
    centralized entry point this is after a merge that succeeded), the
    process prints the diagnostic, released no group, waits in no
    reduction and returns nothing but [PMMG_LOWFAILURE], which is not
    [PMMG_STRONGFAILURE]; it returns [PMMG_LOWFAILURE] with the mesh of
    its first group still there, unless, in the centralized entry point,
    where the return goes through [PMMG_CLEAN_AND_RETURN], it crashed in
    the macro (on a group with fewer than [nsols] solutions in its
    array). *)
Theorem boundary_failure_is_partial (fuel : nat) (procs : list process)
    (st : pstate) :
  In st (run_centralized fuel procs) \/ In st (run_distributed fuel procs) ->
  In (C_hashTetra, 0) (calls (trace st))
  \/ In (C_bdryBuild, -1) (calls (trace st)) ->
  PMMG_LOWFAILURE <> PMMG_STRONGFAILURE
  /\ is_waiting st = false
  /\ (forall v, returned st = Some v -> v = PMMG_LOWFAILURE)
  /\ (exists l, prints (trace st) = l ++ [Msg_no_boundary])
  /\ (forall c, In c (called (trace st)) -> releases_groups c = false)
  /\ (In st (run_centralized fuel procs) ->
        exists m, In (C_merge_parmesh, m) (calls (trace st)) /\ m <> 0)
  /\ ((In st (run_centralized fuel procs) -> stat st <> Crashed) ->
        returned st = Some PMMG_LOWFAILURE
        /\ exists v parmesh mesh,
             stat st = Returned v parmesh /\ mesh0 parmesh = Some mesh).
Proof.
  intros Hrun Hfail.
  assert (H : partial_unless_crashed (summ (trace st)) (stat st)
              /\ ((In st (run_centralized fuel procs) -> stat st <> Crashed)
                  -> stat st <> Crashed)).
  { destruct Hrun as [Hc | Hd].
    - split; [| now auto].
      exact (holds_run partial_unless_crashed _ centralized_partial_success
               fuel procs st Hc).
    - pose proof (holds_run partial_success _ distributed_partial_success
                    fuel procs st Hd) as Hp.
      split; [now apply partial_success_unless_crashed |].
      intros _ E. destruct (Hp Hfail) as (Hv & _). rewrite E in Hv.
      discriminate Hv. }
  destruct H as [H Hnc]. destruct (H Hfail) as (Hw & Hp & Hr & Hret).
  simpl in *.
  split; [discriminate |].
  split; [unfold is_waiting; now destruct (stat st) |].
  split.
  { intros v Hv. unfold returned in Hv.
    destruct (stat st) as [v0 pm | |] eqn:E; try discriminate Hv.
    destruct Hret as [Hv0 _]; [discriminate |]. simpl in Hv0. congruence. }
  split; [exact Hp |]. split; [now apply no_release_called |].
  split.
  - intros Hc.
    apply (holds_run boundary_after_merge _
             centralized_boundary_after_merge fuel procs st Hc).
    simpl. destruct Hfail as [Hf | Hf]; [left | right]; apply in_map_iff;
      eexists; (split; [| exact Hf]); reflexivity.
  - intros Hn. destruct (Hret (Hnc Hn)) as [Hv Hm].
    split; [unfold returned; destruct (stat st); simpl in *; congruence |].
    unfold mesh0_valid in Hm. destruct (stat st) as [v pm | |]; try tauto.
    destruct Hm as [mesh Hmesh]. now exists v, pm, mesh.
Qed.

(** C6 (as amended): in every run of the centralized entry point, each
    process goes through the phases in the order distribution, remeshing,
    merge, boundary reconstruction, skipping none; it enters the
    distribution only when the reduced result of the input check is known
    and non-zero, the remeshing only when moreover the reduced outcome of
    the preprocessing is known and is [PMMG_SUCCESS], and the merge only
    when the reduced outcome of the remeshing is known and is not
    [PMMG_STRONGFAILURE]; a reduced value known to one process is the one
    every process of the run has got from the same reduction, and it is
    as bad as the contribution of each.  There are three reductions at
    most, the third of the outcome of [PMMG_parmmglib1], and all three
    are done when the merge is called: the remeshing is entered on the
    process's own outcome of [PMMG_distribute_mesh] (not after 0, and
    after every other value) and the boundary reconstruction is not
    entered after the process's own [PMMG_merge_parmesh] returned 0. *)
Theorem phases_in_order (fuel : nat) (procs : list process) (st : pstate) :
  In st (run_centralized fuel procs) ->
  starts (phases (trace st)) [Distribution; Remeshing; Merging; Boundary]
  = true
  /\ (calls (trace st) <> [] ->
        exists s r, colls (trace st) !! 0%nat = Some (MPI_MIN, s, r)
                    /\ r <> 0)
  /\ (In C_parmmglib1 (called (trace st)) ->
        exists s, colls (trace st) !! 1%nat = Some (MPI_MAX, s, PMMG_SUCCESS))
  /\ (In C_merge_parmesh (called (trace st)) ->
        exists s r, colls (trace st) !! 2%nat = Some (MPI_MAX, s, r)
                    /\ r <> PMMG_STRONGFAILURE)
  /\ (forall st' n op s r,
        In st' (run_centralized fuel procs) ->
        colls (trace st) !! n = Some (op, s, r) ->
        exists s', colls (trace st') !! n = Some (op, s', r)
                   /\ worse_or_equal (op, s', r))
  /\ (length (colls (trace st)) <= 3)%nat
  /\ (forall op s r, colls (trace st) !! 2%nat = Some (op, s, r) ->
        In (C_parmmglib1, s) (calls (trace st)))
  /\ (In C_merge_parmesh (called (trace st)) ->
        length (colls (trace st)) = 3%nat /\ is_waiting st = false)
  /\ (In (C_distribute_mesh, 0) (calls (trace st)) ->
        ~ In C_parmmglib1 (called (trace st)))
  /\ (forall r, In (C_distribute_mesh, r) (calls (trace st)) -> r <> 0 ->
        In C_parmmglib1 (called (trace st)))
  /\ (In (C_merge_parmesh, 0) (calls (trace st)) ->
        ~ In C_parmesh_Free_Comm (called (trace st))
        /\ ~ In C_hashTetra (called (trace st))
        /\ ~ In C_bdryBuild (called (trace st))).
Proof.
  intros H.
  pose proof (holds_run in_order _ centralized_in_order fuel procs st H) as Ho.
  pose proof (holds_run local_outcomes _ centralized_local_outcomes
                fuel procs st H) as (_ & L2 & L3 & L4 & L5 & _).
  destruct (gates_run _ _ _ H)
    as (G0 & _ & _ & G3 & _ & G5 & G6 & _ & G8 & _).
  simpl in *.
  split; [exact Ho |]. split; [exact G5 |]. split; [exact G6 |].
  split; [exact G8 |].
  split.
  { intros st' n op s r H' Hn.
    exact (lockstep_same _ st st' n op s r
             (lockstep_centralized fuel procs) H H' Hn). }
  split; [exact G0 |].
  split; [intros op s r Hl; now destruct (G3 _ _ _ Hl) as (_ & Hin & _) |].
  split.
  { intros Hm. split.
    - destruct (G8 Hm) as (s & r & Hl & _). apply lookup_lt_Some in Hl. lia.
    - pose proof (L5 (or_introl Hm)) as Hw. unfold is_waiting.
      destruct (stat st); simpl in *; congruence. }
  split; [intros Hd; now destruct (L2 Hd) |].
  split; [exact L3 |].
  intros Hm. destruct (L4 Hm) as (N1 & N2 & N3 & _). auto.
Qed.


(** C10: when [PMMG_CLEAN_AND_RETURN] returns, it returns its value,
    every group with a mesh had the [nsols] solutions of the mesh in its
    array, and the parmesh is left with, in every group, [npi], [nti],
    [nai], [nei] of the mesh equal to [np], [nt], [na], [ne], [npi] of
    the metric equal to its [np], and [npi] of each of the [nsols]
    solutions equal to its [np], every other field being as it was; the
    macro returns exactly on the parmeshes whose groups have these
    solutions; and a process that returns from an entry point through
    the macro holds such a parmesh. *)
Theorem clean_return_syncs (fuel : nat) (procs : list process)
    (st : pstate) (v : Z) (parmesh : PMMG_pParMesh) :
  In st (run_centralized fuel procs) \/ In st (run_distributed fuel procs) ->
  stat st = Returned v parmesh -> cleans (trace st) <> O ->
  (exists before,
     forallb sols_allocated (PMMG_ParMesh.listgrp before) = true
     /\ parmesh_cleaned before parmesh)
  /\ (forall p val p' v',
        Clean.PMMG_CLEAN_AND_RETURN p val = Some (p', v') ->
        v' = val
        /\ forallb sols_allocated (PMMG_ParMesh.listgrp p) = true
        /\ parmesh_cleaned p p')
  /\ (forall p val,
        is_Some (Clean.PMMG_CLEAN_AND_RETURN p val)
        <-> forallb sols_allocated (PMMG_ParMesh.listgrp p) = true).
Proof.
  intros Hrun Hst Hc. split; [| split].
  - pose proof (either_run cleaned_at_return centralized_cleaned_at_return
                  distributed_cleaned_at_return fuel procs st Hrun) as H.
    unfold cleaned_at_return in H. simpl in H. rewrite Hst in H.
    now apply H.
  - intros p val p' v'. apply clean_spec.
  - intros p val. rewrite clean_return_eq.
    destruct (forallb sols_allocated (PMMG_ParMesh.listgrp p)); split;
      intros H; try reflexivity; try discriminate; eauto.
    now destruct H.
Qed.

End Runs.

(** ** The input check *)

Section InputDataFacts.

Import InputData.

Lemma check_met_spec (g : PMMG_pGrp) (mesh : MMG5_pMesh) (met : MMG5_pSol) :
  (MMG5_Info.lag (MMG5_Mesh.info mesh) >? -1) = false ->
  (MMG5_Info.iso (MMG5_Mesh.info mesh) =? 0) = true ->
  match check_met g mesh met with
  | Reject d => rejected mesh met = true /\ is_error d = true
  | Accept g' w =>
      rejected mesh met = false
      /\ if metric_mismatch mesh met
         then w = [Warn_wrong_metric_number] /\ metric_dropped g'
         else w = [] /\ g' = g
  end.
Proof.
  intros Hlag Hiso.
  unfold check_met, rejected, option_error, metric_mismatch, wrong_size.
  rewrite Hlag, Hiso. cbn [negb orb].
  destruct (negb (MMG5_Info.optimLES (MMG5_Mesh.info mesh) =? 0)
            && (MMG5_Sol.size met =? 6)); [now split |].
  destruct (negb (MMG5_Sol.np met =? 0)) eqn:Hnp; cbn [andb orb].
  - destruct (negb (MMG5_Info.optim (MMG5_Mesh.info mesh) =? 0));
      [now split |].
    cbn [andb orb].
    destruct (hsiz_pos mesh); [now split |]. cbn [andb orb].
    destruct (negb (MMG5_Sol.np met =? MMG5_Mesh.np mesh)); cbn [negb andb].
    + split; [reflexivity |]. split; [reflexivity |].
      unfold metric_dropped. eexists. split; [reflexivity |]. now split.
    + destruct (negb (MMG5_Sol.size met =? 1) && negb (MMG5_Sol.size met =? 6));
        now split.
  - destruct (negb (MMG5_Info.optim (MMG5_Mesh.info mesh) =? 0) && hsiz_pos mesh);
      [now split |].
    destruct (negb (MMG5_Sol.size met =? 1) && negb (MMG5_Sol.size met =? 6));
      now split.
Qed.

Lemma check_grp_spec (g : PMMG_pGrp) :
  grp_allocated g ->
  match check_grp g with
  | Some (Reject d) => grp_rejected g = true /\ is_error d = true
  | Some (Accept g' w) =>
      grp_rejected g = false /\ Forall (fun d => is_error d = false) w
  | None => False
  end.
Proof.
  intros [[mesh Hmesh] [met Hmet]]. unfold check_grp, grp_rejected.
  rewrite Hmesh, Hmet.
  destruct (MMG5_Info.lag (MMG5_Mesh.info mesh) >? -1) eqn:Hlag.
  { unfold rejected, option_error. rewrite Hlag. now split. }
  destruct (MMG5_Info.iso (MMG5_Mesh.info mesh) =? 0) eqn:Hiso; cbn [negb].
  2:{ unfold rejected, option_error. rewrite Hlag, Hiso. now split. }
  pose proof (check_met_spec g mesh met Hlag Hiso) as H.
  destruct (check_met g mesh met) as [d | g' w]; [exact H |].
  destruct H as [Hr Hw]. split; [exact Hr |].
  destruct (metric_mismatch mesh met); destruct Hw as [-> _];
    repeat constructor.
Qed.

Lemma check_groups_spec (gs : list PMMG_pGrp) :
  Forall grp_allocated gs ->
  exists r l gs',
    check_groups gs = Some (r, l, gs')
    /\ (if existsb grp_rejected gs
        then r = 0 /\ exists l' d, l = l' ++ [d] /\ is_error d = true
        else r = 1 /\ Forall (fun d => is_error d = false) l).
Proof.
  induction gs as [| g gs IH]; intros Hall; simpl.
  - exists 1, [], []. split; [reflexivity |]. split; [reflexivity |].
    constructor.
  - apply Forall_cons in Hall as [Hg Hgs].
    pose proof (check_grp_spec g Hg) as H.
    destruct (check_grp g) as [[d | g' w] |]; [| | destruct H].
    + destruct H as [-> He]. simpl.
      exists 0, [d], (g :: gs). split; [reflexivity |].
      split; [reflexivity |]. now exists [], d.
    + destruct H as [-> Hw]. simpl.
      destruct (IH Hgs) as (r & l & gs' & -> & Hspec).
      exists r, (w ++ l), (g' :: gs'). split; [reflexivity |].
      destruct (existsb grp_rejected gs).
      * destruct Hspec as (-> & l' & d & -> & He). split; [reflexivity |].
        exists (w ++ l'), d. now rewrite app_assoc.
      * destruct Hspec as (-> & Hl). split; [reflexivity |].
        apply Forall_app. now split.
Qed.

End InputDataFacts.

Section InputDataRuns.

Lemma check_inputData_spec (parmesh : PMMG_pParMesh) :
  Forall grp_allocated (PMMG_ParMesh.listgrp parmesh) ->
  exists r l parmesh',
    InputData.PMMG_check_inputData parmesh = Some (r, l, parmesh')
    /\ (if existsb grp_rejected (PMMG_ParMesh.listgrp parmesh)
        then r = 0 /\ exists l' d, l = l' ++ [d] /\ is_error d = true
        else r = 1 /\ Forall (fun d => is_error d = false) l).
Proof.
  intros H. destruct (check_groups_spec _ H) as (r & l & gs' & E & Hs).
  unfold InputData.PMMG_check_inputData. rewrite E. eauto.
Qed.

Lemma exec_emit_all (l : list action) : forall tr p,
  exec tr (emit_all l p) = exec (tr ++ map Act l) p.
Proof.
  induction l as [| a l IH]; intros tr p; simpl.
  - now rewrite app_nil_r.
  - now rewrite IH, <- app_assoc.
Qed.

Lemma run_stuck (fuel : nat) (sts : list pstate) :
  round sts = None -> run fuel sts = sts.
Proof. intros H. destruct fuel; simpl; [reflexivity | now rewrite H]. Qed.

Lemma round_waiting (op : redop) (sts : list pstate) :
  sts <> [] -> Forall (fun st => waiting_on op st = true) sts ->
  round sts = Some (map (resume (reduce op (map send_of sts))) sts).
Proof.
  intros Hne Hall. unfold round. destruct sts as [| st rest]; [congruence |].
  destruct (waiting_on_inv _ _ (Forall_inv Hall)) as [k ->].
  assert (forallb (waiting_on op) (st :: rest) = true) as ->; [| reflexivity].
  apply forallb_forall. intros x Hx. rewrite Forall_forall in Hall.
  apply Hall. now apply list_elem_of_In.
Qed.

Lemma round_not_waiting (sts : list pstate) :
  Forall (fun st => is_waiting st = false) sts -> round sts = None.
Proof.
  intros Hall. unfold round. destruct sts as [| st rest]; [reflexivity |].
  pose proof (Forall_inv Hall) as H. unfold is_waiting in H.
  now destruct (stat st).
Qed.

Lemma check_phase_exec (parmesh parmesh' : PMMG_pParMesh) (ier : Z)
    (msgs : list message) (rest : PMMG_pParMesh -> Z -> Proc) :
  InputData.PMMG_check_inputData parmesh = Some (ier, msgs, parmesh') ->
  exec [] (check_phase parmesh rest)
  = {| trace := map Act (map APrint msgs) ++ [Act (ACheck ier)];
       stat := Waiting MPI_MIN ier (rest parmesh') |}.
Proof.
  intros E. unfold check_phase. rewrite E, exec_emit_all. reflexivity.
Qed.

(** When the check fails on a process, the first reduction stops all. *)
Lemma rejected_run (rest : Collaborators -> PMMG_pParMesh -> Z -> Proc) :
  (forall K parmesh, rest K parmesh 0 = Done PMMG_LOWFAILURE parmesh) ->
  forall fuel procs,
    (1 <= fuel)%nat -> all_allocated procs ->
    Exists (fun e => has_rejected e = true) procs ->
    run fuel (start (fun K parmesh => check_phase parmesh (rest K)) procs)
    = map stopped procs.
Proof.
  intros Hrest fuel procs Hfuel Hall Hex.
  set (entry := fun K parmesh => check_phase parmesh (rest K)).
  (* every process waits in the first reduction with 0 or 1 *)
  assert (Hst : forall e, In e procs ->
            exists ier msgs parmesh',
              InputData.PMMG_check_inputData (snd e)
              = Some (ier, msgs, parmesh')
              /\ 0 <= ier <= 1
              /\ (has_rejected e = true -> ier = 0)
              /\ exec [] (entry (fst e) (snd e))
                 = {| trace := map Act (map APrint msgs) ++ [Act (ACheck ier)];
                      stat := Waiting MPI_MIN ier (rest (fst e) parmesh') |}).
  { intros e He. unfold all_allocated in Hall. rewrite Forall_forall in Hall.
    destruct (check_inputData_spec (snd e)
                (Hall e (proj2 (list_elem_of_In _ _) He)))
      as (r & l & pm' & E & Hs).
    exists r, l, pm'. split; [exact E |].
    split; [exact (check_inputData_ret _ _ _ _ E) |].
    split; [| now apply check_phase_exec].
    unfold has_rejected. intros Hr. rewrite Hr in Hs. tauto. }
  destruct fuel as [| fuel]; [lia |]. simpl.
  set (sts := start entry procs).
  assert (Hne : sts <> []).
  { destruct procs; [now apply Exists_nil in Hex | discriminate]. }
  assert (Hwait : Forall (fun st => waiting_on MPI_MIN st = true) sts).
  { apply Forall_forall. intros x Hx. apply list_elem_of_In, in_map_iff in Hx.
    destruct Hx as (e & <- & He).
    destruct (Hst e He) as (ier & msgs & pm' & _ & _ & _ & ->). reflexivity. }
  assert (Hsends : forall s, In s (map send_of sts) -> 0 <= s <= 1).
  { intros s Hs. apply in_map_iff in Hs. destruct Hs as (x & <- & Hx).
    apply in_map_iff in Hx. destruct Hx as (e & <- & He).
    destruct (Hst e He) as (ier & msgs & pm' & _ & Hr & _ & ->). exact Hr. }
  assert (Hzero : In 0 (map send_of sts)).
  { apply Exists_exists in Hex. destruct Hex as (e & He & Hr).
    apply list_elem_of_In in He.
    destruct (Hst e He) as (ier & msgs & pm' & _ & _ & H0 & Hexec).
    apply in_map_iff. exists (exec [] (entry (fst e) (snd e))).
    split; [| apply in_map_iff; now exists e].
    rewrite Hexec. simpl. now apply H0. }
  assert (Hv : reduce MPI_MIN (map send_of sts) = 0).
  { pose proof (reduce_worse MPI_MIN _ _ Hzero) as Hle. simpl in Hle.
    assert (Hin : In (reduce MPI_MIN (map send_of sts)) (map send_of sts)).
    { apply reduce_attained. intros E. rewrite E in Hzero. destruct Hzero. }
    specialize (Hsends _ Hin). lia. }
  rewrite (round_waiting MPI_MIN sts Hne Hwait), Hv.
  assert (Hmap : map (resume 0) sts = map stopped procs).
  { subst sts. unfold start. rewrite map_map. apply map_ext_in. intros e He.
    destruct (Hst e He) as (ier' & msgs' & pm'' & E & _ & _ & ->).
    unfold resume, stopped. simpl. rewrite E, Hrest. reflexivity. }
  rewrite Hmap. apply run_stuck, round_not_waiting.
  apply Forall_forall. intros x Hx. apply list_elem_of_In, in_map_iff in Hx.
  destruct Hx as (e & <- & He). unfold stopped.
  destruct (Hst e He) as (ier' & msgs' & pm'' & -> & _). reflexivity.
Qed.

Lemma distributed_start_zero (K : Collaborators) (parmesh : PMMG_pParMesh) :
  distributed_start K parmesh 0 = Done PMMG_LOWFAILURE parmesh.
Proof.
  unfold distributed_start.
  now destruct (negb (MPI_Allreduce_rc K =? MPI_SUCCESS)).
Qed.

Lemma stopped_spec (e : process) :
  Forall grp_allocated (PMMG_ParMesh.listgrp (snd e)) ->
  returned (stopped e) = Some PMMG_LOWFAILURE
  /\ calls (trace (stopped e)) = []
  /\ length (colls (trace (stopped e))) = 1%nat
  /\ (has_rejected e = true ->
        checks (trace (stopped e)) = [0]
        /\ exists l d, prints (trace (stopped e)) = l ++ [d]
                       /\ is_error d = true).
Proof.
  intros Hall. unfold stopped, has_rejected.
  destruct (check_inputData_spec _ Hall) as (r & l & pm' & -> & Hs).
  unfold returned. simpl.
  rewrite !calls_app, !colls_app, !checks_app, !prints_app.
  rewrite calls_prints, colls_prints, checks_prints, prints_prints. simpl.
  split; [reflexivity |]. split; [reflexivity |]. split; [reflexivity |].
  intros Hr. rewrite Hr in Hs. destruct Hs as (-> & l' & d & -> & He).
  split; [reflexivity |]. exists l', d. now rewrite !app_nil_r.
Qed.

(** C4 (as amended): when a group of some process has a mismatched
    option combination (lagrangian mode, level-set discretisation,
    optimLES with an anisotropic metric, optim or hsiz with an input
    metric, optim with hsiz), or a metric whose size is neither 1 nor 6
    while its number of points is 0 or that of the mesh, then (the meshes
    and metrics being allocated) that process prints an error, and every
    process of either entry point returns [PMMG_LOWFAILURE] after the
    first reduction without calling anything: the remeshing never starts.
    A metric whose number of points is neither 0 nor that of the mesh is
    not an error: the check warns, drops the metric and goes on. *)
Theorem input_errors_stop (fuel : nat) (procs : list process) :
  (1 <= fuel)%nat -> all_allocated procs ->
  Exists (fun e => has_rejected e = true) procs ->
  run_centralized fuel procs = map stopped procs
  /\ run_distributed fuel procs = map stopped procs
  /\ (forall e, In e procs ->
        returned (stopped e) = Some PMMG_LOWFAILURE
        /\ calls (trace (stopped e)) = []
        /\ (has_rejected e = true ->
              checks (trace (stopped e)) = [0]
              /\ exists l d, prints (trace (stopped e)) = l ++ [d]
                             /\ is_error d = true))
  /\ (forall g mesh met,
        PMMG_Grp.mesh g = Some mesh -> PMMG_Grp.met g = Some met ->
        option_error mesh met = false -> metric_mismatch mesh met = true ->
        exists g', InputData.check_grp g
                   = Some (InputData.Accept g' [Warn_wrong_metric_number])
                   /\ metric_dropped g').
Proof.
  intros Hfuel Hall Hex. split; [| split; [| split]].
  - apply (rejected_run centralized_distribute); auto.
  - apply (rejected_run distributed_start); auto.
    apply distributed_start_zero.
  - intros e He. unfold all_allocated in Hall. rewrite Forall_forall in Hall.
    destruct (stopped_spec e (Hall e (proj2 (list_elem_of_In _ _) He)))
      as (H1 & H2 & _ & H3).
    auto.
  - intros g mesh met Hmesh Hmet Hopt Hmis.
    unfold option_error in Hopt. cbn zeta in Hopt.
    repeat (apply orb_false_iff in Hopt; destruct Hopt as [Hopt ?]).
    unfold InputData.check_grp. rewrite Hmesh, Hmet, Hopt.
    apply negb_false_iff in H3. rewrite H3. cbn [negb].
    assert (Hlag : (MMG5_Info.lag (MMG5_Mesh.info mesh) >? -1) = false)
      by exact Hopt.
    pose proof (check_met_spec g mesh met Hlag H3) as Hspec.
    destruct (InputData.check_met g mesh met) as [d | g' w].
    + destruct Hspec as [Hr _]. unfold rejected in Hr.
      rewrite Hmis in Hr. cbn [negb andb] in Hr.
      rewrite orb_false_r in Hr. unfold option_error in Hr. cbn zeta in Hr.
      rewrite Hopt, H3, H2, H1, H0, H in Hr. discriminate.
    + destruct Hspec as [_ Hw]. rewrite Hmis in Hw. destruct Hw as [-> Hd].
      now exists g'.
Qed.

End InputDataRuns.

(** ** Adjacency accessors *)

Section Adjacency.

Lemma adja_idx_defined (mesh : MMG5_pMesh) (element face : Z) :
  1 <= element <= MMG5_Mesh.ne mesh -> 0 <= face < 4 ->
  4 * MMG5_Mesh.ne mesh < Z.of_nat (length (MMG5_Mesh.adja mesh)) ->
  is_Some (PMMG_adja_idx_of_face mesh element face).
Proof.
  intros He Hf Hlen. unfold PMMG_adja_idx_of_face.
  destruct (Z.geb_spec face 0); [| lia].
  destruct (Z.ltb_spec face 4); [| lia]. cbn [andb negb].
  destruct (Z.gtb_spec (4 * (element - 1) + 1 + face) 0); [| lia].
  destruct (Z.ltb_spec (4 * (element - 1) + 1 + face)
              (4 * (MMG5_Mesh.ne mesh - 1) + 5)); [| lia].
  cbn [andb negb]. apply lookup_lt_is_Some. lia.
Qed.

(** C9: for a tetrahedron [element] of the mesh (from 1 to [ne]), a face
    from 0 to 3 and an adjacency array that holds the entries of the
    [ne] tetrahedra, the three accessors return, and the values [t] of
    [PMMG_adja_tetra_to_face] and [f] of [PMMG_adja_face_to_face] are the
    quotient and the remainder by 4 of the value [idx] of
    [PMMG_adja_idx_of_face]: [4 * t + f = idx]. *)
Theorem adja_decomposition (mesh : MMG5_pMesh) (element face : Z) :
  1 <= element <= MMG5_Mesh.ne mesh -> 0 <= face < 4 ->
  4 * MMG5_Mesh.ne mesh < Z.of_nat (length (MMG5_Mesh.adja mesh)) ->
  exists idx t f,
    PMMG_adja_idx_of_face mesh element face = Some idx
    /\ PMMG_adja_tetra_to_face mesh element face = Some t
    /\ PMMG_adja_face_to_face mesh element face = Some f
    /\ 4 * t + f = idx
    /\ t = Z.quot idx 4 /\ f = Z.rem idx 4.
Proof.
  intros He Hf Hlen.
  destruct (adja_idx_defined mesh element face He Hf Hlen) as [idx Hidx].
  exists idx, (Z.quot idx 4), (Z.rem idx 4).
  unfold PMMG_adja_tetra_to_face, PMMG_adja_face_to_face. rewrite Hidx.
  repeat split; try reflexivity.
  symmetry. apply Z.quot_rem'.
Qed.

End Adjacency.

(** ** The theorems on concrete inputs *)

Section Instances.

Import Mem.

Lemma mem_request_contract_witness :
  refused (ex_acct 90) None (PMMG_MALLOC (ex_acct 90) 5 4 (Some 2%positive))
  /\ attempted (ex_acct 0) 20 (Some 2%positive)
       (PMMG_CALLOC (ex_acct 0) 5 4 (Some 2%positive))
  /\ refused (ex_acct 90) (Some 1%positive)
       (default (PMMG_MALLOC (ex_acct 90) 0 4 None)
          (PMMG_REALLOC (ex_acct 90) (Some 1%positive) 10 5 4
             (Some 2%positive))).
Proof.
  pose proof (mem_request_contract (ex_acct 90) 5 4 1%positive 10 5
                (Some 2%positive)) as H1.
  pose proof (mem_request_contract (ex_acct 0) 5 4 1%positive 10 5
                (Some 2%positive)) as H2.
  destruct H1 as (Hm & _ & Hr); [discriminate | discriminate | lia |].
  destruct H2 as (_ & Hc & _); [discriminate | discriminate | lia |].
  split; [exact (proj1 Hm) |]. split; [exact (proj1 Hc) | exact Hr].
Defined.

(** C3, what fails: over the ceiling the growing branch of
    [PMMG_REALLOC] does not run [on_failure] (and [PMMG_RECALLOC] goes on
    to clear the tail of a block that was not grown); under the ceiling,
    when [malloc] gives NULL, [memCur] does not grow. *)
Lemma mem_request_counterexample :
  (memCur (ex_acct 90) + bytes_of (10 - 5) 4 > memMax (ex_acct 90)
   /\ option_map on_failure
        (PMMG_REALLOC (ex_acct 90) (Some 1%positive) 10 5 4 (Some 2%positive))
      = Some false
   /\ option_map memset
        (PMMG_RECALLOC (ex_acct 90) (Some 1%positive) 10 5 4 (Some 2%positive))
      = Some true)
  /\ (memCur (ex_acct 0) + bytes_of 5 4 <= memMax (ex_acct 0)
      /\ memCur (mesh (PMMG_MALLOC (ex_acct 0) 5 4 None))
         = memCur (ex_acct 0)
      /\ heap_call (PMMG_MALLOC (ex_acct 0) 5 4 None) = true).
Proof. vm_compute. intuition (discriminate || reflexivity). Qed.



Lemma adja_decomposition_witness :
  exists idx t f,
    PMMG_adja_idx_of_face ex_mesh 2 3 = Some idx
    /\ PMMG_adja_tetra_to_face ex_mesh 2 3 = Some t
    /\ PMMG_adja_face_to_face ex_mesh 2 3 = Some f
    /\ 4 * t + f = idx
    /\ t = Z.quot idx 4 /\ f = Z.rem idx 4.
Proof.
  apply (adja_decomposition ex_mesh 2 3); vm_compute;
    intuition discriminate.
Defined.

End Instances.

Section RunInstances.

(** Membership in an explicit run. *)
Ltac in_run :=
  vm_compute; repeat first [left; reflexivity | right].

(** Cases on the processes of an explicit run. *)
Ltac each_process H :=
  vm_compute in H;
  repeat (destruct H as [H | H]; [subst |]); [.. | destruct H].

(** The processes of an explicit communicator. *)
Ltac each_proc H :=
  repeat (destruct H as [H | H]; [subst |]); [.. | destruct H].

Lemma reductions_decide_witness :
  (In 0 (checks (trace (outcome 1 (run_entry Distributed 3 ex_run_lag))))
   /\ calls (trace (outcome 0 (run_entry Distributed 3 ex_run_lag))) = [])
  /\ (In (C_parmmglib1, PMMG_STRONGFAILURE)
        (calls (trace (outcome 1 (run_entry Centralized 3 ex_run_strong))))
      /\ ~ In C_merge_parmesh
            (called (trace (outcome 0
               (run_entry Centralized 3 ex_run_strong))))).
Proof.
  split.
  - assert (H1 : In (outcome 1 (run_entry Distributed 3 ex_run_lag))
                   (run_entry Distributed 3 ex_run_lag)) by in_run.
    assert (H0 : In (outcome 0 (run_entry Distributed 3 ex_run_lag))
                   (run_entry Distributed 3 ex_run_lag)) by in_run.
    assert (Hc : In 0 (checks (trace (outcome 1
                   (run_entry Distributed 3 ex_run_lag))))) by in_run.
    split; [exact Hc |].
    refine (proj1 (proj2 (proj2 (proj2
              (reductions_decide Distributed 3 ex_run_lag 2 _ _ _ H1 H0 _))))
              Hc).
    + intros p Hp. each_proc Hp; reflexivity.
    + intros p c Hp Hcall. each_process Hp; vm_compute in Hcall; tauto.
  - assert (H1 : In (outcome 1 (run_entry Centralized 3 ex_run_strong))
                   (run_entry Centralized 3 ex_run_strong)) by in_run.
    assert (H0 : In (outcome 0 (run_entry Centralized 3 ex_run_strong))
                   (run_entry Centralized 3 ex_run_strong)) by in_run.
    assert (Hc : In (C_parmmglib1, PMMG_STRONGFAILURE)
                   (calls (trace (outcome 1
                      (run_entry Centralized 3 ex_run_strong))))) by in_run.
    split; [exact Hc |].
    refine (proj1 (proj1 (proj2 (proj2 (proj2 (proj2 (proj2
              (reductions_decide Centralized 3 ex_run_strong 2 _ _ _
                 H1 H0 _)))))) Hc)).
    + intros p Hp. each_proc Hp; reflexivity.
    + intros p c Hp Hcall. each_process Hp; vm_compute in Hcall;
        repeat (destruct Hcall as [Hcall | Hcall];
                try discriminate Hcall; try tauto);
        injection Hcall as <-; vm_compute; discriminate.
Defined.

(** C1, what fails: the outcomes of the boundary reconstruction and of
    the merge are not reduced.  With a boundary reconstruction that fails
    on the root, the root returns [PMMG_LOWFAILURE] and its peer
    [PMMG_SUCCESS], in both entry points; with a merge that fails on the
    second process, that process returns [PMMG_STRONGFAILURE] while the
    root reconstructs the boundary and returns [PMMG_SUCCESS]; in these
    runs each process has been through three reductions only.  And in
    the distributed entry point with one group on the first process and
    two on the second, the third reduction takes the outcome of the
    remeshing of the first and that of a preprocessing of the second:
    the first reconstructs its boundary and returns [PMMG_SUCCESS] while
    the remeshing of the second fails strongly. *)
Lemma reductions_counterexample :
  (map (fun st => (returned st, length (colls (trace st))))
     (run_entry Centralized 3 ex_run_boundary)
   = [(Some PMMG_LOWFAILURE, 3%nat); (Some PMMG_SUCCESS, 3%nat)]
   /\ In (C_hashTetra, 0)
        (calls (trace (outcome 0 (run_entry Centralized 3 ex_run_boundary)))))
  /\ (map (fun st => (returned st, length (colls (trace st))))
        (run_entry Distributed 3 ex_run_boundary)
      = [(Some PMMG_LOWFAILURE, 3%nat); (Some PMMG_SUCCESS, 3%nat)]
      /\ In (C_hashTetra, 0)
           (calls (trace (outcome 0
              (run_entry Distributed 3 ex_run_boundary)))))
  /\ (map (fun st => (returned st, length (colls (trace st))))
        (run_entry Centralized 3 ex_run_merge)
      = [(Some PMMG_SUCCESS, 3%nat); (Some PMMG_STRONGFAILURE, 3%nat)]
      /\ In (C_merge_parmesh, 0)
           (calls (trace (outcome 1 (run_entry Centralized 3 ex_run_merge))))
      /\ In C_bdryBuild
           (called (trace (outcome 0
              (run_entry Centralized 3 ex_run_merge)))))
  /\ (map (fun e => remesh_index Distributed (snd e)) ex_run_uneven
      = [2%nat; 3%nat]
      /\ map (fun st => (returned st, colls (trace st)))
           (run_entry Distributed 4 ex_run_uneven)
         = [(Some PMMG_SUCCESS,
             [(MPI_MIN, 1, 1); (MPI_MAX, PMMG_SUCCESS, PMMG_SUCCESS);
              (MPI_MAX, PMMG_SUCCESS, PMMG_SUCCESS)]);
            (None,
             [(MPI_MIN, 1, 1); (MPI_MAX, PMMG_SUCCESS, PMMG_SUCCESS);
              (MPI_MAX, PMMG_SUCCESS, PMMG_SUCCESS)])]
      /\ In (C_parmmglib1, PMMG_STRONGFAILURE)
           (calls (trace (outcome 1
              (run_entry Distributed 4 ex_run_uneven))))
      /\ In C_bdryBuild
           (called (trace (outcome 0
              (run_entry Distributed 4 ex_run_uneven))))).
Proof.
  split; [split; [vm_compute; reflexivity | in_run] |].
  split; [split; [vm_compute; reflexivity | in_run] |].
  split; [split; [vm_compute; reflexivity | split; in_run] |].
  split; [reflexivity |].
  split; [vm_compute; reflexivity | split; in_run].
Qed.

Lemma remesh_failure_shared_witness :
  Forall (fun st => returned st = Some PMMG_STRONGFAILURE
                    /\ ~ In C_merge_parmesh (called (trace st))
                    /\ ~ In C_parmesh_Free_Comm (called (trace st)))
    (run_entry Centralized 3 ex_run_strong
     ++ run_entry Distributed 3 ex_run_strong).
Proof.
  apply Forall_app. split; apply Forall_forall; intros st Hst;
    apply list_elem_of_In in Hst.
  - refine (proj1 (remesh_failure_shared Centralized 3 ex_run_strong 2 _ _ _)
              _ _ st Hst).
    + intros p Hp. each_proc Hp; reflexivity.
    + lia.
    + intros x Hx. each_process Hx; in_run.
    + exists (outcome 1 (run_entry Centralized 3 ex_run_strong)).
      split; in_run.
    + intros x c Hx Hc. each_process Hx; vm_compute in Hc;
        repeat (destruct Hc as [Hc | Hc]; try discriminate Hc; try tauto);
        injection Hc as <-; vm_compute; tauto.
  - refine (proj1 (remesh_failure_shared Distributed 3 ex_run_strong 2 _ _ _)
              _ _ st Hst).
    + intros p Hp. each_proc Hp; reflexivity.
    + lia.
    + intros x Hx. each_process Hx; in_run.
    + exists (outcome 1 (run_entry Distributed 3 ex_run_strong)).
      split; in_run.
    + intros x c Hx Hc. each_process Hx; vm_compute in Hc;
        repeat (destruct Hc as [Hc | Hc]; try discriminate Hc; try tauto);
        injection Hc as <-; vm_compute; tauto.
Defined.

(** C2, what fails: in the distributed entry point the processes must
    have the same number of groups.  With one group on the first process
    and two on the second, whose remeshing fails strongly while that of
    the first succeeds, the first process releases its communicators,
    reconstructs its boundary and returns [PMMG_SUCCESS]; the second
    waits in a reduction that nobody else enters, whatever the number
    of rounds. *)
Lemma remesh_failure_counterexample :
  calls (trace (outcome 1 (run_entry Distributed 4 ex_run_uneven)))
  = [(C_preprocessMesh, PMMG_SUCCESS); (C_preprocessMesh, PMMG_SUCCESS);
     (C_parmmglib1, PMMG_STRONGFAILURE)]
  /\ In (C_parmmglib1, PMMG_SUCCESS)
       (calls (trace (outcome 0 (run_entry Distributed 4 ex_run_uneven))))
  /\ returned (outcome 0 (run_entry Distributed 4 ex_run_uneven))
     = Some PMMG_SUCCESS
  /\ In C_parmesh_Free_Comm
       (called (trace (outcome 0 (run_entry Distributed 4 ex_run_uneven))))
  /\ returned (outcome 1 (run_entry Distributed 4 ex_run_uneven)) = None
  /\ is_waiting (outcome 1 (run_entry Distributed 4 ex_run_uneven)) = true
  /\ round (run_entry Distributed 4 ex_run_uneven) = None.
Proof.
  split; [vm_compute; reflexivity |]. split; [in_run |].
  split; [vm_compute; reflexivity |]. split; [in_run |].
  split; [| split]; vm_compute; reflexivity.
Qed.

Lemma input_errors_stop_witness :
  run_centralized 3 ex_run_lag = map stopped ex_run_lag
  /\ run_distributed 3 ex_run_lag = map stopped ex_run_lag
  /\ map returned (map stopped ex_run_lag)
     = [Some PMMG_LOWFAILURE; Some PMMG_LOWFAILURE].
Proof.
  assert (H : (1 <= 3)%nat /\ all_allocated ex_run_lag
              /\ Exists (fun e => has_rejected e = true) ex_run_lag).
  { split; [lia |]. split.
    - repeat constructor; vm_compute; eauto.
    - apply Exists_cons_tl, Exists_cons_hd. reflexivity. }
  destruct H as (H1 & H2 & H3).
  destruct (input_errors_stop 3 ex_run_lag H1 H2 H3) as (Hc & Hd & _).
  split; [exact Hc |]. split; [exact Hd |]. reflexivity.
Defined.

(** C4, what fails: a metric with 3 points for a mesh of 5 is not an
    error.  The check warns and returns 1, and the entry point goes on:
    it calls the remeshing and returns [PMMG_SUCCESS]. *)
Lemma input_errors_counterexample :
  metric_mismatch (ex_mesh_with ex_info) (ex_sol 3) = true
  /\ (exists parmesh,
        InputData.PMMG_check_inputData (ex_parmesh_with ex_info 3 0)
        = Some (1, [Warn_wrong_metric_number], parmesh))
  /\ map returned (run_centralized 3 ex_run_mismatch) = [Some PMMG_SUCCESS]
  /\ In C_parmmglib1
       (called (trace (outcome 0 (run_centralized 3 ex_run_mismatch)))).
Proof.
  split; [reflexivity |]. split; [eexists; vm_compute; reflexivity |].
  split; [vm_compute; reflexivity | in_run].
Qed.

Lemma boundary_failure_is_partial_witness :
  In (C_hashTetra, 0)
     (calls (trace (outcome 0 (run_centralized 3 ex_run_boundary))))
  /\ returned (outcome 0 (run_centralized 3 ex_run_boundary))
     = Some PMMG_LOWFAILURE
  /\ returned (outcome 0 (run_distributed 3 ex_run_boundary))
     = Some PMMG_LOWFAILURE.
Proof.
  assert (Hc : In (C_hashTetra, 0)
                 (calls (trace (outcome 0 (run_centralized 3 ex_run_boundary)))))
    by in_run.
  assert (Hd : In (C_hashTetra, 0)
                 (calls (trace (outcome 0 (run_distributed 3 ex_run_boundary)))))
    by in_run.
  assert (Hic : In (outcome 0 (run_centralized 3 ex_run_boundary))
                  (run_centralized 3 ex_run_boundary)) by in_run.
  assert (Hid : In (outcome 0 (run_distributed 3 ex_run_boundary))
                  (run_distributed 3 ex_run_boundary)) by in_run.
  split; [exact Hc |]. split.
  - refine (proj1 (proj2 (proj2 (proj2 (proj2 (proj2 (proj2
              (boundary_failure_is_partial 3 ex_run_boundary _
                 (or_introl Hic) (or_introl Hc))))))) _)).
    intros _. vm_compute. discriminate.
  - refine (proj1 (proj2 (proj2 (proj2 (proj2 (proj2 (proj2
              (boundary_failure_is_partial 3 ex_run_boundary _
                 (or_intror Hid) (or_introl Hd))))))) _)).
    intros _. vm_compute. discriminate.
Defined.

Lemma phases_in_order_witness :
  phases (trace (outcome 0 (run_centralized 3 ex_run_ok)))
  = [Distribution; Remeshing; Merging; Boundary]
  /\ starts (phases (trace (outcome 0 (run_centralized 3 ex_run_ok))))
       [Distribution; Remeshing; Merging; Boundary] = true.
Proof.
  split; [vm_compute; reflexivity |].
  refine (proj1 (phases_in_order 3 ex_run_ok _ _)). in_run.
Defined.

(** C6, what fails: the root enters the boundary reconstruction on its
    own outcome of the merge, which is not reduced: the merge has failed
    on its peer, and three reductions only were completed. *)
Lemma phases_counterexample :
  In Boundary (phases (trace (outcome 0 (run_centralized 3 ex_run_merge))))
  /\ In (C_merge_parmesh, 0)
       (calls (trace (outcome 1 (run_centralized 3 ex_run_merge))))
  /\ map (fun st => length (colls (trace st)))
       (run_centralized 3 ex_run_merge) = [3%nat; 3%nat]
  /\ run_centralized 4 ex_run_merge = run_centralized 3 ex_run_merge.
Proof.
  split; [in_run |]. split; [in_run |].
  split; vm_compute; reflexivity.
Qed.



Lemma clean_return_syncs_witness :
  cleans (trace (outcome 0 (run_centralized 3 ex_run_ok))) <> O
  /\ stat (outcome 0 (run_centralized 3 ex_run_ok))
     = Returned PMMG_SUCCESS
         (default (ex_parmesh 0)
            (final_parmesh (outcome 0 (run_centralized 3 ex_run_ok))))
  /\ (exists before,
        forallb sols_allocated (PMMG_ParMesh.listgrp before) = true
        /\ parmesh_cleaned before
             (default (ex_parmesh 0)
                (final_parmesh (outcome 0 (run_centralized 3 ex_run_ok)))))
  /\ ~ is_Some (Clean.PMMG_CLEAN_AND_RETURN ex_parmesh_no_sol 0).
Proof.
  assert (Hc : cleans (trace (outcome 0 (run_centralized 3 ex_run_ok))) <> O)
    by (vm_compute; discriminate).
  assert (Hin : In (outcome 0 (run_centralized 3 ex_run_ok))
                  (run_centralized 3 ex_run_ok)) by in_run.
  assert (E : stat (outcome 0 (run_centralized 3 ex_run_ok))
              = Returned PMMG_SUCCESS
                  (default (ex_parmesh 0)
                     (final_parmesh (outcome 0 (run_centralized 3 ex_run_ok)))))
    by (vm_compute; reflexivity).
  split; [exact Hc |]. split; [exact E |].
  destruct (clean_return_syncs 3 ex_run_ok _ _ _ (or_introl Hin) E Hc)
    as (H1 & _ & H3).
  split; [exact H1 |].
  intros Hs. apply H3 in Hs. vm_compute in Hs. discriminate Hs.
Defined.

End RunInstances.

(** ** More on the memory macros *)

Section MemMore.

Import Mem.

Lemma set_memCur_back (m : acct) (v : Z) :
  set_memCur (set_memCur m v) (memCur m) = m.
Proof. now destruct m. Qed.

(** X1: a block obtained from [PMMG_MALLOC] or [PMMG_CALLOC] and released
    by [PMMG_DEL_MEM] with the same size leaves the accounting exactly as
    it was: the allocation adds [size * sizeof(type)] to [memCur], the
    release takes it back, sets the pointer to NULL and prints nothing. *)
Theorem alloc_release_round_trip (m : acct) (size sz : Z) (a : positive) :
  sized size sz -> size <> 0 -> 0 <= memCur m ->
  memCur m + size * sz <= memMax m ->
  (ptr (PMMG_MALLOC m size sz (Some a)) = Some a
   /\ memCur (mesh (PMMG_MALLOC m size sz (Some a))) = memCur m + size * sz
   /\ PMMG_DEL_MEM (mesh (PMMG_MALLOC m size sz (Some a)))
        (ptr (PMMG_MALLOC m size sz (Some a))) size sz
      = quiet m None)
  /\ (ptr (PMMG_CALLOC m size sz (Some a)) = Some a
      /\ memCur (mesh (PMMG_CALLOC m size sz (Some a)))
         = memCur m + size * sz
      /\ PMMG_DEL_MEM (mesh (PMMG_CALLOC m size sz (Some a)))
           (ptr (PMMG_CALLOC m size sz (Some a))) size sz
         = quiet m None).
Proof.
  intros Hsz Hne H0 Hfit.
  destruct (bytes_of_sized _ _ Hsz) as [Hb Hpos].
  pose proof (free_bytes_sized _ _ Hsz) as Hf.
  apply Z.eqb_neq in Hne.
  assert (Hdel : PMMG_DEL_MEM (set_memCur m (memCur m + size * sz))
                   (Some a) size sz = quiet m None).
  { unfold PMMG_DEL_MEM. rewrite Hne, Hf. simpl negb.
    rewrite bool_decide_eq_true_2 by discriminate. cbn [andb].
    unfold MEM_CHK_AVAIL. cbn [memCur memMax set_memCur].
    destruct (Z.gtb_spec (memCur m + size * sz + - (size * sz)) (memMax m));
      [lia |].
    destruct (Z.ltb_spec (memCur m + size * sz + - (size * sz)) 0); [lia |].
    cbn. unfold quiet. f_equal.
    replace (memCur m + size * sz + - (size * sz)) with (memCur m) by ring.
    apply set_memCur_back. }
  unfold PMMG_MALLOC, PMMG_CALLOC. rewrite Hne, Hb. simpl negb. cbv iota.
  unfold MEM_CHK_AVAIL.
  destruct (Z.gtb_spec (memCur m + size * sz) (memMax m)); [lia |].
  destruct (Z.ltb_spec (memCur m + size * sz) 0); [lia |].
  cbn. repeat split; exact Hdel.
Qed.

Lemma alloc_release_round_trip_witness :
  PMMG_DEL_MEM (mesh (PMMG_MALLOC (ex_acct 10) 5 4 (Some 1%positive)))
    (ptr (PMMG_MALLOC (ex_acct 10) 5 4 (Some 1%positive))) 5 4
  = quiet (ex_acct 10) None.
Proof.
  refine (proj2 (proj2 (proj1
            (alloc_release_round_trip (ex_acct 10) 5 4 1%positive _ _ _ _))));
    vm_compute; intuition discriminate.
Defined.

(** X2: a [PMMG_REALLOC] of an accounted block of [oldsize] elements to
    [newsize] elements ([newsize] not 0) that is given storage changes
    [memCur] by exactly [(newsize - oldsize) * sizeof(type)], growing or
    shrinking, leaves [memMax] alone, prints nothing and does not run
    [on_failure]; the pointer is the storage [realloc] gave, or the old
    one when the sizes are equal (then [realloc] is not called). *)
Theorem realloc_accounts_size_change (m : acct) (b a : positive)
    (newsize oldsize sz : Z) :
  sized newsize sz -> sized oldsize sz -> newsize <> 0 ->
  memCur m + (newsize - oldsize) * sz <= memMax m ->
  0 <= memCur m + (newsize - oldsize) * sz ->
  exists e,
    PMMG_REALLOC m (Some b) newsize oldsize sz (Some a) = Some e
    /\ memCur (mesh e) = memCur m + (newsize - oldsize) * sz
    /\ memMax (mesh e) = memMax m
    /\ log e = [] /\ on_failure e = false
    /\ ptr e = (if newsize =? oldsize then Some b else Some a)
    /\ heap_call e = negb (newsize =? oldsize).
Proof.
  intros Hn Ho Hne Hfit Hpos. unfold PMMG_REALLOC.
  apply Z.eqb_neq in Hne. rewrite Hne.
  destruct (Z.ltb_spec newsize oldsize) as [Hlt | Hge].
  - destruct (bytes_of_sized _ _ Hn) as [-> _].
    destruct (bytes_of_sized _ _ Ho) as [-> _].
    destruct (Z.eqb_spec newsize oldsize); [lia |].
    eexists. split; [reflexivity |]. cbn.
    repeat split; ring.
  - destruct (Z.gtb_spec newsize oldsize) as [Hgt | Hle].
    + destruct (grow_sized _ _ _ Hn Ho) as [-> _]; [lia |].
      destruct (Z.eqb_spec newsize oldsize); [lia |].
      unfold MEM_CHK_AVAIL.
      destruct (Z.gtb_spec (memCur m + (newsize - oldsize) * sz) (memMax m));
        [lia |].
      destruct (Z.ltb_spec (memCur m + (newsize - oldsize) * sz) 0); [lia |].
      eexists. split; [reflexivity |]. cbn. repeat split.
    + assert (newsize = oldsize) as -> by lia. rewrite Z.eqb_refl.
      eexists. split; [reflexivity |]. cbn. repeat split. ring.
Qed.

Lemma realloc_accounts_size_change_witness :
  exists e,
    PMMG_REALLOC (ex_acct 40) (Some 1%positive) 3 10 4 (Some 2%positive)
    = Some e
    /\ memCur (mesh e) = 12 /\ ptr e = Some 2%positive.
Proof.
  destruct (realloc_accounts_size_change (ex_acct 40) 1 2 3 10 4)
    as (e & He & Hc & _ & _ & _ & Hp & _);
    try (vm_compute; intuition discriminate).
  exists e. split; [exact He |]. split; [exact Hc | exact Hp].
Defined.

(** X3: when [realloc] gives NULL, shrinking or growing under the
    ceiling, [PMMG_REALLOC] reports it, releases the old block through
    [PMMG_DEL_MEM] (the pointer becomes NULL and [memCur] drops by the
    bytes of the old block) and runs [on_failure]: the data is lost, the
    accounting stays exact. *)
Theorem realloc_failure_releases_block (m : acct) (b : positive)
    (newsize oldsize sz : Z) :
  sized newsize sz -> sized oldsize sz ->
  newsize <> 0 -> newsize <> oldsize ->
  oldsize * sz <= memCur m <= memMax m ->
  memCur m + (newsize - oldsize) * sz <= memMax m ->
  exists e,
    PMMG_REALLOC m (Some b) newsize oldsize sz None = Some e
    /\ ptr e = None
    /\ memCur (mesh e) = memCur m - oldsize * sz
    /\ memMax (mesh e) = memMax m
    /\ heap_call e = true /\ on_failure e = true
    /\ log e = [ReallocFailed].
Proof.
  intros Hn Ho Hne Hdiff Hacc Hfit.
  assert (Hdel : mesh (PMMG_DEL_MEM m (Some b) oldsize sz)
                 = set_memCur m (memCur m - oldsize * sz)
                 /\ log (PMMG_DEL_MEM m (Some b) oldsize sz) = []).
  { unfold PMMG_DEL_MEM. rewrite bool_decide_eq_true_2 by discriminate.
    destruct (Z.eqb_spec oldsize 0) as [-> | H0]; cbn [negb andb].
    - cbn. split; [| reflexivity]. destruct m. unfold set_memCur. cbn.
      f_equal. ring.
    - rewrite (free_bytes_sized _ _ Ho). unfold MEM_CHK_AVAIL.
      destruct Ho as (Ho1 & Ho2 & _).
      destruct (Z.gtb_spec (memCur m + - (oldsize * sz)) (memMax m));
        [nia |].
      destruct (Z.ltb_spec (memCur m + - (oldsize * sz)) 0); [lia |].
      cbn. split; reflexivity. }
  destruct Hdel as [Hmesh Hlog].
  unfold PMMG_REALLOC. apply Z.eqb_neq in Hne. rewrite Hne.
  destruct (Z.ltb_spec newsize oldsize) as [Hlt | Hge].
  - eexists. split; [reflexivity |]. unfold realloc_failed.
    cbn [ptr mesh log heap_call on_failure]. rewrite del_mem_ptr, Hmesh, Hlog.
    cbn. repeat split.
  - destruct (Z.gtb_spec newsize oldsize) as [Hgt | Hle]; [| lia].
    destruct (grow_sized _ _ _ Hn Ho) as [-> Hpos]; [lia |].
    unfold MEM_CHK_AVAIL.
    destruct (Z.gtb_spec (memCur m + (newsize - oldsize) * sz) (memMax m));
      [lia |].
    destruct (Z.ltb_spec (memCur m + (newsize - oldsize) * sz) 0);
      [destruct Ho as (? & ? & _); nia |].
    cbn [fst snd Z.eqb PMMG_SUCCESS].
    eexists. split; [reflexivity |]. unfold realloc_failed.
    cbn [ptr mesh log heap_call on_failure]. rewrite del_mem_ptr, Hmesh, Hlog.
    cbn. repeat split.
Qed.

Lemma realloc_failure_releases_block_witness :
  exists e,
    PMMG_REALLOC (ex_acct 40) (Some 1%positive) 12 10 4 None = Some e
    /\ ptr e = None /\ memCur (mesh e) = 0 /\ on_failure e = true.
Proof.
  destruct (realloc_failure_releases_block (ex_acct 40) 1 12 10 4)
    as (e & He & Hp & Hc & _ & _ & Hf & _);
    try (vm_compute; intuition discriminate).
  exists e. split; [exact He |]. split; [exact Hp |].
  split; [exact Hc | exact Hf].
Defined.

Lemma del_mem_ceiling (m : acct) (p : pointer) (size sz : Z) :
  memCur m <= memMax m -> sized size sz ->
  memCur (mesh (PMMG_DEL_MEM m p size sz)) <= memMax m
  /\ memMax (mesh (PMMG_DEL_MEM m p size sz)) = memMax m.
Proof.
  intros Hle Hsz. unfold PMMG_DEL_MEM.
  destruct (negb (size =? 0) && bool_decide (p <> None)); [| cbn; lia].
  rewrite (free_bytes_sized _ _ Hsz). destruct Hsz as (H0 & Hs & _).
  unfold MEM_CHK_AVAIL.
  destruct (Z.gtb_spec (memCur m + - (size * sz)) (memMax m)); [cbn; lia |].
  destruct (Z.ltb_spec (memCur m + - (size * sz)) 0); cbn; lia.
Qed.

Lemma alloc_ceiling (m : acct) (size sz : Z) (alloc : pointer) :
  memCur m <= memMax m -> sized size sz ->
  (memCur (mesh (PMMG_MALLOC m size sz alloc)) <= memMax m
   /\ memMax (mesh (PMMG_MALLOC m size sz alloc)) = memMax m)
  /\ (memCur (mesh (PMMG_CALLOC m size sz alloc)) <= memMax m
      /\ memMax (mesh (PMMG_CALLOC m size sz alloc)) = memMax m).
Proof.
  intros Hle Hsz. unfold PMMG_MALLOC, PMMG_CALLOC.
  destruct (size =? 0); [cbn; lia |]. cbn [negb].
  destruct (bytes_of_sized _ _ Hsz) as [-> Hpos]. unfold MEM_CHK_AVAIL.
  destruct (Z.gtb_spec (memCur m + size * sz) (memMax m)); [cbn; lia |].
  destruct (Z.ltb_spec (memCur m + size * sz) 0); destruct alloc; cbn; lia.
Qed.

Lemma realloc_ceiling (m : acct) (p : pointer) (n o sz : Z)
    (alloc : pointer) :
  memCur m <= memMax m -> sized n sz -> sized o sz ->
  match PMMG_REALLOC m p n o sz alloc with
  | Some e => memCur (mesh e) <= memMax m /\ memMax (mesh e) = memMax m
  | None => True
  end.
Proof.
  intros Hle Hn Ho. unfold PMMG_REALLOC. destruct p as [b |].
  - destruct (n =? 0); [now apply del_mem_ceiling |].
    destruct (Z.ltb_spec n o) as [Hlt | Hge].
    + destruct alloc; [| now apply del_mem_ceiling].
      destruct (bytes_of_sized _ _ Hn) as [-> _].
      destruct (bytes_of_sized _ _ Ho) as [-> _].
      destruct Hn as (_ & Hs & _). cbn. split; [nia | reflexivity].
    + destruct (Z.gtb_spec n o) as [Hgt | Heq]; [| cbn; lia].
      destruct (grow_sized _ _ _ Hn Ho) as [-> Hpos]; [lia |].
      unfold MEM_CHK_AVAIL.
      destruct (Z.gtb_spec (memCur m + (n - o) * sz) (memMax m));
        [cbn; lia |].
      destruct (Z.ltb_spec (memCur m + (n - o) * sz) 0); destruct alloc;
        cbn [fst snd Z.eqb PMMG_SUCCESS mesh realloc_failed];
        try (now apply del_mem_ceiling); cbn; lia.
  - destruct (o =? 0); [| exact I].
    apply (alloc_ceiling m n sz alloc Hle Hn).
Qed.

Lemma exec_ceiling (m : acct) (o : op) :
  memCur m <= memMax m -> op_sized o ->
  memCur (exec m o) <= memMax m /\ memMax (exec m o) = memMax m.
Proof.
  intros Hle Hs. destruct o as [size sz a | size sz a | p n o sz a
                               | p n o sz a | p size sz]; simpl in *.
  - apply (alloc_ceiling m size sz a Hle Hs).
  - apply (alloc_ceiling m size sz a Hle Hs).
  - destruct Hs as [Hn Ho].
    pose proof (realloc_ceiling m p n o sz a Hle Hn Ho) as H.
    destruct (PMMG_REALLOC m p n o sz a); [exact H | lia].
  - destruct Hs as [Hn Ho].
    pose proof (realloc_ceiling m p n o sz a Hle Hn Ho) as H.
    unfold PMMG_RECALLOC.
    destruct (PMMG_REALLOC m p n o sz a); [exact H | lia].
  - now apply del_mem_ceiling.
Qed.

(** X4: whatever the calls of [PMMG_MALLOC], [PMMG_CALLOC],
    [PMMG_REALLOC], [PMMG_RECALLOC] and [PMMG_DEL_MEM] (with sizes in
    range), whatever the allocator answers and even when more is released
    than was accounted, [memCur] never passes [memMax], and [memMax] is
    never changed: the ceiling is a hard one. *)
Theorem ceiling_never_exceeded (os : list op) : forall m0 : acct,
  memCur m0 <= memMax m0 -> Forall op_sized os ->
  Forall (fun m => memCur m <= memMax m0 /\ memMax m = memMax m0)
    (exec_trace m0 os).
Proof.
  induction os as [| o os IH]; intros m0 Hle Hs; simpl; [constructor |].
  apply Forall_cons in Hs as [Ho Hs].
  destruct (exec_ceiling m0 o Hle Ho) as [Hc Hm].
  constructor; [split; assumption |].
  assert (Hle' : memCur (exec m0 o) <= memMax (exec m0 o)) by lia.
  specialize (IH (exec m0 o) Hle' Hs).
  eapply Forall_impl; [exact IH |].
  intros m' [? ?]. split; lia.
Qed.

Lemma ceiling_never_exceeded_witness :
  Forall (fun m => memCur m <= 100 /\ memMax m = 100)
    (exec_trace (ex_acct 0)
       [OpMalloc 1 4 (Some 1%positive); OpDelMem (Some 1%positive) 5 4;
        OpCalloc 30 4 None; OpRealloc None 30 0 4 (Some 2%positive)]).
Proof.
  apply (ceiling_never_exceeded _ (ex_acct 0)); [vm_compute; discriminate |].
  repeat constructor; vm_compute; intuition discriminate.
Defined.

End MemMore.

(** ** More on PMMG_CLEAN_AND_RETURN *)

Section CleanMore.

Import Clean.

Lemma for_loop_alter_twice {A : Type} (f : A -> A) (n : nat) (l : list A) :
  (forall a, f (f a) = f a) ->
  for_loop n 0 (fun k l => alter f k l)
    (for_loop n 0 (fun k l => alter f k l) l)
  = for_loop n 0 (fun k l => alter f k l) l.
Proof.
  intros Hf. apply list_eq. intros i. rewrite !for_loop_alter_lookup.
  case_bool_decide as E; [| reflexivity].
  destruct (l !! i); simpl; [now rewrite Hf | reflexivity].
Qed.

Lemma synced_grp_idempotent (g : PMMG_pGrp) :
  synced_grp (synced_grp g) = synced_grp g.
Proof.
  unfold synced_grp.
  destruct g as [[x |] [s |] sols]; cbn; try reflexivity.
  all: unfold grp_set_sol; cbn; f_equal; apply for_loop_alter_twice;
    intros a; reflexivity.
Qed.

Lemma synced_grp_allocated (g : PMMG_pGrp) :
  sols_allocated (synced_grp g) = sols_allocated g.
Proof.
  unfold synced_grp, sols_allocated.
  destruct g as [[x |] [s |] sols]; cbn; try reflexivity.
  all: now rewrite for_loop_alter_length.
Qed.

Lemma forallb_synced (l : list PMMG_pGrp) :
  forallb sols_allocated (map synced_grp l) = forallb sols_allocated l.
Proof.
  induction l as [| g l IH]; cbn; [reflexivity |].
  now rewrite synced_grp_allocated, IH.
Qed.

(** X5: the cleanup of [PMMG_CLEAN_AND_RETURN] is idempotent: on a
    parmesh that the macro has returned, the macro returns again and
    changes nothing, for any number of groups and of solutions. *)
Theorem clean_return_idempotent (parmesh parmesh' : PMMG_pParMesh)
    (val v val' : Z) :
  PMMG_CLEAN_AND_RETURN parmesh val = Some (parmesh', v) ->
  PMMG_CLEAN_AND_RETURN parmesh' val' = Some (parmesh', val').
Proof.
  rewrite !clean_return_eq.
  destruct (forallb sols_allocated (PMMG_ParMesh.listgrp parmesh)) eqn:E;
    [| discriminate].
  intros [= <- <-]. unfold synced_parmesh at 1.
  cbn [parmesh_set_listgrp PMMG_ParMesh.listgrp].
  rewrite forallb_synced, E. do 2 f_equal. unfold synced_parmesh, parmesh_set_listgrp.
  cbn. f_equal. rewrite map_map. apply map_ext. intros g.
  apply synced_grp_idempotent.
Qed.

End CleanMore.

Lemma clean_return_idempotent_witness :
  Clean.PMMG_CLEAN_AND_RETURN (synced_parmesh (ex_parmesh 0)) 2
  = Some (synced_parmesh (ex_parmesh 0), 2).
Proof.
  apply (clean_return_idempotent (ex_parmesh 0) _ 1 1 2).
  vm_compute. reflexivity.
Defined.

(** ** The debugging aids *)

Section DebugFacts.

(** A loop whose body always appends is a [flat_map]. *)
Lemma loop_opt_app {A : Type} (f : Z -> list A)
    (body : Z -> list A -> option (list A)) (n : nat) :
  forall (from : Z) (s : list A),
    (forall k out, from <= k < from + Z.of_nat n ->
       body k out = Some (out ++ f k)) ->
    loop_opt n from body s = Some (s ++ flat_map f (seqZ from (Z.of_nat n))).
Proof.
  induction n as [| n IH]; intros from s H.
  - simpl. now rewrite app_nil_r.
  - cbn [loop_opt]. rewrite H by lia.
    rewrite IH by (intros k out Hk; apply H; lia).
    rewrite (seqZ_cons from) by lia. cbn [flat_map]. rewrite app_assoc.
    replace (Z.pred (Z.of_nat (S n))) with (Z.of_nat n) by lia.
    reflexivity.
Qed.

(** X6: given an adjacency array that holds the entries of the [ne]
    tetrahedra, [PMMG_adja_idx_of_face] passes its two assertions and
    reads inside the array exactly for the tetrahedra 1 to [ne] and the
    faces 0 to 3: element 0, element [ne + 1] and face 4 all fail. *)
Theorem adja_idx_defined_iff (mesh : MMG5_pMesh) (element face : Z) :
  adja_allocated mesh ->
  is_Some (PMMG_adja_idx_of_face mesh element face)
  <-> 1 <= element <= MMG5_Mesh.ne mesh /\ 0 <= face < 4.
Proof.
  intros Hlen. split.
  - intros [idx H]. unfold PMMG_adja_idx_of_face in H.
    destruct (Z.geb_spec face 0); cbn [andb negb] in H; [| discriminate].
    destruct (Z.ltb_spec face 4); cbn [andb negb] in H; [| discriminate].
    destruct (Z.gtb_spec (4 * (element - 1) + 1 + face) 0);
      cbn [andb negb] in H; [| discriminate].
    destruct (Z.ltb_spec (4 * (element - 1) + 1 + face)
                (4 * (MMG5_Mesh.ne mesh - 1) + 5));
      cbn [andb negb] in H; [| discriminate].
    lia.
  - intros [He Hf]. now apply adja_idx_defined.
Qed.

Lemma adja_idx_defined_iff_witness :
  is_Some (PMMG_adja_idx_of_face ex_mesh 2 0)
  /\ ~ is_Some (PMMG_adja_idx_of_face ex_mesh 3 0)
  /\ ~ is_Some (PMMG_adja_idx_of_face ex_mesh 0 3)
  /\ ~ is_Some (PMMG_adja_idx_of_face ex_mesh 1 4).
Proof.
  assert (H : adja_allocated ex_mesh) by (vm_compute; reflexivity).
  pose proof (adja_idx_defined_iff ex_mesh 2 0 H) as H1.
  pose proof (adja_idx_defined_iff ex_mesh 3 0 H) as H2.
  pose proof (adja_idx_defined_iff ex_mesh 0 3 H) as H3.
  pose proof (adja_idx_defined_iff ex_mesh 1 4 H) as H4.
  change (MMG5_Mesh.ne ex_mesh) with 2 in *.
  split; [apply H1; lia |].
  split; [| split]; intros E;
    [apply H2 in E | apply H3 in E | apply H4 in E]; lia.
Defined.

(** X7: the adjacency entries are packed as [4 * tetra + face]: when the
    entry of a face is [4 * t + f] with [t >= 0] and [f] from 0 to 3,
    [PMMG_adja_tetra_to_face] returns [t] and [PMMG_adja_face_to_face]
    returns [f]. *)
Theorem adja_unpack_round_trip (mesh : MMG5_pMesh) (element face t f : Z) :
  0 <= t -> 0 <= f < 4 ->
  PMMG_adja_idx_of_face mesh element face = Some (4 * t + f) ->
  PMMG_adja_tetra_to_face mesh element face = Some t
  /\ PMMG_adja_face_to_face mesh element face = Some f.
Proof.
  intros Ht Hf H. unfold PMMG_adja_tetra_to_face, PMMG_adja_face_to_face.
  rewrite H. rewrite Z.quot_div_nonneg, Z.rem_mod_nonneg by lia.
  split; f_equal.
  - symmetry. apply Z.div_unique with (r := f); lia.
  - symmetry. apply Z.mod_unique with (q := t); lia.
Qed.

Lemma adja_unpack_round_trip_witness :
  PMMG_adja_tetra_to_face ex_mesh 1 0 = Some 2
  /\ PMMG_adja_face_to_face ex_mesh 1 0 = Some 3.
Proof.
  apply (adja_unpack_round_trip ex_mesh 1 0 2 3); [lia | lia | reflexivity].
Defined.

Lemma adja_idx_nth (mesh : MMG5_pMesh) (k i : Z) :
  adja_allocated mesh -> 1 <= k <= MMG5_Mesh.ne mesh -> 0 <= i < 4 ->
  PMMG_adja_idx_of_face mesh k i
  = Some (nth (Z.to_nat (4 * (k - 1) + 1 + i)) (MMG5_Mesh.adja mesh) 0).
Proof.
  intros Hlen Hk Hi.
  destruct (adja_idx_defined mesh k i Hk Hi Hlen) as [idx H]. rewrite H.
  unfold PMMG_adja_idx_of_face in H.
  destruct (negb ((i >=? 0) && (i <? 4))); [discriminate |].
  destruct (negb _); [discriminate |].
  rewrite nth_lookup, H. reflexivity.
Qed.

Lemma adja_face_to_txt_ok (mesh : MMG5_pMesh) (k i : Z)
    (out : list adja_item) :
  adja_allocated mesh -> 1 <= k <= MMG5_Mesh.ne mesh -> 0 <= i < 4 ->
  adja_face_to_txt mesh k i out
  = Some (out ++
          (let idx :=
             nth (Z.to_nat (4 * (k - 1) + 1 + i)) (MMG5_Mesh.adja mesh) 0 in
           [Adja_idx i idx; Adja_pair (Z.quot idx 4) (Z.rem idx 4)])).
Proof.
  intros Hlen Hk Hi.
  unfold adja_face_to_txt, PMMG_adja_tetra_to_face, PMMG_adja_face_to_face.
  now rewrite (adja_idx_nth mesh k i Hlen Hk Hi).
Qed.

Lemma adja_tetra_to_txt_ok (mesh : MMG5_pMesh) (k : Z)
    (out : list adja_item) :
  adja_allocated mesh -> 1 <= k <= MMG5_Mesh.ne mesh ->
  match loop_opt 4 0 (adja_face_to_txt mesh k) (out ++ [Adja_tetra k]) with
  | Some out => Some (out ++ [Adja_newline])
  | None => None
  end = Some (out ++ adja_tetra_text mesh k).
Proof.
  intros Hlen Hk.
  rewrite (loop_opt_app
             (fun i =>
                let idx :=
                  nth (Z.to_nat (4 * (k - 1) + 1 + i))
                    (MMG5_Mesh.adja mesh) 0 in
                [Adja_idx i idx; Adja_pair (Z.quot idx 4) (Z.rem idx 4)])).
  - unfold adja_tetra_text. now rewrite <- !app_assoc.
  - intros i o Hi. apply adja_face_to_txt_ok; [assumption | assumption |].
    simpl in Hi. lia.
Qed.

(** X8: on groups whose meshes are allocated, each with an adjacency
    array that holds the entries of its tetrahedra,
    [PMMG_listgrp_meshes_adja_of_tetras_to_txt] trips no assertion of the
    accessors and reads inside the arrays: it writes, for each mesh, a
    header and a line for each tetrahedron from 1 to [ne] with, for the
    faces 0 to 3, the entry of the array, its quotient and its remainder
    by 4. *)
Theorem adja_dump_complete (fp : positive) (grp : list PMMG_pGrp) :
  Forall (fun g => exists mesh, PMMG_Grp.mesh g = Some mesh
                                /\ adja_allocated mesh) grp ->
  PMMG_listgrp_meshes_adja_of_tetras_to_txt (Some fp) grp
    (Z.of_nat (length grp))
  = Some (adja_text grp).
Proof.
  intros Hall. unfold PMMG_listgrp_meshes_adja_of_tetras_to_txt, adja_text.
  cbn [PMMG_my_fopen]. rewrite Nat2Z.id.
  rewrite (loop_opt_app
             (fun imsh =>
                match grp !! Z.to_nat imsh with
                | Some {| PMMG_Grp.mesh := Some mesh |} =>
                    [Adja_mesh imsh (MMG5_Mesh.ne mesh)]
                    ++ flat_map (adja_tetra_text mesh)
                         (seqZ 1 (MMG5_Mesh.ne mesh))
                | _ => []
                end)); [reflexivity |].
  intros imsh out Himsh.
  destruct (lookup_lt_is_Some_2 grp (Z.to_nat imsh)) as [g Hg]; [lia |].
  rewrite Hg. rewrite Forall_forall in Hall.
  destruct (Hall g) as (mesh & Hmesh & Hlen);
    [apply list_elem_of_lookup; eauto |].
  destruct g as [gm gmet gsol]. cbn in Hmesh. subst gm. cbn.
  rewrite (loop_opt_app (adja_tetra_text mesh)).
  - rewrite <- app_assoc. do 3 f_equal.
    destruct (Z_le_gt_dec 0 (MMG5_Mesh.ne mesh)) as [Hne | Hne].
    + now rewrite Z2Nat.id.
    + rewrite Z2Nat.nonpos by lia. now rewrite !seqZ_nil by lia.
  - intros k o Hk. apply adja_tetra_to_txt_ok; [assumption | lia].
Qed.

Lemma adja_dump_complete_witness :
  exists out,
    PMMG_listgrp_meshes_adja_of_tetras_to_txt (Some 1%positive)
      [ex_grp_with ex_info 5] 1 = Some out
    /\ length out = 21%nat /\ In (Adja_pair 2 3) out.
Proof.
  exists (adja_text [ex_grp_with ex_info 5]).
  split; [| split; [vm_compute; reflexivity | vm_compute; tauto]].
  apply (adja_dump_complete 1 [ex_grp_with ex_info 5]).
  repeat constructor. exists ex_mesh. split; [reflexivity |].
  vm_compute. reflexivity.
Defined.

Lemma null_vertices_eq (a b c d : Z) :
  null_vertices {| MMG5_Tetra.v := (a, b, c, d) |}
  = (if a =? 0 then 1 else 0) + (if b =? 0 then 1 else 0)
    + (if c =? 0 then 1 else 0) + (if d =? 0 then 1 else 0).
Proof.
  unfold null_vertices. cbn.
  destruct a, b, c, d; reflexivity.
Qed.

Lemma null_report_In (tetra : nat -> list MMG5_Tetra.t) (imsh ne i tet : Z) :
  In (Null_tetra i tet) (null_report tetra imsh ne)
  <-> i = imsh /\ 0 <= tet < ne
      /\ exists t, tetra (Z.to_nat imsh) !! Z.to_nat tet = Some t
                   /\ null_vertices t = 3.
Proof.
  unfold null_report. rewrite in_flat_map. split.
  - intros (k & Hk & Hin). apply list_elem_of_In, elem_of_seqZ in Hk.
    destruct (tetra (Z.to_nat imsh) !! Z.to_nat k) as [t |] eqn:E;
      [| destruct Hin].
    destruct (Z.eqb_spec (null_vertices t) 3) as [H3 | H3]; [| destruct Hin].
    destruct Hin as [[= <- <-] | []].
    split; [reflexivity |]. split; [lia |]. now exists t.
  - intros (-> & Ht & t & E & H3). exists tet.
    split; [apply list_elem_of_In, elem_of_seqZ; lia |].
    rewrite E, H3. cbn. now left.
Qed.

Lemma null_loop_ok (grp : list PMMG_pGrp)
    (tetra : nat -> list MMG5_Tetra.t) (imsh ne : Z)
    (out : list null_item) :
  ne <= Z.of_nat (length (tetra (Z.to_nat imsh))) ->
  loop_opt (Z.to_nat ne) 0
    (fun tet out =>
       match tetra (Z.to_nat imsh) !! Z.to_nat tet with
       | None => None
       | Some t =>
           Some (if null_vertices t =? 3
                 then out ++ [Null_tetra imsh tet] else out)
       end)
    out
  = Some (out ++ null_report tetra imsh ne).
Proof.
  intros Hlen. unfold null_report.
  rewrite (loop_opt_app
             (fun tet =>
                match tetra (Z.to_nat imsh) !! Z.to_nat tet with
                | Some t =>
                    if null_vertices t =? 3 then [Null_tetra imsh tet]
                    else []
                | None => []
                end)).
  - destruct (Z_le_gt_dec 0 ne) as [Hne | Hne].
    + now rewrite (Z2Nat.id ne).
    + rewrite (Z2Nat.nonpos ne) by lia. now rewrite !seqZ_nil by lia.
  - intros tet o Ht.
    destruct (lookup_lt_is_Some_2 (tetra (Z.to_nat imsh)) (Z.to_nat tet))
      as [t E]; [lia |].
    rewrite E. destruct (null_vertices t =? 3); [reflexivity |].
    now rewrite app_nil_r.
Qed.

(** X9: on groups whose meshes are allocated, with the entries 0 to
    [ne - 1] of their arrays of tetrahedra,
    [PMMG_find_tetras_referencing_null_points_to_txt] reports the
    tetrahedron [tet] of mesh [imsh] exactly when [tet] is from 0 to
    [ne - 1] and the counter of its null vertices is 3: a tetrahedron
    with three null vertices and one that is not is reported, one whose
    four vertices are null is not, and entry [ne] of the array is never
    looked at. *)
Theorem null_points_reported (fp : positive) (grp : list PMMG_pGrp)
    (tetra : nat -> list MMG5_Tetra.t) :
  tetra_allocated grp tetra ->
  exists out,
    PMMG_find_tetras_referencing_null_points_to_txt (Some fp) grp tetra
      (Z.of_nat (length grp)) = Some out
    /\ (forall imsh tet,
          In (Null_tetra imsh tet) out
          <-> exists g mesh t,
                0 <= imsh /\ grp !! Z.to_nat imsh = Some g
                /\ PMMG_Grp.mesh g = Some mesh
                /\ 0 <= tet < MMG5_Mesh.ne mesh
                /\ tetra (Z.to_nat imsh) !! Z.to_nat tet = Some t
                /\ null_vertices t = 3)
    /\ (forall imsh tet a b c d,
          In (Null_tetra imsh tet) out ->
          tetra (Z.to_nat imsh) !! Z.to_nat tet
          = Some {| MMG5_Tetra.v := (a, b, c, d) |} ->
          ~ (a = 0 /\ b = 0 /\ c = 0 /\ d = 0)).
Proof.
  intros Hall.
  set (f := fun imsh =>
              match grp !! Z.to_nat imsh with
              | Some {| PMMG_Grp.mesh := Some mesh |} =>
                  null_report tetra imsh (MMG5_Mesh.ne mesh)
              | _ => []
              end).
  assert (Hrun : PMMG_find_tetras_referencing_null_points_to_txt (Some fp)
                   grp tetra (Z.of_nat (length grp))
                 = Some (flat_map f (seqZ 0 (Z.of_nat (length grp))))).
  { unfold PMMG_find_tetras_referencing_null_points_to_txt.
    cbn [PMMG_my_fopen]. rewrite Nat2Z.id.
    rewrite (loop_opt_app f); [reflexivity |].
    intros imsh out Himsh. unfold f.
    destruct (lookup_lt_is_Some_2 grp (Z.to_nat imsh)) as [g Hg]; [lia |].
    rewrite Hg. destruct (Hall _ _ Hg) as (mesh & Hmesh & Hlen).
    destruct g as [gm gmet gsol]. cbn in Hmesh. subst gm. cbn.
    now apply null_loop_ok. }
  assert (Hin : forall imsh tet,
            In (Null_tetra imsh tet)
              (flat_map f (seqZ 0 (Z.of_nat (length grp))))
            <-> exists g mesh t,
                  0 <= imsh /\ grp !! Z.to_nat imsh = Some g
                  /\ PMMG_Grp.mesh g = Some mesh
                  /\ 0 <= tet < MMG5_Mesh.ne mesh
                  /\ tetra (Z.to_nat imsh) !! Z.to_nat tet = Some t
                  /\ null_vertices t = 3).
  { intros imsh tet. rewrite in_flat_map. split.
    - intros (k & Hk & Hi). apply list_elem_of_In, elem_of_seqZ in Hk.
      unfold f in Hi.
      destruct (grp !! Z.to_nat k) as [[[mesh |] gmet gsol] |] eqn:Hg;
        try destruct Hi.
      apply null_report_In in Hi. destruct Hi as (-> & Ht & t & E & H3).
      exists {| PMMG_Grp.mesh := Some mesh; PMMG_Grp.met := gmet;
                PMMG_Grp.sol := gsol |}, mesh, t.
      repeat split; try assumption; lia.
    - intros (g & mesh & t & H0 & Hg & Hmesh & Ht & E & H3).
      exists imsh. split.
      + apply list_elem_of_In, elem_of_seqZ.
        apply lookup_lt_Some in Hg. lia.
      + unfold f. rewrite Hg. destruct g as [gm gmet gsol]. cbn in Hmesh.
        subst gm. apply null_report_In. split; [reflexivity |].
        split; [assumption |]. now exists t. }
  eexists. split; [exact Hrun |]. split; [exact Hin |].
  intros imsh tet a b c d Hi E (-> & -> & -> & ->).
  apply Hin in Hi. destruct Hi as (g & mesh & t & _ & _ & _ & _ & E' & H3).
  rewrite E in E'. injection E' as <-. now rewrite null_vertices_eq in H3.
Qed.

Lemma null_points_reported_witness :
  exists out,
    PMMG_find_tetras_referencing_null_points_to_txt (Some 1%positive)
      [ex_grp_with ex_info 5]
      (fun _ => [{| MMG5_Tetra.v := (0, 0, 0, 0) |};
                 {| MMG5_Tetra.v := (0, 7, 0, 0) |};
                 {| MMG5_Tetra.v := (0, 0, 0, 9) |}]) 1 = Some out
    /\ (In (Null_tetra 0 1) out /\ ~ In (Null_tetra 0 0) out
        /\ ~ In (Null_tetra 0 2) out).
Proof.
  destruct (null_points_reported 1 [ex_grp_with ex_info 5]
              (fun _ => [{| MMG5_Tetra.v := (0, 0, 0, 0) |};
                         {| MMG5_Tetra.v := (0, 7, 0, 0) |};
                         {| MMG5_Tetra.v := (0, 0, 0, 9) |}]))
    as (out & Hout & Hin & Hnot).
  - intros [| imsh] g Hg; [| discriminate]. injection Hg as <-.
    exists ex_mesh. split; [reflexivity | vm_compute; discriminate].
  - exists out. split; [exact Hout |]. split; [| split].
    + apply Hin. exists (ex_grp_with ex_info 5), ex_mesh,
        {| MMG5_Tetra.v := (0, 7, 0, 0) |}.
      repeat split; try reflexivity; vm_compute; congruence.
    + intros H. apply (Hnot 0 0 0 0 0 0 H); [reflexivity | tauto].
    + intros H. apply Hin in H.
      destruct H as (g & mesh & t & _ & Hg & Hm & Ht & _).
      cbn in Hg. injection Hg as <-. cbn in Hm. injection Hm as <-.
      cbn in Ht. lia.
Defined.

Lemma loop_opt_repeat {A : Type} (x : A) (n : nat) :
  forall (from : Z) (s : list A),
    loop_opt n from (fun _ out => Some (out ++ [x])) s
    = Some (s ++ repeat x n).
Proof.
  induction n as [| n IH]; intros from s; cbn.
  - now rewrite app_nil_r.
  - rewrite IH, <- app_assoc. reflexivity.
Qed.

(** X10: whatever the tetrahedra of the mesh, [PMMG_tetras_of_mesh_to_txt]
    writes, after its header, [ne + 1] times the same line: the vertices
    of the first entry of the array [tetra], the only one it reads. *)
Theorem tetras_dump_repeats_first (fp : positive) (mesh : MMG5_pMesh)
    (a b c d : Z) (rest : list MMG5_Tetra.t) (num : Z) :
  PMMG_tetras_of_mesh_to_txt (Some fp) (Some mesh)
    ({| MMG5_Tetra.v := (a, b, c, d) |} :: rest) num
  = Some (Tetra_header num (MMG5_Mesh.ne mesh) (MMG5_Mesh.nei mesh)
          :: repeat (Tetra_line a b c d)
               (Z.to_nat (MMG5_Mesh.ne mesh + 1))).
Proof.
  unfold PMMG_tetras_of_mesh_to_txt. cbn [PMMG_my_fopen lookup list_lookup].
  cbn [MMG5_Tetra.v]. now rewrite loop_opt_repeat.
Qed.

(** *** File names *)

Lemma decimal_one_digit (n : Z) : n < 10 -> decimal n = [digit n].
Proof.
  intros H. unfold decimal. cbn [digits].
  destruct (Z.ltb_spec n 10); [reflexivity | lia].
Qed.

Lemma digits_nonempty (f : nat) (n : Z) :
  (1 <= length (digits (Datatypes.S f) n))%nat.
Proof.
  cbn [digits]. destruct (n <? 10); [simpl; lia |].
  rewrite length_app. simpl. lia.
Qed.

Lemma decimal_two_digits (n : Z) :
  10 <= n < 100 -> length (decimal n) = 2%nat.
Proof.
  intros H. unfold decimal.
  assert (Hl : 3 <= Z.log2 n).
  { change 3 with (Z.log2 10). apply Z.log2_le_mono. lia. }
  destruct (Z.to_nat (Z.log2 n)) as [| f] eqn:E; [lia |].
  cbn [digits]. destruct (Z.ltb_spec n 10); [lia |].
  destruct (Z.ltb_spec (n / 10) 10) as [_ | Hge].
  - reflexivity.
  - assert (n / 10 < 10) by (apply Z.div_lt_upper_bound; lia). lia.
Qed.

Lemma decimal_three_digits (n : Z) :
  100 <= n -> (3 <= length (decimal n))%nat.
Proof.
  intros H. unfold decimal.
  assert (Hl : 6 <= Z.log2 n).
  { change 6 with (Z.log2 100). apply Z.log2_le_mono. lia. }
  destruct (Z.to_nat (Z.log2 n)) as [| [| f]] eqn:E; [lia | lia |].
  cbn [digits]. destruct (Z.ltb_spec n 10); [lia |].
  assert (10 <= n / 10) by (apply Z.div_le_lower_bound; lia).
  destruct (Z.ltb_spec (n / 10) 10); [lia |].
  rewrite !length_app. pose proof (digits_nonempty f (n / 10 / 10)) as Hd.
  cbn [digits] in Hd. cbn [length]. lia.
Qed.

Lemma fmt_02d_length (n : Z) :
  (- 9 <= n <= 99 -> length (fmt_02d n) = 2%nat)
  /\ (n < - 9 \/ 99 < n -> (3 <= length (fmt_02d n))%nat).
Proof.
  unfold fmt_02d. split.
  - intros H. destruct (Z.ltb_spec n 0).
    + rewrite decimal_one_digit by lia. reflexivity.
    + destruct (Z.ltb_spec n 10).
      * rewrite decimal_one_digit by lia. reflexivity.
      * apply decimal_two_digits. lia.
  - intros H. destruct (Z.ltb_spec n 0).
    + cbn [lit list_ascii_of_string app length].
      destruct (Z_lt_le_dec (- n) 100).
      * rewrite decimal_two_digits by lia. lia.
      * pose proof (decimal_three_digits (- n)). lia.
    + destruct (Z.ltb_spec n 10); [lia |].
      apply decimal_three_digits. lia.
Qed.

(** X11: the name ["mem_info-%02d.txt"] that
    [PMMG_dump_malloc_allocator_info] prints in [char name[16]] fills
    the array exactly for an [id] of two characters: the function stays
    inside the array for the [id] from -9 to 99 and writes past its end
    for every other one, from 100 processes on. *)
Theorem mem_info_name_fits_iff (fp : positive) (id : Z) (me : mallinfo) :
  is_Some (PMMG_dump_malloc_allocator_info (Some fp) id me)
  <-> - 9 <= id <= 99.
Proof.
  unfold PMMG_dump_malloc_allocator_info, sprintf_size.
  cbn [PMMG_my_fopen]. rewrite !length_app.
  change (length (lit "mem_info-")) with 9%nat.
  change (length (lit ".txt")) with 4%nat.
  destruct (fmt_02d_length id) as [Hin Hout].
  destruct (Z.ltb_spec 16 (Z.of_nat (9 + (length (fmt_02d id) + 4)) + 1))
    as [Hlt | Hle]; split.
  - intros [x Hx]. discriminate.
  - intros H. rewrite (Hin H) in Hlt. simpl in Hlt. lia.
  - intros _. destruct (Z_le_gt_dec (- 9) id); [| specialize (Hout ltac:(lia)); lia].
    destruct (Z_le_gt_dec id 99); [lia | specialize (Hout ltac:(lia)); lia].
  - intros _. eexists. reflexivity.
Qed.

(** *** PMMG_check_mem_max_and_mem_cur *)

Lemma sum_size_t_mod (field : MMG5_pMesh -> Z) (meshes : list MMG5_pMesh) :
  forall first,
    sum_size_t first field meshes = (total first field meshes) mod 2 ^ 64.
Proof.
  unfold sum_size_t, total.
  induction meshes as [| mesh meshes IH]; intros first; cbn.
  - unfold to_size_t. now rewrite Z.add_0_r.
  - change (to_size_t (to_size_t first + field mesh))
      with (to_size_t ((first mod 2 ^ 64) + field mesh)).
    rewrite IH. rewrite <- Z.add_assoc.
    now rewrite Zplus_mod_idemp_l.
Qed.

Lemma total_le (f g : MMG5_pMesh -> Z) (meshes : list MMG5_pMesh)
    (a b : Z) :
  0 <= a <= b -> Forall (fun mesh => 0 <= f mesh <= g mesh) meshes ->
  0 <= total a f meshes <= total b g meshes.
Proof.
  unfold total. intros Hab H. induction H as [| mesh meshes Hm _ IH]; cbn.
  - lia.
  - lia.
Qed.

(** X12: on a parmesh whose meshes are allocated and whose accounts are
    kept ([0 <= memCur <= memMax] on the parmesh and on every mesh, the
    totals fitting a [size_t]), [PMMG_check_mem_max_and_mem_cur] is
    silent exactly when the total of the [memMax] is at most
    [memGloMax], and it never reports the [memCur] alone: a [memCur]
    error comes with a [memMax] error. *)
Theorem mem_check_reports (parmesh : PMMG_pParMesh) (memGloMax : Z)
    (meshes : list MMG5_pMesh) :
  mapM PMMG_Grp.mesh (PMMG_ParMesh.listgrp parmesh) = Some meshes ->
  accounts_kept parmesh meshes ->
  total_memMax parmesh meshes < 2 ^ 64 -> 0 <= memGloMax < 2 ^ 64 ->
  exists out,
    PMMG_check_mem_max_and_mem_cur parmesh memGloMax = Some out
    /\ (out = [] <-> total_memMax parmesh meshes <= memGloMax)
    /\ (existsb is_memCur_error out = true
        <-> memGloMax < total_memCur parmesh meshes)
    /\ (existsb is_memCur_error out = true ->
        existsb is_memMax_error out = true).
Proof.
  intros Hm [Hp Hms] Hfit HG. unfold PMMG_check_mem_max_and_mem_cur.
  rewrite Hm. rewrite !sum_size_t_mod.
  fold (total_memCur parmesh meshes). fold (total_memMax parmesh meshes).
  pose proof (total_le MMG5_Mesh.memCur MMG5_Mesh.memMax meshes _ _ Hp Hms)
    as Hle.
  fold (total_memCur parmesh meshes) in Hle.
  fold (total_memMax parmesh meshes) in Hle.
  unfold to_size_t. rewrite !Z.mod_small by lia.
  eexists. split; [reflexivity |].
  destruct (Z.gtb_spec (total_memCur parmesh meshes) memGloMax);
    destruct (Z.gtb_spec (total_memMax parmesh meshes) memGloMax);
    cbn; repeat split; intros; try discriminate; try lia; reflexivity.
Qed.

Lemma mem_check_reports_witness :
  PMMG_check_mem_max_and_mem_cur (ex_parmesh 0) 6000
  = Some [MemMax_error 6144].
Proof.
  assert (Hk : accounts_kept (ex_parmesh 0) [ex_mesh]).
  { split; [vm_compute; intuition discriminate |].
    repeat constructor; vm_compute; discriminate. }
  destruct (mem_check_reports (ex_parmesh 0) 6000 [ex_mesh] eq_refl Hk)
    as (out & Hout & _); [reflexivity | vm_compute; intuition discriminate |].
  rewrite Hout. vm_compute in Hout. now injection Hout as <-.
Defined.

(** X13: when more was released than was accounted, so that the total of
    the [memCur] is negative, the sum that
    [PMMG_check_mem_max_and_mem_cur] makes in a [size_t] wraps around and
    the check reports a [memCur] error, of [2^64] more than the total,
    whatever [memGloMax] (below [2^63]). *)
Theorem mem_check_reports_over_release (parmesh : PMMG_pParMesh)
    (memGloMax : Z) (meshes : list MMG5_pMesh) :
  mapM PMMG_Grp.mesh (PMMG_ParMesh.listgrp parmesh) = Some meshes ->
  - 2 ^ 63 <= total_memCur parmesh meshes < 0 ->
  0 <= memGloMax < 2 ^ 63 ->
  exists out,
    PMMG_check_mem_max_and_mem_cur parmesh memGloMax = Some out
    /\ In (MemCur_error (total_memCur parmesh meshes + 2 ^ 64)) out.
Proof.
  intros Hm Hneg HG. unfold PMMG_check_mem_max_and_mem_cur.
  rewrite Hm. rewrite !sum_size_t_mod.
  fold (total_memCur parmesh meshes).
  assert (E : total_memCur parmesh meshes mod 2 ^ 64
              = total_memCur parmesh meshes + 2 ^ 64).
  { symmetry. apply Z.mod_unique with (q := -1); lia. }
  rewrite E. unfold to_size_t at 1. rewrite (Z.mod_small memGloMax) by lia.
  eexists. split; [reflexivity |].
  destruct (Z.gtb_spec (total_memCur parmesh meshes + 2 ^ 64) memGloMax);
    [| lia].
  apply in_or_app. left. now left.
Qed.

Lemma mem_check_reports_over_release_witness :
  exists out,
    PMMG_check_mem_max_and_mem_cur
      (ex_parmesh_with_mem 0 (- 16) 0) 1000 = Some out
    /\ In (MemCur_error (2 ^ 64 - 16)) out.
Proof.
  destruct (mem_check_reports_over_release
              (ex_parmesh_with_mem 0 (- 16) 0) 1000
              [ex_mesh_with_mem (- 16)])
    as (out & Hout & Hin); try (vm_compute; intuition discriminate).
  exists out. split; [exact Hout | exact Hin].
Defined.

(** *** PMMG_grplst_meshes_to_saveMesh *)

Lemma fmt_02d_below_1000 (n : Z) :
  0 <= n < 1000 ->
  digits_value (fmt_02d n) = n /\ (length (fmt_02d n) <= 3)%nat.
Proof.
  intros H.
  assert (Hall : forallb (fun i => (digits_value (fmt_02d i) =? i)
                                   && (length (fmt_02d i) <=? 3)%nat)
                   (seqZ 0 1000) = true) by (vm_compute; reflexivity).
  rewrite forallb_forall in Hall.
  specialize (Hall n (proj1 (list_elem_of_In _ _)
                        (proj2 (elem_of_seqZ 0 1000 n) ltac:(lia)))).
  apply andb_true_iff in Hall as [H1 H2].
  apply Z.eqb_eq in H1. apply Nat.leb_le in H2. now split.
Qed.

Lemma save_name_fits (basename : list ascii) (rank grpId : Z)
    (ext : list ascii) :
  Z.of_nat (length basename) < 2048 - 14 ->
  0 <= rank < 1000 -> 0 <= grpId < 1000 -> (length ext <= 5)%nat ->
  (2048 <? sprintf_size (save_name basename rank grpId ext)) = false.
Proof.
  intros Hb Hr Hg He. apply Z.ltb_ge. unfold sprintf_size, save_name.
  rewrite !length_app.
  destruct (fmt_02d_below_1000 rank Hr) as [_ H1].
  destruct (fmt_02d_below_1000 grpId Hg) as [_ H2].
  change (length (lit "-P")) with 2%nat. change (length (lit "-")) with 1%nat.
  lia.
Qed.

Lemma save_loop (K : Collaborators) (listgrp : list PMMG_pGrp)
    (rank : Z) (basename : list ascii) (n : nat) :
  Z.of_nat (length basename) < 2048 - 14 -> 0 <= rank < 1000 ->
  forall (from : Z) (out : list save_item) (grps : list PMMG_pGrp),
    0 <= from -> from + Z.of_nat n <= 1000 ->
    length grps = length listgrp ->
    (forall k, (Z.to_nat from <= k)%nat -> grps !! k = listgrp !! k) ->
    (forall k, (Z.to_nat from <= k < Z.to_nat from + n)%nat ->
       exists g, listgrp !! k = Some g /\ grp_allocated g) ->
    exists grps',
      loop_opt n from (saveMesh_body K rank basename) (out, grps)
      = Some (out ++ flat_map (save_group K listgrp rank basename)
                       (seqZ from (Z.of_nat n)), grps')
      /\ length grps' = length listgrp.
Proof.
  intros Hb Hr. induction n as [| n IH];
    intros from out grps H0 Hmax Hlen Htail Hall.
  - exists grps. cbn. now rewrite app_nil_r.
  - cbn [loop_opt]. unfold saveMesh_body at 1.
    rewrite save_name_fits by (try assumption; try lia; simpl; lia).
    rewrite (Htail (Z.to_nat from)) by lia.
    destruct (Hall (Z.to_nat from)) as (g & Hg & [mesh Hmesh] & [met Hmet]);
      [lia |].
    rewrite Hg, Hmesh, Hmet.
    destruct (MMG3D_hashTetra K mesh 1) as [r1 mesh1] eqn:E1.
    destruct (MMG3D_bdryBuild K mesh1) as [r2 mesh2] eqn:E2.
    assert (Hgrp : save_group K listgrp rank basename from
                   = Save_mesh (save_name basename rank from (lit ".mesh"))
                       mesh2
                     :: match MMG5_Sol.m met with
                        | Some _ =>
                            [Save_sol (save_name basename rank from
                                         (lit ".sol"))]
                        | None => []
                        end).
    { unfold save_group. rewrite Hg. destruct g as [gm gmet gsol].
      cbn in Hmesh, Hmet. subst gm gmet. rewrite E1. cbn [snd].
      now rewrite E2. }
    set (grps1 := <[Z.to_nat from := Clean.grp_set_mesh (Some mesh2) g]> grps).
    assert (Hnext : forall out1,
              exists grps',
                loop_opt n (from + 1) (saveMesh_body K rank basename)
                  (out1, grps1)
                = Some (out1 ++ flat_map (save_group K listgrp rank basename)
                                  (seqZ (from + 1) (Z.of_nat n)), grps')
                /\ length grps' = length listgrp).
    { intros out1. apply IH.
      - lia.
      - lia.
      - unfold grps1. now rewrite length_insert.
      - intros k Hk. unfold grps1.
        rewrite list_lookup_insert_ne by lia. apply Htail. lia.
      - intros k Hk. apply Hall. lia. }
    rewrite (seqZ_cons from) by lia. cbn [flat_map]. rewrite Hgrp.
    replace (Z.pred (Z.of_nat (S n))) with (Z.of_nat n) by lia.
    change (Z.succ from) with (from + 1).
    destruct (MMG5_Sol.m met) as [m |].
    + rewrite save_name_fits by (try assumption; try lia; simpl; lia).
      destruct (Hnext ((out ++ [Save_mesh (save_name basename rank from
                                             (lit ".mesh")) mesh2])
                       ++ [Save_sol (save_name basename rank from
                                       (lit ".sol"))]))
        as (grps' & Hrun & Hl).
      exists grps'. split; [| exact Hl]. rewrite Hrun.
      cbn [app]. now rewrite <- !app_assoc.
    + destruct (Hnext (out ++ [Save_mesh (save_name basename rank from
                                            (lit ".mesh")) mesh2]))
        as (grps' & Hrun & Hl).
      exists grps'. split; [| exact Hl]. rewrite Hrun.
      cbn [app]. now rewrite <- !app_assoc.
Qed.

(** X14: with a base name that passes the assertion, a rank below 1000,
    at most 1000 groups and every group holding a mesh and a metric,
    [PMMG_grplst_meshes_to_saveMesh] fills no name past the end of its
    buffer and writes, group after group, the mesh as
    [MMG3D_hashTetra] and [MMG3D_bdryBuild] left it, whatever they
    returned, followed by the metric when its array is allocated; the
    number of groups is unchanged. *)
Theorem save_meshes_written (K : Collaborators) (listgrp : list PMMG_pGrp)
    (ngrp rank : Z) (basename : list ascii) :
  Z.of_nat (length basename) < 2048 - 14 -> 0 <= rank < 1000 ->
  ngrp <= 1000 -> ngrp <= Z.of_nat (length listgrp) ->
  Forall grp_allocated listgrp ->
  exists grps',
    PMMG_grplst_meshes_to_saveMesh K listgrp ngrp rank basename
    = Some (flat_map (save_group K listgrp rank basename) (seqZ 0 ngrp),
            grps')
    /\ length grps' = length listgrp.
Proof.
  intros Hb Hr Hn Hlen Hall. unfold PMMG_grplst_meshes_to_saveMesh.
  replace (Z.of_nat (length basename) <? 2048 - 14) with true
    by (symmetry; apply Z.ltb_lt; lia).
  cbn [negb].
  destruct (save_loop K listgrp rank basename (Z.to_nat ngrp) Hb Hr
              0 [] listgrp) as (grps' & Hrun & Hl).
  - lia.
  - lia.
  - reflexivity.
  - reflexivity.
  - intros k Hk.
    destruct (lookup_lt_is_Some_2 listgrp k ltac:(lia)) as [g Hg].
    exists g. split; [exact Hg |].
    rewrite Forall_forall in Hall. apply Hall.
    eapply list_elem_of_lookup_2. exact Hg.
  - exists grps'. split; [| exact Hl]. rewrite Hrun. cbn [app].
    destruct (Z_le_gt_dec 0 ngrp) as [H0 | H0].
    + now rewrite Z2Nat.id by lia.
    + rewrite Z2Nat.nonpos by lia. now rewrite !seqZ_nil by lia.
Qed.

Lemma save_meshes_written_witness :
  exists grps',
    PMMG_grplst_meshes_to_saveMesh ex_K_ok
      [ex_grp_with ex_info 5; ex_grp_with ex_info 0] 2 3 (lit "out")
    = Some (flat_map (save_group ex_K_ok
                        [ex_grp_with ex_info 5; ex_grp_with ex_info 0]
                        3 (lit "out")) (seqZ 0 2), grps')
    /\ length grps' = 2%nat.
Proof.
  apply (save_meshes_written ex_K_ok
           [ex_grp_with ex_info 5; ex_grp_with ex_info 0] 2 3 (lit "out")).
  - vm_compute. reflexivity.
  - lia.
  - lia.
  - cbn. lia.
  - repeat constructor; cbn; eauto.
Defined.

Lemma fmt_02d_digits (n : Z) :
  0 <= n < 1000 -> forallb is_digit (fmt_02d n) = true.
Proof.
  intros H.
  assert (Hall : forallb (fun i => forallb is_digit (fmt_02d i))
                   (seqZ 0 1000) = true) by (vm_compute; reflexivity).
  rewrite forallb_forall in Hall.
  exact (Hall n (proj1 (list_elem_of_In _ _)
                   (proj2 (elem_of_seqZ 0 1000 n) ltac:(lia)))).
Qed.

(** Two texts that start with digits followed by another character agree
    on the digits. *)
Lemma digits_prefix_unique (l1 : list ascii) :
  forall (l2 : list ascii) (c1 c2 : ascii) (r1 r2 : list ascii),
    forallb is_digit l1 = true -> forallb is_digit l2 = true ->
    is_digit c1 = false -> is_digit c2 = false ->
    l1 ++ c1 :: r1 = l2 ++ c2 :: r2 ->
    l1 = l2 /\ r1 = r2.
Proof.
  induction l1 as [| a l1 IH]; intros [| b l2] c1 c2 r1 r2 H1 H2 Hc1 Hc2 E;
    cbn in *.
  - injection E as _ E. now split.
  - injection E as -> _. apply andb_true_iff in H2 as [H2 _]. congruence.
  - injection E as <- _. apply andb_true_iff in H1 as [H1 _]. congruence.
  - injection E as <- E.
    apply andb_true_iff in H1 as [_ H1]. apply andb_true_iff in H2 as [_ H2].
    destruct (IH l2 c1 c2 r1 r2 H1 H2 Hc1 Hc2 E) as [-> ->]. now split.
Qed.

Lemma fmt_02d_inj (n m : Z) :
  0 <= n < 1000 -> 0 <= m < 1000 -> fmt_02d n = fmt_02d m -> n = m.
Proof.
  intros Hn Hm E.
  destruct (fmt_02d_below_1000 n Hn) as [<- _].
  destruct (fmt_02d_below_1000 m Hm) as [<- _]. now rewrite E.
Qed.

(** The names are distinct for distinct ranks, groups or extensions. *)
Lemma save_name_inj (basename : list ascii) (r1 r2 i1 i2 : Z)
    (e1 e2 : list ascii) :
  0 <= r1 < 1000 -> 0 <= r2 < 1000 -> 0 <= i1 < 1000 -> 0 <= i2 < 1000 ->
  In e1 [lit ".mesh"; lit ".sol"] -> In e2 [lit ".mesh"; lit ".sol"] ->
  save_name basename r1 i1 e1 = save_name basename r2 i2 e2 ->
  r1 = r2 /\ i1 = i2 /\ e1 = e2.
Proof.
  intros Hr1 Hr2 Hi1 Hi2 He1 He2 E. unfold save_name in E.
  apply app_inv_head in E. cbn [lit list_ascii_of_string app] in E.
  injection E as E.
  apply digits_prefix_unique in E as [Er E];
    try (apply fmt_02d_digits; assumption); try reflexivity.
  apply fmt_02d_inj in Er; try assumption. subst r2.
  assert (Hdot : forall e, In e [lit ".mesh"; lit ".sol"] ->
                           exists t, e = "."%char :: t).
  { intros e [<- | [<- | []]]; eexists; reflexivity. }
  destruct (Hdot e1 He1) as [t1 ->]. destruct (Hdot e2 He2) as [t2 ->].
  apply digits_prefix_unique in E as [Ei E];
    try (apply fmt_02d_digits; assumption); try reflexivity.
  apply fmt_02d_inj in Ei; try assumption. subst. auto.
Qed.

Lemma save_names_In (basename : list ascii) (rank from : Z) (n : nat)
    (f : list ascii) :
  In f (flat_map (save_names basename rank) (seqZ from (Z.of_nat n))) ->
  exists i e, from <= i < from + Z.of_nat n
              /\ In e [lit ".mesh"; lit ".sol"]
              /\ f = save_name basename rank i e.
Proof.
  intros H. apply in_flat_map in H as (i & Hi & Hf).
  apply list_elem_of_In, elem_of_seqZ in Hi.
  destruct Hf as [<- | [<- | []]].
  - exists i, (lit ".mesh"). cbn. auto.
  - exists i, (lit ".sol"). cbn. auto.
Qed.

Lemma save_names_NoDup (basename : list ascii) (rank : Z) (n : nat) :
  0 <= rank < 1000 ->
  forall from, 0 <= from -> from + Z.of_nat n <= 1000 ->
    NoDup (flat_map (save_names basename rank) (seqZ from (Z.of_nat n))).
Proof.
  intros Hr. induction n as [| n IH]; intros from H0 Hmax.
  - cbn. constructor.
  - rewrite (seqZ_cons from) by lia. cbn [flat_map].
    replace (Z.pred (Z.of_nat (S n))) with (Z.of_nat n) by lia.
    change (Z.succ from) with (from + 1).
    unfold save_names at 1. cbn [app].
    assert (Hlater : forall e, In e [lit ".mesh"; lit ".sol"] ->
              ~ In (save_name basename rank from e)
                  (flat_map (save_names basename rank)
                     (seqZ (from + 1) (Z.of_nat n)))).
    { intros e He Hin. apply save_names_In in Hin as (i & e' & Hi & He' & E).
      apply save_name_inj in E as (_ & E & _); try assumption; lia. }
    apply NoDup_cons_2; [| apply NoDup_cons_2].
    + intros Hin. apply list_elem_of_In in Hin as [E | Hin].
      * symmetry in E.
        apply save_name_inj in E as (_ & _ & E); try assumption;
          try lia; try (cbn; auto; fail). discriminate E.
      * revert Hin. apply Hlater. cbn. auto.
    + intros Hin. apply list_elem_of_In in Hin. revert Hin.
      apply Hlater. cbn. auto.
    + apply IH; lia.
Qed.

(** The names of the files of a run that returned are among the names
    built, in their order. *)
Lemma save_loop_names (K : Collaborators) (rank : Z)
    (basename : list ascii) (n : nat) :
  forall (from : Z) (out out' : list save_item) (grps grps' : list PMMG_pGrp),
    loop_opt n from (saveMesh_body K rank basename) (out, grps)
    = Some (out', grps') ->
    exists names,
      map save_file out' = map save_file out ++ names
      /\ sublist names
           (flat_map (save_names basename rank) (seqZ from (Z.of_nat n))).
Proof.
  induction n as [| n IH]; intros from out out' grps grps' H.
  - cbn in H. injection H as <- <-. exists []. rewrite app_nil_r.
    split; [reflexivity | constructor].
  - cbn [loop_opt] in H.
    destruct (saveMesh_body K rank basename from (out, grps))
      as [[out1 grps1] |] eqn:Hbody; [| discriminate H].
    destruct (IH _ _ _ _ _ H) as (names & Hnames & Hsub).
    rewrite (seqZ_cons from) by lia. cbn [flat_map].
    replace (Z.pred (Z.of_nat (S n))) with (Z.of_nat n) by lia.
    change (Z.succ from) with (from + 1).
    unfold saveMesh_body in Hbody.
    destruct (2048 <? sprintf_size _); [discriminate Hbody |].
    destruct (grps !! Z.to_nat from) as [g |]; [| discriminate Hbody].
    destruct (PMMG_Grp.mesh g) as [mesh |]; [| discriminate Hbody].
    destruct (PMMG_Grp.met g) as [met |]; [| discriminate Hbody].
    destruct (MMG3D_hashTetra K mesh 1) as [r1 mesh1].
    destruct (MMG3D_bdryBuild K mesh1) as [r2 mesh2].
    destruct (MMG5_Sol.m met) as [m |].
    + destruct (2048 <? sprintf_size _); [discriminate Hbody |].
      injection Hbody as <- <-.
      exists (save_names basename rank from ++ names). split.
      * rewrite Hnames, !map_app. cbn. now rewrite <- !app_assoc.
      * apply sublist_app; [reflexivity | exact Hsub].
    + injection Hbody as <- <-.
      exists (save_name basename rank from (lit ".mesh") :: names). split.
      * rewrite Hnames, !map_app. cbn. now rewrite <- !app_assoc.
      * unfold save_names. cbn [app]. apply sublist_skip, sublist_cons.
        exact Hsub.
Qed.

Lemma save_run_names (K : Collaborators) (listgrp : list PMMG_pGrp)
    (ngrp rank : Z) (basename : list ascii)
    (out : list save_item) (grps' : list PMMG_pGrp) :
  PMMG_grplst_meshes_to_saveMesh K listgrp ngrp rank basename
  = Some (out, grps') ->
  sublist (map save_file out)
    (flat_map (save_names basename rank)
       (seqZ 0 (Z.of_nat (Z.to_nat ngrp)))).
Proof.
  unfold PMMG_grplst_meshes_to_saveMesh. intros H.
  destruct (negb _); [discriminate H |].
  apply save_loop_names in H as (names & -> & Hsub). exact Hsub.
Qed.

(** X15: the names that one call of [PMMG_grplst_meshes_to_saveMesh]
    passes to [MMG3D_saveMesh] and [MMG3D_saveSol] are pairwise distinct,
    and two calls with the same base name and different ranks pass no name
    in common, for ranks below 1000 and at most 1000 groups: no file is
    written twice. *)
Theorem saved_files_distinct (K1 K2 : Collaborators)
    (l1 l2 : list PMMG_pGrp) (n1 n2 r1 r2 : Z) (basename : list ascii)
    (out1 out2 : list save_item) (g1 g2 : list PMMG_pGrp) :
  0 <= r1 < 1000 -> 0 <= r2 < 1000 -> n1 <= 1000 -> n2 <= 1000 ->
  PMMG_grplst_meshes_to_saveMesh K1 l1 n1 r1 basename = Some (out1, g1) ->
  PMMG_grplst_meshes_to_saveMesh K2 l2 n2 r2 basename = Some (out2, g2) ->
  NoDup (map save_file out1)
  /\ (r1 <> r2 ->
      forall f, In f (map save_file out1) -> ~ In f (map save_file out2)).
Proof.
  intros Hr1 Hr2 Hn1 Hn2 H1 H2.
  apply save_run_names in H1, H2. split.
  - eapply sublist_NoDup; [| exact H1].
    apply save_names_NoDup; [assumption | lia | lia].
  - intros Hne f Hf1 Hf2.
    apply list_elem_of_In in Hf1, Hf2.
    apply (fun H => elem_of_sublist _ _ _ H H1), list_elem_of_In,
      save_names_In in Hf1 as (i1 & e1 & Hi1 & He1 & ->).
    apply (fun H => elem_of_sublist _ _ _ H H2), list_elem_of_In,
      save_names_In in Hf2 as (i2 & e2 & Hi2 & He2 & E).
    apply save_name_inj in E as (E & _); try assumption; try lia.
Qed.

Lemma saved_files_distinct_witness :
  NoDup (map save_file
           (flat_map (save_group ex_K_ok
                        [ex_grp_with ex_info 5; ex_grp_with ex_info 0]
                        3 (lit "out")) (seqZ 0 2)))
  /\ (3 <> 4 ->
      forall f,
        In f (map save_file
                (flat_map (save_group ex_K_ok
                             [ex_grp_with ex_info 5; ex_grp_with ex_info 0]
                             3 (lit "out")) (seqZ 0 2))) ->
        ~ In f (map save_file
                  (flat_map (save_group ex_K_ok [ex_grp_with ex_info 5]
                               4 (lit "out")) (seqZ 0 1)))).
Proof.
  apply (saved_files_distinct ex_K_ok ex_K_ok
           [ex_grp_with ex_info 5; ex_grp_with ex_info 0]
           [ex_grp_with ex_info 5] 2 1 3 4 (lit "out") _ _
           (snd (default ([], []) (PMMG_grplst_meshes_to_saveMesh ex_K_ok
              [ex_grp_with ex_info 5; ex_grp_with ex_info 0] 2 3
              (lit "out"))))
           (snd (default ([], []) (PMMG_grplst_meshes_to_saveMesh ex_K_ok
              [ex_grp_with ex_info 5] 1 4 (lit "out")))));
    try lia; vm_compute; reflexivity.
Defined.

End DebugFacts.

(** ** More on the entry points *)

Section DevoteMemory.

Variable K : Collaborators.

Lemma total_head (first a : Z) (field : MMG5_pMesh -> Z)
    (mesh mesh' : MMG5_pMesh) (meshes : list MMG5_pMesh) :
  first + field mesh = a + field mesh' ->
  total first field (mesh :: meshes) = total a field (mesh' :: meshes).
Proof. unfold total. cbn. lia. Qed.

(** X16: "all the memory is devoted to the mesh" moves the slack of the
    parmesh to the mesh of the first group and keeps the totals: after
    it the parmesh has [memMax = memCur], and
    [PMMG_check_mem_max_and_mem_cur] reports what it reports on the
    parmesh that [PMMG_parmesh_Free_Comm] left, whatever [memGloMax]. *)
Theorem devote_memory_keeps_totals (parmesh parmesh' : PMMG_pParMesh)
    (memGloMax : Z) :
  devote_memory K parmesh = Some parmesh' ->
  PMMG_ParMesh.memMax parmesh' = PMMG_ParMesh.memCur parmesh'
  /\ PMMG_ParMesh.memCur parmesh'
     = PMMG_ParMesh.memCur (PMMG_parmesh_Free_Comm K parmesh)
  /\ PMMG_check_mem_max_and_mem_cur parmesh' memGloMax
     = PMMG_check_mem_max_and_mem_cur (PMMG_parmesh_Free_Comm K parmesh)
         memGloMax.
Proof.
  unfold devote_memory. set (p := PMMG_parmesh_Free_Comm K parmesh).
  unfold mesh0. cbn [parmesh_set_memMax PMMG_ParMesh.listgrp].
  destruct (PMMG_ParMesh.listgrp p) as [| g gs] eqn:Hl; [discriminate |].
  cbn [lookup list_lookup]. destruct (PMMG_Grp.mesh g) as [mesh |] eqn:Hg;
    [| discriminate].
  intros [= <-]. split; [reflexivity |]. split; [reflexivity |].
  unfold PMMG_check_mem_max_and_mem_cur, store_mesh0.
  cbn [Clean.parmesh_set_listgrp parmesh_set_memMax PMMG_ParMesh.listgrp
       PMMG_ParMesh.memMax PMMG_ParMesh.memCur].
  rewrite Hl. cbn [alter list_alter mapM]. cbn [Clean.grp_set_mesh
    PMMG_Grp.mesh]. rewrite Hg. cbn [mbind option_bind].
  destruct (mapM PMMG_Grp.mesh gs) as [meshes |]; [| reflexivity].
  cbn [mbind option_bind mret option_ret]. rewrite !sum_size_t_mod.
  rewrite (total_head (PMMG_ParMesh.memCur p) (PMMG_ParMesh.memCur p)
             MMG5_Mesh.memCur
             (mesh_set_memMax
                (MMG5_Mesh.memMax mesh
                 + (PMMG_ParMesh.memMax p - PMMG_ParMesh.memCur p)) mesh)
             mesh) by reflexivity.
  rewrite (total_head (PMMG_ParMesh.memCur p) (PMMG_ParMesh.memMax p)
             MMG5_Mesh.memMax
             (mesh_set_memMax
                (MMG5_Mesh.memMax mesh
                 + (PMMG_ParMesh.memMax p - PMMG_ParMesh.memCur p)) mesh)
             mesh) by (cbn; lia).
  reflexivity.
Qed.

End DevoteMemory.

Lemma devote_memory_keeps_totals_witness :
  PMMG_ParMesh.memMax
    (default (ex_parmesh 0) (devote_memory ex_K_ok (ex_parmesh 0)))
  = PMMG_ParMesh.memCur
      (default (ex_parmesh 0) (devote_memory ex_K_ok (ex_parmesh 0)))
  /\ PMMG_ParMesh.memCur
       (default (ex_parmesh 0) (devote_memory ex_K_ok (ex_parmesh 0)))
     = PMMG_ParMesh.memCur (PMMG_parmesh_Free_Comm ex_K_ok (ex_parmesh 0))
  /\ PMMG_check_mem_max_and_mem_cur
       (default (ex_parmesh 0) (devote_memory ex_K_ok (ex_parmesh 0))) 6000
     = PMMG_check_mem_max_and_mem_cur
         (PMMG_parmesh_Free_Comm ex_K_ok (ex_parmesh 0)) 6000.
Proof.
  apply (devote_memory_keeps_totals ex_K_ok (ex_parmesh 0)). vm_compute. reflexivity.
Defined.

Section CheckedInput.

Import InputData.

Lemma check_met_checked (g g' : PMMG_pGrp) (mesh : MMG5_pMesh)
    (met : MMG5_pSol) (w : list message) :
  PMMG_Grp.mesh g = Some mesh -> PMMG_Grp.met g = Some met ->
  (MMG5_Info.lag (MMG5_Mesh.info mesh) >? -1) = false ->
  (MMG5_Info.iso (MMG5_Mesh.info mesh) =? 0) = true ->
  check_met g mesh met = Accept g' w ->
  grp_checked g'
  /\ Forall (fun d => d = Warn_wrong_metric_number) w
  /\ (forall met', PMMG_Grp.met g' = Some met' ->
        MMG5_Sol.size met' = MMG5_Sol.size met).
Proof.
  intros Hmesh Hmet Hlag Hiso. unfold check_met, grp_checked.
  unfold option_error, metric_mismatch, wrong_size, hsiz_pos.
  destruct (negb (MMG5_Info.optimLES (MMG5_Mesh.info mesh) =? 0)
            && (MMG5_Sol.size met =? 6)) eqn:H1; [discriminate |].
  destruct (negb (MMG5_Sol.np met =? 0)
            && negb (MMG5_Info.optim (MMG5_Mesh.info mesh) =? 0)) eqn:H2;
    [discriminate |].
  destruct (negb (MMG5_Sol.np met =? 0)
            && PrimFloat.ltb 0 (MMG5_Info.hsiz (MMG5_Mesh.info mesh)))
    eqn:H3; [discriminate |].
  destruct (negb (MMG5_Info.optim (MMG5_Mesh.info mesh) =? 0)
            && PrimFloat.ltb 0 (MMG5_Info.hsiz (MMG5_Mesh.info mesh)))
    eqn:H4; [discriminate |].
  destruct (negb (MMG5_Sol.np met =? 0)
            && negb (MMG5_Sol.np met =? MMG5_Mesh.np mesh)) eqn:H5.
  - cbn [MMG5_DEL_MEM_m]. intros [= <- <-]. split; [| split].
    + eexists _, _. split; [reflexivity |]. split; [reflexivity |].
      cbn. rewrite Hlag, Hiso, H1, H4. cbn. auto.
    + now repeat constructor.
    + cbn. now intros met' [= <-].
  - destruct (negb (MMG5_Sol.size met =? 1)
              && negb (MMG5_Sol.size met =? 6)) eqn:H6; [discriminate |].
    intros [= <- <-]. split; [| split].
    + exists mesh, met. split; [exact Hmesh |]. split; [exact Hmet |].
      rewrite Hlag, Hiso, H1, H2, H3, H4, H5. cbn.
      split; [reflexivity |]. split; [reflexivity |].
      rewrite H6. discriminate.
    + constructor.
    + intros met' Hm. rewrite Hmet in Hm. now injection Hm as <-.
Qed.

Lemma check_grp_checked (g g' : PMMG_pGrp) (w : list message) :
  check_grp g = Some (Accept g' w) ->
  grp_checked g'
  /\ Forall (fun d => d = Warn_wrong_metric_number) w
  /\ (grp_sized g -> grp_sized g').
Proof.
  unfold check_grp.
  destruct (PMMG_Grp.mesh g) as [mesh |] eqn:Hmesh; [| discriminate].
  destruct (MMG5_Info.lag (MMG5_Mesh.info mesh) >? -1) eqn:Hlag;
    [discriminate |].
  destruct (MMG5_Info.iso (MMG5_Mesh.info mesh) =? 0) eqn:Hiso;
    [| discriminate].
  cbn [negb].
  destruct (PMMG_Grp.met g) as [met |] eqn:Hmet; [| discriminate].
  intros [= H].
  destruct (check_met_checked g g' mesh met w Hmesh Hmet Hlag Hiso H)
    as (Hc & Hw & Hs).
  split; [exact Hc |]. split; [exact Hw |].
  intros Hg met' Hm'. unfold wrong_size.
  rewrite (Hs met' Hm'). apply (Hg met Hmet).
Qed.

Lemma check_groups_checked (gs : list PMMG_pGrp) :
  forall r l gs',
    check_groups gs = Some (r, l, gs') -> r <> 0 ->
    r = 1
    /\ Forall grp_checked gs'
    /\ Forall (fun d => d = Warn_wrong_metric_number) l
    /\ (Forall grp_sized gs -> Forall grp_sized gs').
Proof.
  induction gs as [| g gs IH]; intros r l gs' H Hr; cbn in H.
  - injection H as <- <- <-. repeat split; auto; constructor.
  - destruct (check_grp g) as [[d | g' w] |] eqn:Hg; [| | discriminate].
    + injection H as <- _ _. now destruct Hr.
    + destruct (check_groups gs) as [[[r0 l0] gs0] |] eqn:Hgs;
        [| discriminate].
      injection H as <- <- <-.
      destruct (IH _ _ _ eq_refl Hr) as (H1 & Hc & Hw & Hs).
      destruct (check_grp_checked _ _ _ Hg) as (Hc1 & Hw1 & Hs1).
      split; [exact H1 |]. split; [now constructor |].
      split; [apply Forall_app; now split |].
      intros Hall. apply Forall_cons in Hall as [Ha Hb].
      constructor; auto.
Qed.

(** X17: when [PMMG_check_inputData] returns a non-zero value, it is 1,
    every group of the parmesh it leaves has a mesh and a metric with no
    option error, the metric has no point or as many as the mesh, and
    its size is 1 or 6 unless the metric was dropped (no point, no
    array); nothing but the warning of a dropped metric was printed. *)
Theorem check_accepts_consistent (parmesh parmesh' : PMMG_pParMesh)
    (r : Z) (l : list message) :
  PMMG_check_inputData parmesh = Some (r, l, parmesh') -> r <> 0 ->
  r = 1
  /\ Forall grp_checked (PMMG_ParMesh.listgrp parmesh')
  /\ Forall (fun d => d = Warn_wrong_metric_number) l.
Proof.
  unfold PMMG_check_inputData.
  destruct (check_groups (PMMG_ParMesh.listgrp parmesh))
    as [[[r0 l0] gs0] |] eqn:E; [| discriminate].
  intros [= <- <- <-] Hr.
  destruct (check_groups_checked _ _ _ _ E Hr) as (H1 & Hc & Hw & _).
  auto.
Qed.

Lemma check_accepts_consistent_witness :
  1 = 1
  /\ Forall grp_checked
       (PMMG_ParMesh.listgrp
          (snd (default (0, [], ex_parmesh 0)
                  (PMMG_check_inputData (ex_parmesh_with ex_info 3 0)))))
  /\ Forall (fun d => d = Warn_wrong_metric_number)
       [Warn_wrong_metric_number].
Proof.
  apply (check_accepts_consistent (ex_parmesh_with ex_info 3 0)).
  - vm_compute. reflexivity.
  - discriminate.
Defined.

Lemma checked_grp_accepted (g : PMMG_pGrp) :
  grp_checked g -> grp_sized g -> check_grp g = Some (Accept g []).
Proof.
  intros (mesh & met & Hmesh & Hmet & Ho & Hm & _) Hs.
  specialize (Hs met Hmet).
  unfold check_grp, check_met. rewrite Hmesh, Hmet.
  unfold option_error, metric_mismatch, wrong_size in *.
  repeat (apply orb_false_iff in Ho as [Ho ?]).
  rewrite Ho.
  destruct (MMG5_Info.iso (MMG5_Mesh.info mesh) =? 0); [| discriminate].
  cbn [negb].
  repeat match goal with H : _ = false |- _ => rewrite H end.
  reflexivity.
Qed.

Lemma checked_groups_accepted (gs : list PMMG_pGrp) :
  Forall grp_checked gs -> Forall grp_sized gs ->
  check_groups gs = Some (1, [], gs).
Proof.
  induction gs as [| g gs IH]; intros Hc Hs; cbn.
  - reflexivity.
  - apply Forall_cons in Hc as [Hc1 Hc]. apply Forall_cons in Hs as [Hs1 Hs].
    rewrite (checked_grp_accepted g Hc1 Hs1), (IH Hc Hs). reflexivity.
Qed.

(** X18: a parmesh that [PMMG_check_inputData] accepted, and whose
    metrics all have size 1 or 6, is a fixed point of the check: checked
    again it is accepted with no message and left as it is. *)
Theorem check_twice (parmesh parmesh' : PMMG_pParMesh) (r : Z)
    (l : list message) :
  PMMG_check_inputData parmesh = Some (r, l, parmesh') -> r <> 0 ->
  Forall grp_sized (PMMG_ParMesh.listgrp parmesh) ->
  PMMG_check_inputData parmesh' = Some (1, [], parmesh').
Proof.
  unfold PMMG_check_inputData.
  destruct (check_groups (PMMG_ParMesh.listgrp parmesh))
    as [[[r0 l0] gs0] |] eqn:E; [| discriminate].
  intros [= <- <- <-] Hr Hs.
  destruct (check_groups_checked _ _ _ _ E Hr) as (_ & Hc & _ & Hs').
  cbn [Clean.parmesh_set_listgrp PMMG_ParMesh.listgrp].
  rewrite (checked_groups_accepted gs0 Hc (Hs' Hs)). reflexivity.
Qed.

Lemma check_twice_witness :
  PMMG_check_inputData
    (snd (default (0, [], ex_parmesh 0)
            (PMMG_check_inputData (ex_parmesh_with ex_info 3 0))))
  = Some (1, [],
          snd (default (0, [], ex_parmesh 0)
                 (PMMG_check_inputData (ex_parmesh_with ex_info 3 0)))).
Proof.
  apply (check_twice (ex_parmesh_with ex_info 3 0) _ 1
           [Warn_wrong_metric_number]).
  - vm_compute. reflexivity.
  - discriminate.
  - repeat constructor. intros met [= <-]. vm_compute. reflexivity.
Defined.

End CheckedInput.

Section Codes.

Lemma sends_in_range_app (x y : summary) :
  sends_in_range x -> sends_in_range y -> sends_in_range (sm_app x y).
Proof.
  intros Hx Hy op sd r H. cbn in H. apply in_app_or in H as [H | H]; eauto.
Qed.

Lemma codes_known_prefix (x y : summary) (s : status) :
  sends_in_range x -> codes_known y s -> codes_known (sm_app x y) s.
Proof.
  intros Hx [H1 H2]. split.
  - intros op sd r H. cbn in H. apply in_app_or in H as [H | H].
    + left. eauto.
    + destruct (H1 _ _ _ H) as [Hr | Hc]; [now left | right].
      cbn. apply in_or_app. now right.
  - intros v Hv. destruct (H2 v Hv) as [-> | [-> | (op & sd & H)]]; auto.
    right. right. exists op, sd. cbn. apply in_or_app. now right.
Qed.

Variable K : Collaborators.

Lemma centralized_codes (parmesh : PMMG_pParMesh) :
  holds codes_known summ0 (PMMG_parmmglib_centralized K parmesh).
Proof. paths; path_facts; unfold codes_known; leaf. Qed.

Lemma distributed_analysis_codes (n : nat) : forall k parmesh x,
  sends_in_range x ->
  holds codes_known x (distributed_analysis K n k parmesh).
Proof.
  induction n as [| n IH]; intros k parmesh x Hx; apply holds_from;
    simpl distributed_analysis; paths.
  all: try (apply holds_shift, IH, sends_in_range_app; [exact Hx |];
            path_facts; unfold sends_in_range; leaf).
  all: apply codes_known_prefix; [exact Hx |];
    path_facts; unfold codes_known; leaf.
Qed.

Lemma distributed_codes (parmesh : PMMG_pParMesh) :
  holds codes_known summ0 (PMMG_parmmglib_distributed K parmesh).
Proof.
  paths.
  all: try (apply distributed_analysis_codes;
            path_facts; unfold sends_in_range; leaf).
  all: path_facts; unfold codes_known; leaf.
Qed.

End Codes.

Section CodesRuns.

Lemma codes_run (e : entry_point) (fuel : nat) (procs : list process)
    (st : pstate) :
  In st (run_entry e fuel procs) -> codes_known (summ (trace st)) (stat st).
Proof.
  destruct e; unfold run_entry, run_centralized, run_distributed;
    apply (holds_run codes_known); intros K parmesh.
  - apply centralized_codes.
  - apply distributed_codes.
Qed.

(** X19: in every run of an entry point in which [PMMG_parmmglib1]
    returned nothing but [PMMG_SUCCESS], [PMMG_LOWFAILURE] or
    [PMMG_STRONGFAILURE], a process that returns, returns one of these
    three codes: the value of a reduction that is returned was
    contributed by some process, as an outcome of the preprocessing or of
    the remeshing. *)
Theorem returns_documented_codes (e : entry_point) (fuel : nat)
    (procs : list process) (st : pstate) (v : Z) :
  (forall p c, In p (run_entry e fuel procs) ->
     In (C_parmmglib1, c) (calls (trace p)) ->
     PMMG_SUCCESS <= c <= PMMG_STRONGFAILURE) ->
  In st (run_entry e fuel procs) -> returned st = Some v ->
  v = PMMG_SUCCESS \/ v = PMMG_LOWFAILURE \/ v = PMMG_STRONGFAILURE.
Proof.
  intros Hcodes Hst Hv.
  pose proof (lockstep_entry e fuel procs) as Hl.
  destruct (codes_run _ _ _ _ Hst) as [_ H2].
  assert (Hval : value_of (stat st) = Some v).
  { unfold returned in Hv. unfold value_of. now destruct (stat st). }
  destruct (H2 v Hval) as [-> | [-> | (op & sd & Hin)]]; auto.
  cbn in Hin. apply list_elem_of_In, list_elem_of_lookup in Hin as [n Hn].
  destruct (lockstep_attained _ _ _ _ _ _ Hl Hst Hn) as (p & Hp & Hpn).
  destruct (codes_run _ _ _ _ Hp) as [H1 _].
  assert (Hr : 0 <= v <= 2).
  { destruct (H1 op v v) as [Hr | Hc].
    - cbn. apply list_elem_of_In, list_elem_of_lookup. now exists n.
    - exact Hr.
    - exact (Hcodes p v Hp Hc). }
  unfold PMMG_SUCCESS, PMMG_LOWFAILURE, PMMG_STRONGFAILURE. lia.
Qed.

Lemma returns_documented_codes_witness :
  PMMG_STRONGFAILURE = PMMG_SUCCESS
  \/ PMMG_STRONGFAILURE = PMMG_LOWFAILURE
  \/ PMMG_STRONGFAILURE = PMMG_STRONGFAILURE.
Proof.
  apply (returns_documented_codes Centralized 3 ex_run_strong
           (outcome 0 (run_entry Centralized 3 ex_run_strong))).
  - intros p c Hp Hcall. vm_compute in Hp.
    repeat (destruct Hp as [Hp | Hp]; [subst |]); [.. | destruct Hp];
      vm_compute in Hcall;
      repeat (destruct Hcall as [Hcall | Hcall];
              try discriminate Hcall; try tauto);
      injection Hcall as <-; vm_compute; split; discriminate.
  - vm_compute. left. reflexivity.
  - vm_compute. reflexivity.
Defined.

End CodesRuns.

Section Broadcast.

Lemma reduce_all_ones (op : redop) (vs : list Z) :
  vs <> [] -> (forall s, In s vs -> s = 1) -> reduce op vs = 1.
Proof. intros Hne H. apply H, reduce_attained, Hne. Qed.

Lemma after_check_spec (e : process) (r : Z) :
  bcast_returns e r ->
  length (colls (trace (after_check e))) = 1%nat
  /\ (r = 1 -> returned (after_check e) = None)
  /\ (r <> 1 -> returned (after_check e) = Some PMMG_LOWFAILURE).
Proof.
  intros (msgs & pm & E & Hr). unfold after_check.
  unfold PMMG_parmmglib_centralized.
  rewrite (check_phase_exec _ _ _ _ _ E). unfold resume. cbn [stat trace].
  split.
  { rewrite exec_colls, !colls_app, colls_prints. reflexivity. }
  unfold centralized_distribute. change (1 =? 0) with false. cbn iota.
  destruct (PMMG_bcast_mesh (fst e) pm) as [ier pm1]. cbn [fst] in Hr.
  subst ier. cbn [exec]. split; intros H.
  - subst r. rewrite Z.eqb_refl. cbn [negb]. unfold preprocess_phase.
    destruct (PMMG_preprocessMesh (fst e) pm1) as [[ier pm2] |];
      [| reflexivity].
    cbn [exec].
    destruct (unscale_if_strong (fst e) 0 ier pm2) as [[[ier' l] pm3] |];
      [| reflexivity].
    rewrite exec_emit_all. reflexivity.
  - replace (r =? 1) with false by (symmetry; now apply Z.eqb_neq).
    reflexivity.
Qed.

(** After the first reduction nobody moves when a process has left. *)
Lemma after_check_stuck (procs : list process) :
  Exists (fun e => exists r, bcast_returns e r /\ r <> 1) procs ->
  round (map after_check procs) = None.
Proof.
  intros Hex.
  destruct (round (map after_check procs)) as [sts' |] eqn:Hround;
    [| reflexivity].
  exfalso. apply round_inv in Hround as (op & _ & Hw & _).
  apply Exists_exists in Hex. destruct Hex as (e & He & r & Hb & Hr).
  rewrite Forall_forall in Hw.
  assert (Hin : after_check e ∈ map after_check procs).
  { apply list_elem_of_In, in_map. now apply list_elem_of_In. }
  specialize (Hw _ Hin).
  destruct (after_check_spec e r Hb) as (_ & _ & Hret).
  specialize (Hret Hr). unfold returned in Hret. unfold waiting_on in Hw.
  destruct (stat (after_check e)); discriminate.
Qed.

(** X20: the outcome of [PMMG_bcast_mesh] is tested on each process and
    not reduced.  In a run of the centralized entry point in which the
    input check accepts every parmesh and [PMMG_bcast_mesh] returns a
    value other than 1 on some process, each process completes the first
    reduction and no other, whatever the number of rounds: the processes
    on which [PMMG_bcast_mesh] failed have returned [PMMG_LOWFAILURE],
    those on which it returned 1 never return, and no reduction can
    complete any more. *)
Theorem bcast_failure_hangs (fuel : nat) (procs : list process) :
  (1 <= fuel)%nat ->
  Forall (fun e => exists r, bcast_returns e r) procs ->
  Exists (fun e => exists r, bcast_returns e r /\ r <> 1) procs ->
  round (run_centralized fuel procs) = None
  /\ forall j e, procs !! j = Some e ->
       exists st,
         run_centralized fuel procs !! j = Some st
         /\ length (colls (trace st)) = 1%nat
         /\ (bcast_returns e 1 -> returned st = None)
         /\ (forall r, bcast_returns e r -> r <> 1 ->
               returned st = Some PMMG_LOWFAILURE).
Proof.
  intros Hfuel Hall Hex.
  assert (Hst : forall e, In e procs ->
            exists msgs parmesh',
              exec [] (PMMG_parmmglib_centralized (fst e) (snd e))
              = {| trace := map Act (map APrint msgs) ++ [Act (ACheck 1)];
                   stat := Waiting MPI_MIN 1
                             (centralized_distribute (fst e) parmesh') |}).
  { intros e He. rewrite Forall_forall in Hall.
    destruct (Hall e (proj2 (list_elem_of_In _ _) He))
      as (r & msgs & pm & E & _).
    exists msgs, pm. now apply check_phase_exec. }
  assert (Hrun : run_centralized fuel procs = map after_check procs).
  { unfold run_centralized. destruct fuel as [| fuel]; [lia |]. cbn [run].
    set (sts := start PMMG_parmmglib_centralized procs).
    assert (Hne : sts <> []).
    { destruct procs; [now apply Exists_nil in Hex | discriminate]. }
    assert (Hwait : Forall (fun st => waiting_on MPI_MIN st = true) sts).
    { apply Forall_forall. intros x Hx.
      apply list_elem_of_In, in_map_iff in Hx. destruct Hx as (e & <- & He).
      destruct (Hst e He) as (msgs & pm' & ->). reflexivity. }
    assert (Hv : reduce MPI_MIN (map send_of sts) = 1).
    { apply reduce_all_ones.
      - destruct sts; [congruence | discriminate].
      - intros s Hs. apply in_map_iff in Hs. destruct Hs as (x & <- & Hx).
        apply in_map_iff in Hx. destruct Hx as (e & <- & He).
        destruct (Hst e He) as (msgs & pm' & ->). reflexivity. }
    rewrite (round_waiting MPI_MIN sts Hne Hwait), Hv.
    assert (Hmap : map (resume 1) sts = map after_check procs).
    { subst sts. unfold start. now rewrite map_map. }
    rewrite Hmap. now apply run_stuck, after_check_stuck. }
  split.
  - rewrite Hrun. now apply after_check_stuck.
  - intros j e Hj. exists (after_check e). rewrite Hrun.
    split.
    { change (@map) with (@fmap list _). now rewrite list_lookup_fmap, Hj. }
    rewrite Forall_forall in Hall.
    destruct (Hall e (list_elem_of_lookup_2 _ _ _ Hj)) as (r0 & Hb0).
    split; [exact (proj1 (after_check_spec e r0 Hb0)) |].
    split.
    + intros Hb. now apply (after_check_spec e 1 Hb).
    + intros r Hb Hr. now apply (after_check_spec e r Hb).
Qed.

Lemma bcast_failure_hangs_witness :
  round (run_centralized 5 ex_run_no_bcast) = None
  /\ forall j e, ex_run_no_bcast !! j = Some e ->
       exists st,
         run_centralized 5 ex_run_no_bcast !! j = Some st
         /\ length (colls (trace st)) = 1%nat
         /\ (bcast_returns e 1 -> returned st = None)
         /\ (forall r, bcast_returns e r -> r <> 1 ->
               returned st = Some PMMG_LOWFAILURE).
Proof.
  apply (bcast_failure_hangs 5 ex_run_no_bcast).
  - lia.
  - repeat constructor.
    + exists 1. eexists _, _. split; vm_compute; reflexivity.
    + exists 0. eexists _, _. split; vm_compute; reflexivity.
  - apply Exists_cons_tl, Exists_cons_hd. exists 0. split.
    + eexists _, _. split; vm_compute; reflexivity.
    + discriminate.
Defined.

End Broadcast.

Section Preprocess.

Variable K : Collaborators.

Lemma andThen_assoc {S : Type} (a : flow S) (k1 k2 : S -> flow S) :
  a ;;; k1 ;;; k2 = a ;;; (fun s => k1 s ;;; k2).
Proof. now destruct a. Qed.

Lemma andThen_late (a : flow (MMG5_pMesh * MMG5_pSol))
    (k : MMG5_pMesh * MMG5_pSol -> flow (MMG5_pMesh * MMG5_pSol)) :
  late K a -> (forall s, late K (k s)) -> late K (a ;;; k).
Proof. destruct a; simpl; auto. Qed.

Lemma orReturn_late
    (f : MMG5_pMesh * MMG5_pSol -> Z * (MMG5_pMesh * MMG5_pSol))
    (s : MMG5_pMesh * MMG5_pSol) :
  late K (orReturn f PMMG_STRONGFAILURE s).
Proof.
  unfold orReturn. destruct (f s) as [r s'].
  destruct (r =? 0); simpl; auto.
Qed.

Lemma when_late (c : bool)
    (k : MMG5_pMesh * MMG5_pSol -> flow (MMG5_pMesh * MMG5_pSol))
    (s : MMG5_pMesh * MMG5_pSol) :
  (forall s, late K (k s)) -> late K (when c k s).
Proof. intros H. unfold when. destruct c; simpl; auto. Qed.

Lemma orReturn_eq {S : Type} (f : S -> Z * S) (v : Z) (s : S) :
  orReturn f v s
  = if fst (f s) =? 0 then Return v (snd (f s)) else Next (snd (f s)).
Proof. unfold orReturn. now destruct (f s). Qed.

Lemma andThen_returns (a : flow (MMG5_pMesh * MMG5_pSol))
    (k : MMG5_pMesh * MMG5_pSol -> flow (MMG5_pMesh * MMG5_pSol)) :
  late K a ->
  (forall s, exists v s', k s = Return v s' /\ late K (Return v s')) ->
  exists v s', a ;;; k = Return v s' /\ late K (Return v s').
Proof.
  destruct a as [s | v s]; cbn [andThen]; intros Ha Hk; [apply Hk |].
  now exists v, s.
Qed.

Lemma unscale_returns (s : MMG5_pMesh * MMG5_pSol) :
  exists v s',
    orReturn (MMG5_unscaleMesh K) PMMG_STRONGFAILURE s ;;;
    (fun s => Return PMMG_SUCCESS s) = Return v s'
    /\ late K (Return v s').
Proof.
  rewrite orReturn_eq. destruct (fst (MMG5_unscaleMesh K s) =? 0) eqn:Hr;
    cbn [andThen]; eexists _, _; (split; [reflexivity |]); simpl.
  - now left.
  - right. split; [reflexivity |]. exists s.
    split; [now apply Z.eqb_neq | reflexivity].
Qed.

Lemma preprocess_body_cases (imprim : Z) (s : MMG5_pMesh * MMG5_pSol) :
  (fst (MMG5_scaleMesh K s) = 0 ->
   preprocess_body K imprim s
   = Return PMMG_LOWFAILURE (snd (MMG5_scaleMesh K s)))
  /\ (fst (MMG5_scaleMesh K s) <> 0 ->
      exists v s', preprocess_body K imprim s = Return v s'
                   /\ late K (Return v s')).
Proof.
  unfold preprocess_body. rewrite !andThen_assoc.
  rewrite (orReturn_eq (MMG5_scaleMesh K) PMMG_LOWFAILURE s).
  split; intros H0.
  - rewrite H0. reflexivity.
  - replace (fst (MMG5_scaleMesh K s) =? 0) with false
      by (symmetry; now apply Z.eqb_neq).
    cbn [andThen].
    repeat first
      [ apply unscale_returns
      | apply andThen_returns; [| intros ?] ];
      repeat first
        [ apply when_late; intros ?
        | apply andThen_late; [| intros ?]
        | apply orReturn_late
        | exact I ].
Qed.

Lemma load_store_grp (s s0 : MMG5_pMesh * MMG5_pSol)
    (parmesh : PMMG_pParMesh) :
  load_grp 0 parmesh = Some s0 ->
  load_grp 0 (store_grp 0 s parmesh) = Some s.
Proof.
  unfold load_grp, store_grp.
  destruct parmesh as [[| g gs] rank imprim mmax mcur]; cbn; [discriminate |].
  intros _. now destruct s.
Qed.

(** X21: [PMMG_preprocessMesh] returns [PMMG_LOWFAILURE] exactly when
    [_MMG5_scaleMesh] returned 0, and the first group then holds what the
    scaling left, nothing else having run; otherwise it returns
    [PMMG_STRONGFAILURE], or [PMMG_SUCCESS] with the first group holding
    what an [_MMG5_unscaleMesh] that returned a non-zero value left.  The
    groups after the first are not touched. *)
Theorem preprocess_outcome (parmesh parmesh' : PMMG_pParMesh) (r : Z)
    (s : MMG5_pMesh * MMG5_pSol) :
  load_grp 0 parmesh = Some s ->
  PMMG_preprocessMesh K parmesh = Some (r, parmesh') ->
  (fst (MMG5_scaleMesh K s) = 0 ->
     r = PMMG_LOWFAILURE
     /\ load_grp 0 parmesh' = Some (snd (MMG5_scaleMesh K s)))
  /\ (fst (MMG5_scaleMesh K s) <> 0 ->
        r = PMMG_STRONGFAILURE
        \/ (r = PMMG_SUCCESS
            /\ exists s', fst (MMG5_unscaleMesh K s') <> 0
                 /\ load_grp 0 parmesh' = Some (snd (MMG5_unscaleMesh K s'))))
  /\ (forall k, (1 <= k)%nat ->
        PMMG_ParMesh.listgrp parmesh' !! k
        = PMMG_ParMesh.listgrp parmesh !! k).
Proof.
  intros Hs. unfold PMMG_preprocessMesh. rewrite Hs. intros [= <- <-].
  destruct (preprocess_body_cases (PMMG_ParMesh.imprim parmesh) s)
    as [Hlow Hlate].
  split; [| split].
  - intros H0. rewrite (Hlow H0). cbn [flow_value flow_state].
    split; [reflexivity |]. now apply (load_store_grp _ s).
  - intros H0. destruct (Hlate H0) as (v & s' & -> & Hl).
    cbn [flow_value flow_state].
    destruct Hl as [-> | (-> & s1 & H1 & ->)]; [now left | right].
    split; [reflexivity |]. exists s1. split; [exact H1 |].
    now apply (load_store_grp _ s).
  - intros k Hk. unfold store_grp. cbn [Clean.parmesh_set_listgrp
      PMMG_ParMesh.listgrp].
    destruct k as [| k]; [lia |].
    now destruct (PMMG_ParMesh.listgrp parmesh).
Qed.

End Preprocess.

Lemma preprocess_outcome_witness :
  PMMG_SUCCESS = PMMG_STRONGFAILURE
  \/ (PMMG_SUCCESS = PMMG_SUCCESS
      /\ exists s', fst (MMG5_unscaleMesh ex_K_ok s') <> 0
           /\ load_grp 0 (ex_parmesh 0)
              = Some (snd (MMG5_unscaleMesh ex_K_ok s'))).
Proof.
  refine (proj1 (proj2 (preprocess_outcome ex_K_ok (ex_parmesh 0)
                          (ex_parmesh 0) PMMG_SUCCESS
                          (ex_mesh, ex_sol 5) _ _)) _).
  - reflexivity.
  - vm_compute. reflexivity.
  - vm_compute. discriminate.
Defined.
